(** * pi-bash-guard: a shallow embedding of [index.ts]

    The extension decides, for a shell command string, which of its
    segments run a blocked program.  This file embeds the parsing and
    matching engine, the persisted-configuration loader and the policy
    commands, and states the behaviour of each as theorems.

    Conventions of the embedding.
    - A JavaScript string is a [string]; each [ascii] stands for the
      UTF-16 code unit of the same number, so the embedding covers the
      strings whose code units lie in U+0000..U+00FF.  On that range
      [String.prototype.trim], the regular-expression class [\s] and
      [String.prototype.toLowerCase] are the functions written below.
    - A JavaScript [Set<string>] is the list of its members in insertion
      order, without repetition ([set_add], [set_delete], [set_has]).
    - [number]s that hold lengths are in [Z], because [maxTokenCount]
      answers [-1] for the empty list.
    - A [while] loop over an index [idx] into [tokens] is a recursion
      over the suffix [tokens.slice(idx)]. *)

From Stdlib Require Import Bool Ascii String List ZArith Lia Permutation.
From Stdlib Require Import DecimalString Sorted.
From Equations Require Import Equations.
Import ListNotations.

Local Open Scope string_scope.
Local Open Scope list_scope.

(** ** JavaScript string primitives *)

Module Js.

Definition code (c : ascii) : N := N_of_ascii c.

Definition dquote : ascii := "034"%char.
Definition squote : ascii := "'"%char.
Definition backslash : ascii := "\"%char.
Definition newline : ascii := "010"%char.

(** [/\s/] and the characters removed by [trim], for code units below 256:
    TAB, LF, VT, FF, CR, SPACE and NBSP. *)
Definition isWhitespace (c : ascii) : bool :=
  let n := code c in
  ((9 <=? n) && (n <=? 13) || (n =? 32) || (n =? 160))%N.

Definition isAsciiLetter (c : ascii) : bool :=
  let n := code c in
  ((65 <=? n) && (n <=? 90) || (97 <=? n) && (n <=? 122))%N.

Definition isAsciiDigit (c : ascii) : bool :=
  let n := code c in ((48 <=? n) && (n <=? 57))%N.

Definition isQuoteChar (c : ascii) : bool :=
  Ascii.eqb c squote || Ascii.eqb c dquote.

Definition isParenChar (c : ascii) : bool :=
  Ascii.eqb c "("%char || Ascii.eqb c ")"%char.

(** [toLowerCase] on one code unit: A-Z, and the Latin-1 capitals
    U+00C0..U+00DE except the multiplication sign U+00D7. *)
Definition lowerChar (c : ascii) : ascii :=
  let n := code c in
  if ((65 <=? n) && (n <=? 90))%N then ascii_of_N (n + 32)
  else if ((192 <=? n) && (n <=? 222) && negb (n =? 215))%N
       then ascii_of_N (n + 32)
  else c.

Fixpoint toLowerCase (s : string) : string :=
  match s with
  | EmptyString => EmptyString
  | String c r => String (lowerChar c) (toLowerCase r)
  end.

Definition isEmpty (s : string) : bool :=
  match s with EmptyString => true | _ => false end.

(** Removal of the longest prefix, and of the longest suffix, whose
    characters all satisfy [p]: the replacements [/^[..]+/] and [/[..]+$/]. *)
Fixpoint dropWhile (p : ascii -> bool) (s : string) : string :=
  match s with
  | EmptyString => EmptyString
  | String c r => if p c then dropWhile p r else s
  end.

Fixpoint dropWhileEnd (p : ascii -> bool) (s : string) : string :=
  match s with
  | EmptyString => EmptyString
  | String c r =>
      let r' := dropWhileEnd p r in
      if isEmpty r' && p c then EmptyString else String c r'
  end.

Definition trim (s : string) : string :=
  dropWhileEnd isWhitespace (dropWhile isWhitespace s).

Definition startsWith (pre s : string) : bool := String.prefix pre s.

(** [s.split(sep)] for a one-character separator. *)
Fixpoint splitOn (sep : ascii) (s : string) : list string :=
  match s with
  | EmptyString => [EmptyString]
  | String c r =>
      if Ascii.eqb c sep then EmptyString :: splitOn sep r
      else match splitOn sep r with
           | [] => [String c EmptyString]
           | piece :: pieces => String c piece :: pieces
           end
  end.

(** [xs.pop()] read as a value: the last element, if any. *)
Fixpoint pop {A : Type} (xs : list A) : option A :=
  match xs with
  | [] => None
  | [x] => Some x
  | _ :: r => pop r
  end.

(** [xs.join(sep)]. *)
Definition join (sep : string) (xs : list string) : string :=
  String.concat sep xs.

(** [s.replace(/\.exe$/i, "")]. *)
Definition isDotExe (s : string) : bool :=
  match s with
  | String d (String e1 (String x (String e2 EmptyString))) =>
      Ascii.eqb d "."%char
      && Ascii.eqb (lowerChar e1) "e"%char
      && Ascii.eqb (lowerChar x) "x"%char
      && Ascii.eqb (lowerChar e2) "e"%char
  | _ => false
  end.

Fixpoint stripExe (s : string) : string :=
  match s with
  | EmptyString => EmptyString
  | String c r => if isDotExe s then EmptyString else String c (stripExe r)
  end.

(** A one-character string, for [current += ch]. *)
Definition chr (c : ascii) : string := String c EmptyString.

(** Insertion-ordered sets of strings. *)
Definition set_has (x : string) (s : list string) : bool :=
  existsb (String.eqb x) s.

Definition set_add (x : string) (s : list string) : list string :=
  if set_has x s then s else s ++ [x].

Definition set_delete (x : string) (s : list string) : list string :=
  filter (fun y => negb (String.eqb x y)) s.

(** [new Set(xs)]. *)
Definition set_of_list (xs : list string) : list string :=
  fold_left (fun s x => set_add x s) xs [].

End Js.

Import Js.

(** ** Segmenter and tokenizer *)

Definition isSegmentDelimiter (ch : ascii) : bool :=
  Ascii.eqb ch ";"%char || Ascii.eqb ch "|"%char
  || Ascii.eqb ch "&"%char || Ascii.eqb ch newline.

(** [if (current.trim()) segments.push(current.trim())]. *)
Definition pushSegment (segments : list string) (current : string)
  : list string :=
  if isEmpty (trim current) then segments else segments ++ [trim current].

(** The [for] loop of [splitShellSegments], over the characters still to
    read, with the loop's four variables. *)
Fixpoint splitLoop (command : string) (segments : list string)
    (current : string) (quote : option ascii) (escaped : bool)
  : list string :=
  match command with
  | EmptyString => pushSegment segments current
  | String ch rest =>
      if escaped then
        splitLoop rest segments (current ++ chr ch) quote false
      else if Ascii.eqb ch backslash then
        splitLoop rest segments (current ++ chr ch) quote true
      else
        match quote with
        | Some q =>
            splitLoop rest segments (current ++ chr ch)
              (if Ascii.eqb ch q then None else quote) false
        | None =>
            if isQuoteChar ch then
              splitLoop rest segments (current ++ chr ch) (Some ch) false
            else if isSegmentDelimiter ch then
              splitLoop rest (pushSegment segments current) "" None false
            else
              splitLoop rest segments (current ++ chr ch) None false
        end
  end.

Definition splitShellSegments (command : string) : list string :=
  splitLoop command [] "" None false.

(** [if (current.length > 0) tokens.push(current)]. *)
Definition pushToken (tokens : list string) (current : string)
  : list string :=
  if isEmpty current then tokens else tokens ++ [current].

Fixpoint tokenizeLoop (segment : string) (tokens : list string)
    (current : string) (quote : option ascii) (escaped : bool)
  : list string :=
  match segment with
  | EmptyString => pushToken tokens current
  | String ch rest =>
      if escaped then
        tokenizeLoop rest tokens (current ++ chr ch) quote false
      else if Ascii.eqb ch backslash
              && negb (match quote with
                       | Some q => Ascii.eqb q squote
                       | None => false
                       end) then
        tokenizeLoop rest tokens current quote true
      else
        match quote with
        | Some q =>
            if Ascii.eqb ch q then tokenizeLoop rest tokens current None false
            else tokenizeLoop rest tokens (current ++ chr ch) quote false
        | None =>
            if isQuoteChar ch then
              tokenizeLoop rest tokens current (Some ch) false
            else if isWhitespace ch then
              tokenizeLoop rest (pushToken tokens current) "" None false
            else
              tokenizeLoop rest tokens (current ++ chr ch) None false
        end
  end.

Definition tokenizeShellWords (segment : string) : list string :=
  tokenizeLoop segment [] "" None false.

(** ** Invocation normalizer *)

Definition isIdentStart (c : ascii) : bool :=
  isAsciiLetter c || Ascii.eqb c "_"%char.

Definition isIdentChar (c : ascii) : bool :=
  isAsciiLetter c || isAsciiDigit c || Ascii.eqb c "_"%char.

(** After the first character of [/^[A-Za-z_][A-Za-z0-9_]*=.*/]. *)
Fixpoint identThenEquals (s : string) : bool :=
  match s with
  | EmptyString => false
  | String c r =>
      if Ascii.eqb c "="%char then true
      else if isIdentChar c then identThenEquals r
      else false
  end.

Definition isEnvAssignment (token : string) : bool :=
  match token with
  | EmptyString => false
  | String c r => isIdentStart c && identThenEquals r
  end.

Definition normalizeCommandName (raw : string) : string :=
  let trimmed := dropWhileEnd isQuoteChar (dropWhile isQuoteChar (trim raw)) in
  let noParens := dropWhileEnd isParenChar (dropWhile isParenChar trimmed) in
  let base :=
    match pop (filter (fun piece => negb (isEmpty piece))
                      (splitOn "/"%char noParens)) with
    | Some piece => piece
    | None => noParens
    end in
  toLowerCase (stripExe base).

Definition SUDO_OPTIONS_WITH_VALUE : list string :=
  [ "-u"; "--user"; "-g"; "--group"; "-h"; "--host"; "-p"; "--prompt";
    "-r"; "--role"; "-t"; "--type"; "-c"; "--close-from" ].

(** [while (idx < tokens.length && isEnvAssignment(tokens[idx])) idx += 1]. *)
Fixpoint skipEnvAssignments (tokens : list string) : list string :=
  match tokens with
  | [] => []
  | t :: rest => if isEnvAssignment t then skipEnvAssignments rest else tokens
  end.

(** The inner loop of the [env] branch: assignments and flags are skipped,
    [-u] and [--unset] take one more token when there is one. *)
Fixpoint skipEnvArguments (tokens : list string) : list string :=
  match tokens with
  | [] => []
  | envToken :: rest =>
      if isEnvAssignment envToken then skipEnvArguments rest
      else if startsWith "-" envToken then
        if String.eqb envToken "-u" || String.eqb envToken "--unset" then
          match rest with
          | [] => []
          | _ :: rest' => skipEnvArguments rest'
          end
        else skipEnvArguments rest
      else tokens
  end.

(** The inner loop of the [sudo] branch. *)
Fixpoint skipSudoOptions (tokens : list string) : list string :=
  match tokens with
  | [] => []
  | t :: rest =>
      if startsWith "-" t then
        if set_has (normalizeCommandName t) SUDO_OPTIONS_WITH_VALUE then
          match rest with
          | [] => []
          | _ :: rest' => skipSudoOptions rest'
          end
        else skipSudoOptions rest
      else tokens
  end.

(** The inner loop of the [command], [nohup] and [time] branch. *)
Fixpoint skipDashOptions (tokens : list string) : list string :=
  match tokens with
  | [] => []
  | t :: rest => if startsWith "-" t then skipDashOptions rest else tokens
  end.

Definition inspect {A : Type} (a : A) : { b : A | a = b } :=
  exist _ a eq_refl.

#[local] Unset Equations With Funext.
Set Warnings "-solve_obligation_error".

(** The outer [while (idx < tokens.length)] loop.  Every round removes at
    least the wrapper's own token, which is the termination measure.  The
    unfolding equation is proved by hand after the termination proof, so
    that nothing here rests on functional extensionality. *)
Equations? normalizeInvocationTokens (tokens : list string) : list string
  by wf (length tokens) lt :=
normalizeInvocationTokens tokens with inspect (skipEnvAssignments tokens) := {
  | exist _ [] _ => []
  | exist _ (t :: rest) Hskip =>
      let token := normalizeCommandName t in
      if String.eqb token "env" then
        normalizeInvocationTokens (skipEnvArguments rest)
      else if String.eqb token "sudo" then
        normalizeInvocationTokens (skipSudoOptions rest)
      else if String.eqb token "command" || String.eqb token "nohup"
              || String.eqb token "time" then
        normalizeInvocationTokens (skipDashOptions rest)
      else token :: rest }.
Proof.
  all: assert (Hround : (length (t :: rest) <= length tokens)%nat)
    by (rewrite <- Hskip; clear; induction tokens as [|a l IH]; simpl;
        [lia|destruct (isEnvAssignment a); simpl; lia]).
  all: simpl in Hround.
  all: match goal with
       | |- (length (?skip ?r) < _)%nat =>
           enough (Hshort : forall n l, (length l <= n)%nat ->
                                        (length (skip l) <= length l)%nat)
             by (specialize (Hshort _ r (le_n _)); lia)
       end.
  all: clear; induction n as [|n IH]; intros [|a l] Hn; simpl in *;
    try lia.
  - destruct (isEnvAssignment a); [specialize (IH l); lia|].
    destruct (startsWith "-" a); [|simpl; lia].
    destruct (String.eqb a "-u" || String.eqb a "--unset");
      [|specialize (IH l); lia].
    destruct l as [|v l]; simpl in *; [lia|specialize (IH l); lia].
  - destruct (startsWith "-" a); [|simpl; lia].
    match goal with
    | |- context [if ?hasValue then _ else _] => destruct hasValue
    end; [|specialize (IH l); lia].
    destruct l as [|v l]; simpl in *; [lia|specialize (IH l); lia].
  - destruct (startsWith "-" a); [specialize (IH l); lia|simpl; lia].
Qed.
Next Obligation.
  unfold normalizeInvocationTokens.
  rewrite Subterm.FixWf_unfold.
  - unfold normalizeInvocationTokens_functional,
      normalizeInvocationTokens_unfold.
    destruct (inspect (skipEnvAssignments tokens)) as [[|t rest] e];
      reflexivity.
  - intros x f g Hfg. unfold normalizeInvocationTokens_functional.
    destruct (inspect (skipEnvAssignments x)) as [[|t rest] e];
      [reflexivity|].
    unfold normalizeInvocationTokens_clause_1. cbv zeta.
    destruct (String.eqb (normalizeCommandName t) "env"); [apply Hfg|].
    destruct (String.eqb (normalizeCommandName t) "sudo"); [apply Hfg|].
    destruct (_ || _ || _); [apply Hfg|reflexivity].
Defined.

Set Warnings "+solve_obligation_error".

(** ** Rule compiler *)

Record PrefixRule : Type := {
  prefix : string;
  tokens : list string;
  tokenCount : Z
}.

Record BlockedInvocation : Type := {
  invocation : string;
  matchedBlocks : list string
}.

(** [undefined] is [None]. *)
Definition canonicalizePrefix (input : string) : option string :=
  let normalized :=
    normalizeInvocationTokens (tokenizeShellWords (trim input)) in
  match normalized with
  | [] => None
  | _ :: _ => Some (join " " normalized)
  end.

(** Truthiness of a [string | undefined]: [undefined] and the empty string
    are falsy. *)
Definition truthy (value : option string) : bool :=
  match value with
  | Some s => negb (isEmpty s)
  | None => false
  end.

(** One round of the [for ... of prefixes] loop of [buildRules]. *)
Definition buildRule (rules : list PrefixRule) (p : string)
  : list PrefixRule :=
  match canonicalizePrefix p with
  | Some canonical =>
      if isEmpty canonical then rules
      else
        let ruleTokens := tokenizeShellWords canonical in
        rules ++ [ {| prefix := canonical;
                      tokens := ruleTokens;
                      tokenCount := Z.of_nat (length ruleTokens) |} ]
  | None => rules
  end.

Definition buildRules (prefixes : list string) : list PrefixRule :=
  fold_left buildRule prefixes [].

(** ** Rule matcher *)

(** [a !== b] is [negb (strictEq a b)]; an index out of range reads
    [undefined]. *)
Definition strictEq (a b : option string) : bool :=
  match a, b with
  | Some x, Some y => String.eqb x y
  | None, None => true
  | _, _ => false
  end.

Definition isPrefixMatch (invocationTokens ruleTokens : list string) : bool :=
  if (length ruleTokens =? 0)%nat
     || (length invocationTokens <? length ruleTokens)%nat
  then false
  else
    forallb
      (fun i => strictEq (nth_error invocationTokens i) (nth_error ruleTokens i))
      (seq 0 (length ruleTokens)).

Definition matchingRules (invocationTokens : list string)
    (rules : list PrefixRule) : list PrefixRule :=
  filter (fun rule => isPrefixMatch invocationTokens (tokens rule)) rules.

(** ** Decision engine *)

(** [Math.max(...counts)] for a non-empty argument list. *)
Definition maxTokenCount (rules : list PrefixRule) : Z :=
  match map tokenCount rules with
  | [] => -1
  | c :: cs => fold_left Z.max cs c
  end.

Definition mostSpecificPrefixes (rules : list PrefixRule) : list string :=
  let longest := maxTokenCount rules in
  if (longest <? 0)%Z then []
  else map prefix (filter (fun rule => (tokenCount rule =? longest)%Z) rules).

Inductive Action : Type := Permit | Block | NoAction.

(** What [decideLayer] returns; [layerBlocks] is its [matchedBlocks]
    field, [NoAction] its action ["none"]. *)
Record LayerDecision : Type := {
  action : Action;
  layerBlocks : list string
}.

Definition decideLayer (permitMatches blockMatches : list PrefixRule)
  : LayerDecision :=
  let permitLen := maxTokenCount permitMatches in
  let blockLen := maxTokenCount blockMatches in
  if (permitLen <? 0)%Z && (blockLen <? 0)%Z then
    {| action := NoAction; layerBlocks := [] |}
  else if (permitLen >=? blockLen)%Z then
    {| action := Permit; layerBlocks := [] |}
  else
    {| action := Block; layerBlocks := mostSpecificPrefixes blockMatches |}.

Definition isBlock (a : Action) : bool :=
  match a with Block => true | _ => false end.

Definition isBlockedByPersistentRules (p : string)
    (persistentBlockedPrefixes persistentPermitPrefixes : list string) : bool :=
  let invocationTokens := tokenizeShellWords p in
  let persistentDecision :=
    decideLayer
      (matchingRules invocationTokens (buildRules persistentPermitPrefixes))
      (matchingRules invocationTokens (buildRules persistentBlockedPrefixes)) in
  isBlock (action persistentDecision).

(** The body of the [for ... of splitShellSegments(input)] loop: [blocked]
    is the array being filled, [continue] leaves it as it is. *)
Definition guardSegment
    (sessionBlockRules sessionPermitRules
     persistentBlockRules persistentPermitRules : list PrefixRule)
    (blocked : list BlockedInvocation) (segment : string)
  : list BlockedInvocation :=
  let invocationTokens :=
    normalizeInvocationTokens (tokenizeShellWords segment) in
  match invocationTokens with
  | [] => blocked
  | _ :: _ =>
      let invocationText := join " " invocationTokens in
      let sessionDecision :=
        decideLayer (matchingRules invocationTokens sessionPermitRules)
                    (matchingRules invocationTokens sessionBlockRules) in
      match action sessionDecision with
      | Permit => blocked
      | Block =>
          blocked ++ [ {| invocation := invocationText;
                          matchedBlocks := layerBlocks sessionDecision |} ]
      | NoAction =>
          let persistentDecision :=
            decideLayer
              (matchingRules invocationTokens persistentPermitRules)
              (matchingRules invocationTokens persistentBlockRules) in
          if isBlock (action persistentDecision) then
            blocked ++ [ {| invocation := invocationText;
                            matchedBlocks := layerBlocks persistentDecision |} ]
          else blocked
      end
  end.

Definition findBlockedInvocations (input : string)
    (persistentBlockedPrefixes persistentPermitPrefixes
     sessionBlockedPrefixes sessionPermitPrefixes : list string)
  : list BlockedInvocation :=
  let sessionBlockRules := buildRules sessionBlockedPrefixes in
  let sessionPermitRules := buildRules sessionPermitPrefixes in
  let persistentBlockRules := buildRules persistentBlockedPrefixes in
  let persistentPermitRules := buildRules persistentPermitPrefixes in
  fold_left
    (guardSegment sessionBlockRules sessionPermitRules
                  persistentBlockRules persistentPermitRules)
    (splitShellSegments input) [].

Definition formatBlockedInvocations (blocked : list BlockedInvocation)
  : string :=
  join "; "
    (map (fun entry =>
            (invocation entry ++ " (matched: "
             ++ join " | " (matchedBlocks entry) ++ ")")%string)
         blocked).

Definition blockedMessage (blocked : list BlockedInvocation) : string :=
  ("Blocked bash invocation(s): " ++ formatBlockedInvocations blocked
   ++ ". Use /bash-guard-permit <prefix> to allow in this session.")%string.

(** [Array.from(values).sort()]: the default order compares code units. *)
Fixpoint insertSorted (x : string) (sorted : list string) : list string :=
  match sorted with
  | [] => [x]
  | y :: r => if String.leb x y then x :: sorted else y :: insertSorted x r
  end.

Definition sortStrings (xs : list string) : list string :=
  fold_right insertSorted [] xs.

Definition formatList (values : list string) : string :=
  match sortStrings (set_of_list values) with
  | [] => "(none)"
  | items => join ", " items
  end.

(** ** Persisted configuration *)

Set Warnings "-register-all".

(** What [JSON.parse] can return.  The text of a number plays no part;
    [fields] lists the own properties of an object, a key being read at
    its first entry. *)
Inductive JSON : Type :=
| JNull
| JBool (b : bool)
| JNumber (literal : string)
| JString (s : string)
| JArray (items : list JSON)
| JObject (fields : list (string * JSON)).

(** The configuration file as [loadPersistedGuardConfig] meets it: absent,
    present but [readFileSync] or [JSON.parse] throws, or parsed. *)
Inductive ConfigFile : Type :=
| Missing
| Unreadable (message : string)
| Parsed (parsed : JSON).

Fixpoint getField (key : string) (fields : list (string * JSON))
  : option JSON :=
  match fields with
  | [] => None
  | (k, v) :: r => if String.eqb k key then Some v else getField key r
  end.

(** [Array.isArray(parsed?.key) ? parsed.key : undefined]. *)
Definition arrayField (parsed : JSON) (key : string) : option (list JSON) :=
  match parsed with
  | JObject fields =>
      match getField key fields with
      | Some (JArray items) => Some items
      | _ => None
      end
  | _ => None
  end.

Definition DEFAULT_BLOCKED_PREFIXES : list string := ["gcloud"; "kubectl"].

(** [.filter(Boolean)] on one canonicalized entry. *)
Definition keepTruthy (value : option string) : list string :=
  match value with
  | Some s => if isEmpty s then [] else [s]
  | None => []
  end.

(** The [payload] object that [savePersistedGuardConfig] hands to
    [JSON.stringify]: both sets as sorted arrays. *)
Definition savePayload (blocks permits : list string) : JSON :=
  JObject [ ("blockedPrefixes", JArray (map JString (sortStrings blocks)));
            ("permittedPrefixes", JArray (map JString (sortStrings permits))) ].

Record LoadedConfig : Type := {
  blockedPrefixes : list string;
  permittedPrefixes : list string;
  existed : bool;
  error : option string
}.

Inductive NotifyLevel : Type := info | warning | errorLevel.

Definition Notification : Type := (string * NotifyLevel)%type.

Record GuardState : Type := {
  persistentBlockedPrefixes : list string;
  persistentPermitPrefixes : list string;
  sessionBlockedPrefixes : list string;
  sessionPermitPrefixes : list string
}.

Definition setPersistent (st : GuardState) (blocks permits : list string)
  : GuardState :=
  {| persistentBlockedPrefixes := blocks;
     persistentPermitPrefixes := permits;
     sessionBlockedPrefixes := sessionBlockedPrefixes st;
     sessionPermitPrefixes := sessionPermitPrefixes st |}.

Definition setSession (st : GuardState) (blocks permits : list string)
  : GuardState :=
  {| persistentBlockedPrefixes := persistentBlockedPrefixes st;
     persistentPermitPrefixes := persistentPermitPrefixes st;
     sessionBlockedPrefixes := blocks;
     sessionPermitPrefixes := permits |}.

Definition usageText : string :=
  "Commands: /bash-guard-block <prefix>, /bash-guard-permit <prefix>, /bash-guard-block-persist <prefix>, /bash-guard-permit-persist <prefix>, /bash-guard-reset, /bash-guard-status".

Definition showNat (n : nat) : string :=
  NilEmpty.string_of_uint (Nat.to_uint n).

Section Host.

(** The world outside the extension.  [trimTypeError v] is the message
    of the [TypeError] that [input.trim()] raises when [input] is the
    non-string value [v].  [savePersistedGuardConfig blocks permits] is
    [None] when the write succeeds and [Some message] when [mkdirSync] or
    [writeFileSync] throws. *)
Variable trimTypeError : JSON -> string.
Variable savePersistedGuardConfig : list string -> list string -> option string.

(** [items.map((prefix) => canonicalizePrefix(prefix)).filter(...)]: the
    left-most element that is not a string raises; [inl] is the raised
    message. *)
Fixpoint canonicalizeEntries (items : list JSON) : string + list string :=
  match items with
  | [] => inr []
  | JString s :: r =>
      match canonicalizeEntries r with
      | inl message => inl message
      | inr kept => inr (keepTruthy (canonicalizePrefix s) ++ kept)
      end
  | v :: _ => inl (trimTypeError v)
  end.

Definition defaultBlocked : list string :=
  set_of_list
    (flat_map (fun p => keepTruthy (canonicalizePrefix p))
              DEFAULT_BLOCKED_PREFIXES).

Definition fallbackConfig (message : string) : LoadedConfig :=
  {| blockedPrefixes := defaultBlocked;
     permittedPrefixes := [];
     existed := true;
     error := Some message |}.

Definition loadPersistedGuardConfig (file : ConfigFile) : LoadedConfig :=
  match file with
  | Missing =>
      {| blockedPrefixes := defaultBlocked;
         permittedPrefixes := [];
         existed := false;
         error := None |}
  | Unreadable message => fallbackConfig message
  | Parsed parsed =>
      let blockedSource := arrayField parsed "blockedPrefixes" in
      let permittedSource := arrayField parsed "permittedPrefixes" in
      let blockedItems :=
        match blockedSource with
        | Some items => items
        | None =>
            match permittedSource with
            | Some _ => []
            | None => map JString DEFAULT_BLOCKED_PREFIXES
            end
        end in
      match canonicalizeEntries blockedItems with
      | inl message => fallbackConfig message
      | inr blocked =>
          let permittedItems :=
            match permittedSource with
            | Some items => items
            | None => []
            end in
          match canonicalizeEntries permittedItems with
          | inl message => fallbackConfig message
          | inr permitted =>
              {| blockedPrefixes := set_of_list blocked;
                 permittedPrefixes := set_of_list permitted;
                 existed := true;
                 error := None |}
          end
      end
  end.

(** ** Policy commands

    A handler takes the four rule sets and answers the new rule sets with
    the notifications it sent, oldest first. *)

Definition Handler : Type := GuardState -> GuardState * list Notification.

Definition usage : list Notification := [(usageText, info)].

(** [canonicalizePrefix(args ?? "")], with [None] when the handler's test
    [if (!prefix)] sends it to the usage message. *)
Definition argPrefix (args : option string) : option string :=
  let canonical :=
    canonicalizePrefix (match args with Some a => a | None => "" end) in
  if truthy canonical then canonical else None.

Definition blockPersist (args : option string) : Handler := fun st =>
  match argPrefix args with
  | Some p =>
      let wasBlocked := set_has p (persistentBlockedPrefixes st) in
      let removedPermit := set_has p (persistentPermitPrefixes st) in
      let permits1 := set_delete p (persistentPermitPrefixes st) in
      let coveredByExistingBlock :=
        removedPermit && negb wasBlocked
        && isBlockedByPersistentRules p (persistentBlockedPrefixes st) permits1 in
      let addedBlock := negb wasBlocked && negb coveredByExistingBlock in
      let blocks1 :=
        if addedBlock then set_add p (persistentBlockedPrefixes st)
        else persistentBlockedPrefixes st in
      match savePersistedGuardConfig blocks1 permits1 with
      | None =>
          let text :=
            (if wasBlocked && negb removedPermit then
               "Already persistently blocked: " ++ p
             else if removedPermit && coveredByExistingBlock then
               "Removed persistent permit: " ++ p
               ++ ". Existing persistent block prefixes already cover it, so no redundant block rule was added."
             else if removedPermit && wasBlocked then
               "Persistently blocked: " ++ p
               ++ " (removed persistent permit for same prefix)."
             else if removedPermit then
               "Persistently blocked: " ++ p
               ++ " (removed persistent permit for same prefix)."
             else "Persistently blocked: " ++ p)%string in
          (setPersistent st blocks1 permits1, [(text, info)])
      | Some message =>
          let blocks2 := if addedBlock then set_delete p blocks1 else blocks1 in
          let permits2 := if removedPermit then set_add p permits1 else permits1 in
          (setPersistent st blocks2 permits2,
           [(("Failed to persist guard config: " ++ message)%string, errorLevel)])
      end
  | None =>
      (st, ("Usage: /bash-guard-block-persist <prefix>", warning) :: usage)
  end.

Definition permitPersist (args : option string) : Handler := fun st =>
  match argPrefix args with
  | Some p =>
      let wasPermitted := set_has p (persistentPermitPrefixes st) in
      let removedBlock := set_has p (persistentBlockedPrefixes st) in
      let blocks1 := set_delete p (persistentBlockedPrefixes st) in
      let permits1 := set_add p (persistentPermitPrefixes st) in
      match savePersistedGuardConfig blocks1 permits1 with
      | None =>
          let text :=
            (if wasPermitted && negb removedBlock then
               "Already persistently permitted: " ++ p
             else if removedBlock then
               "Persistently permitted: " ++ p
               ++ " (removed persistent block for same prefix)."
             else "Persistently permitted: " ++ p)%string in
          (setPersistent st blocks1 permits1, [(text, info)])
      | Some message =>
          let permits2 :=
            if negb wasPermitted then set_delete p permits1 else permits1 in
          let blocks2 := if removedBlock then set_add p blocks1 else blocks1 in
          (setPersistent st blocks2 permits2,
           [(("Failed to persist guard config: " ++ message)%string, errorLevel)])
      end
  | None =>
      (st, ("Usage: /bash-guard-permit-persist <prefix>", warning) :: usage)
  end.

Definition blockSession (args : option string) : Handler := fun st =>
  match argPrefix args with
  | Some p =>
      (setSession st (set_add p (sessionBlockedPrefixes st))
                     (set_delete p (sessionPermitPrefixes st)),
       [(("Blocked for this session: " ++ p)%string, info)])
  | None => (st, ("Usage: /bash-guard-block <prefix>", warning) :: usage)
  end.

Definition permitSession (args : option string) : Handler := fun st =>
  match argPrefix args with
  | Some p =>
      (setSession st (set_delete p (sessionBlockedPrefixes st))
                     (set_add p (sessionPermitPrefixes st)),
       [(("Permitted for this session: " ++ p)%string, info)])
  | None => (st, ("Usage: /bash-guard-permit <prefix>", warning) :: usage)
  end.

Definition resetSession : Handler := fun st =>
  let permits := length (sessionPermitPrefixes st) in
  let blocks := length (sessionBlockedPrefixes st) in
  (setSession st [] [],
   [((if (0 <? permits + blocks)%nat then
        "Reset session guard overrides (cleared " ++ showNat permits
        ++ " permit" ++ (if (permits =? 1)%nat then "" else "s")
        ++ ", " ++ showNat blocks
        ++ " block" ++ (if (blocks =? 1)%nat then "" else "s") ++ ")."
      else "No session guard overrides to reset.")%string, info)]).

Definition status : Handler := fun st =>
  (st,
   [(join (chr newline)
       [ ("Persistent blocks: " ++ formatList (persistentBlockedPrefixes st))%string;
         ("Persistent permits: " ++ formatList (persistentPermitPrefixes st))%string;
         ("Session blocks: " ++ formatList (sessionBlockedPrefixes st))%string;
         ("Session permits: " ++ formatList (sessionPermitPrefixes st))%string;
         "Resolution order: session rules first, then persistent rules; within each layer, more specific prefix wins, ties go to permit." ],
     info)]).

(** The commands registered with the host. *)
Inductive Command : Type :=
| BashGuardBlockPersist (args : option string)
| BashGuardPermitPersist (args : option string)
| BashGuardBlock (args : option string)
| BashGuardPermit (args : option string)
| BashGuardReset
| BashGuardStatus.

Definition runCommand (cmd : Command) : Handler :=
  match cmd with
  | BashGuardBlockPersist args => blockPersist args
  | BashGuardPermitPersist args => permitPersist args
  | BashGuardBlock args => blockSession args
  | BashGuardPermit args => permitSession args
  | BashGuardReset => resetSession
  | BashGuardStatus => status
  end.

(** The [session_start] hook; [configPath] is the text of [CONFIG_PATH].
    Clearing the status line ([setStatus]) touches no rule set and sends
    no notification, and is left out. *)
Definition sessionStart (configPath : string) (file : ConfigFile)
  : GuardState * list Notification :=
  let loaded := loadPersistedGuardConfig file in
  let st :=
    {| persistentBlockedPrefixes := blockedPrefixes loaded;
       persistentPermitPrefixes := permittedPrefixes loaded;
       sessionBlockedPrefixes := [];
       sessionPermitPrefixes := [] |} in
  let initNotes :=
    if existed loaded then []
    else
      match savePersistedGuardConfig (blockedPrefixes loaded)
                                     (permittedPrefixes loaded) with
      | None => []
      | Some message =>
          [(("Failed to initialize guard config: " ++ message)%string, errorLevel)]
      end in
  let readNotes :=
    match error loaded with
    | Some message =>
        if isEmpty message then []
        else
          [(("Failed reading " ++ configPath ++ ", using defaults (blocks: "
             ++ formatList (blockedPrefixes loaded) ++ ", permits: "
             ++ formatList (permittedPrefixes loaded) ++ "): " ++ message)%string,
            warning)]
    | None => []
    end in
  (st, initNotes ++ readNotes).

(** The [tool_call] hook: [command] is [None] when [event.input.command]
    is not a string.  The answer is the blocking reason, if any. *)
Definition toolCall (st : GuardState) (toolName : string)
    (command : option string) : option string :=
  if negb (String.eqb toolName "bash") then None
  else
    match command with
    | None => None
    | Some text =>
        if isEmpty text then None
        else
          match findBlockedInvocations text
                  (persistentBlockedPrefixes st) (persistentPermitPrefixes st)
                  (sessionBlockedPrefixes st) (sessionPermitPrefixes st) with
          | [] => None
          | blocked => Some (blockedMessage blocked)
          end
    end.

(** The [user_bash] hook: the output of the failed result, if any; the
    same text is sent as a warning. *)
Definition userBash (st : GuardState) (command : string) : option string :=
  match findBlockedInvocations command
          (persistentBlockedPrefixes st) (persistentPermitPrefixes st)
          (sessionBlockedPrefixes st) (sessionPermitPrefixes st) with
  | [] => None
  | blocked => Some (blockedMessage blocked)
  end.

End Host.

(** * Vocabulary of the properties *)

Definition normalizeRound (skipped : list string) : list string :=
  match skipped with
  | [] => []
  | t :: rest =>
      let token := normalizeCommandName t in
      if String.eqb token "env" then
        normalizeInvocationTokens (skipEnvArguments rest)
      else if String.eqb token "sudo" then
        normalizeInvocationTokens (skipSudoOptions rest)
      else if String.eqb token "command" || String.eqb token "nohup"
              || String.eqb token "time" then
        normalizeInvocationTokens (skipDashOptions rest)
      else token :: rest
  end.

(** [m] is the greatest [tokenCount] of [rules], or [-1] when there is
    none. *)
Definition greatestCount (rules : list PrefixRule) (m : Z) : Prop :=
  match rules with
  | [] => m = (-1)%Z
  | _ :: _ =>
      (exists r, In r rules /\ tokenCount r = m)
      /\ forall r, In r rules -> (tokenCount r <= m)%Z
  end.

Definition segmentInvocation (segment : string) : list string :=
  normalizeInvocationTokens (tokenizeShellWords segment).

(** The verdict of the layer made of the permit set [permits] and the
    block set [blocks] on an invocation. *)
Definition layerVerdict (permits blocks invocationTokens : list string)
  : LayerDecision :=
  decideLayer (matchingRules invocationTokens (buildRules permits))
              (matchingRules invocationTokens (buildRules blocks)).

(** [Some matched] when the segment is blocked, with the prefixes of the
    deciding layer; [None] when it is allowed or holds no command. *)
Definition segmentBlocks (pb pp sb sp : list string) (segment : string)
  : option (list string) :=
  match segmentInvocation segment with
  | [] => None
  | _ :: _ =>
      let session := layerVerdict sp sb (segmentInvocation segment) in
      let persistent := layerVerdict pp pb (segmentInvocation segment) in
      match action session with
      | Permit => None
      | Block => Some (layerBlocks session)
      | NoAction =>
          match action persistent with
          | Block => Some (layerBlocks persistent)
          | _ => None
          end
      end
  end.

Definition segmentIsBlocked (pb pp sb sp : list string) (segment : string)
  : bool :=
  match segmentBlocks pb pp sb sp segment with
  | Some _ => true
  | None => false
  end.

Definition segmentRecord (pb pp sb sp : list string) (segment : string)
  : BlockedInvocation :=
  {| invocation := join " " (segmentInvocation segment);
     matchedBlocks :=
       match segmentBlocks pb pp sb sp segment with
       | Some matched => matched
       | None => []
       end |}.

(** The representation invariant of the four sets. *)
Definition wellFormed (st : GuardState) : Prop :=
  NoDup (persistentBlockedPrefixes st)
  /\ NoDup (persistentPermitPrefixes st)
  /\ NoDup (sessionBlockedPrefixes st)
  /\ NoDup (sessionPermitPrefixes st).

(** The same four sets: the persistent ones member for member, the
    session ones untouched. *)
Definition sameRuleSets (st st' : GuardState) : Prop :=
  Permutation (persistentBlockedPrefixes st) (persistentBlockedPrefixes st')
  /\ Permutation (persistentPermitPrefixes st) (persistentPermitPrefixes st')
  /\ sessionBlockedPrefixes st' = sessionBlockedPrefixes st
  /\ sessionPermitPrefixes st' = sessionPermitPrefixes st.

Definition saveFailure (message : string) : list Notification :=
  [(("Failed to persist guard config: " ++ message)%string, errorLevel)].

Definition disjoint (a b : list string) : Prop :=
  forall p, ~ (In p a /\ In p b).

Definition layersDisjoint (st : GuardState) : Prop :=
  disjoint (persistentBlockedPrefixes st) (persistentPermitPrefixes st)
  /\ disjoint (sessionBlockedPrefixes st) (sessionPermitPrefixes st).

(** The entries stored under [key], none when the field is not an array. *)
Definition storedEntries (parsed : JSON) (key : string) : list JSON :=
  match arrayField parsed key with
  | Some items => items
  | None => []
  end.

(** No stored blocked entry has the canonical prefix of a stored permitted
    entry. *)
Definition storedDisjoint (file : ConfigFile) : Prop :=
  match file with
  | Parsed parsed =>
      forall b p c,
        In (JString b) (storedEntries parsed "blockedPrefixes") ->
        In (JString p) (storedEntries parsed "permittedPrefixes") ->
        canonicalizePrefix b = Some c ->
        canonicalizePrefix p = Some c ->
        c = ""
  | _ => True
  end.

(** A run of commands, each with the outcome the disk gives its save. *)
Fixpoint runCommands
    (steps : list ((list string -> list string -> option string) * Command))
    (st : GuardState) : GuardState :=
  match steps with
  | [] => st
  | (save, cmd) :: more => runCommands more (fst (runCommand save cmd st))
  end.

Definition allStrings (items : list JSON) : Prop :=
  Forall (fun v => exists s, v = JString s) items.

(** The canonical prefixes kept from stored strings, in order. *)
Definition canonicalStrings (items : list JSON) : list string :=
  flat_map (fun v => match v with
                     | JString s => keepTruthy (canonicalizePrefix s)
                     | _ => []
                     end) items.

(** ** Sample data for the worked cases *)

Definition readOnlyDisk (blocks permits : list string) : option string :=
  Some "EROFS: read-only file system".

Definition healthyDisk (blocks permits : list string) : option string :=
  None.

Definition plainTypeError (v : JSON) : string :=
  "input.trim is not a function".

Definition configPathText : string :=
  "~/.pi/agent/extensions/bash-guard.json".

Definition sampleState : GuardState :=
  {| persistentBlockedPrefixes := ["gcloud"; "kubectl"];
     persistentPermitPrefixes := ["kubectl get"; "gcloud info"];
     sessionBlockedPrefixes := ["rm"];
     sessionPermitPrefixes := ["gcloud"] |}.

(** A stored configuration that names [kubectl] in both lists. *)
Definition overlappingConfig : ConfigFile :=
  Parsed (JObject [ ("blockedPrefixes", JArray [JString "kubectl"]);
                    ("permittedPrefixes", JArray [JString "kubectl"]) ]).

Definition tidyConfig : ConfigFile :=
  Parsed (JObject [ ("blockedPrefixes",
                     JArray [JString "sudo kubectl"; JString "gcloud"]);
                    ("permittedPrefixes",
                     JArray [JString "kubectl get"]) ]).

(** A stored configuration whose only field is [permittedPrefixes], an
    array that holds a number. *)
Definition numericConfig : JSON :=
  JObject [ ("permittedPrefixes", JArray [JNumber "1"]) ].

Definition permitsOnlyConfig : JSON :=
  JObject [ ("permittedPrefixes", JArray [JString "sudo kubectl get"]) ].

(** The raw prefix [echo "a b"], whose second word holds a space. *)
Definition quotedPrefix : string :=
  ("echo " ++ chr dquote ++ "a b" ++ chr dquote)%string.

(** ** Vocabulary of the further properties *)

Fixpoint allChars (p : ascii -> bool) (s : string) : bool :=
  match s with
  | EmptyString => true
  | String c r => p c && allChars p r
  end.

(** A character that the segmenter and the tokenizer copy as it is:
    neither whitespace, nor a quote, nor a backslash, nor a delimiter. *)
Definition isPlainChar (c : ascii) : bool :=
  negb (isWhitespace c || isQuoteChar c || Ascii.eqb c backslash
        || isSegmentDelimiter c).

Definition isPlainToken (t : string) : bool :=
  negb (isEmpty t) && allChars isPlainChar t.

(** Text outside quotes: no quote character and no backslash. *)
Definition isUnquotedChar (c : ascii) : bool :=
  negb (isQuoteChar c || Ascii.eqb c backslash).

Definition WRAPPER_NAMES : list string :=
  ["env"; "sudo"; "command"; "nohup"; "time"].

(** No rule set holds the empty string. *)
Definition noEmptyPrefix (st : GuardState) : Prop :=
  ~ In "" (persistentBlockedPrefixes st)
  /\ ~ In "" (persistentPermitPrefixes st)
  /\ ~ In "" (sessionBlockedPrefixes st)
  /\ ~ In "" (sessionPermitPrefixes st).

(** A prefix that canonicalization leaves as it is. *)
Definition isCanonical (p : string) : Prop :=
  canonicalizePrefix p = Some p /\ p <> "".

(** A character of a program name: neither whitespace, nor a quote, nor
    a parenthesis, nor a slash; a path may hold slashes too. *)
Definition isPathChar (c : ascii) : bool :=
  negb (isWhitespace c || isQuoteChar c || isParenChar c).

Definition isNameChar (c : ascii) : bool :=
  isPathChar c && negb (Ascii.eqb c "/"%char).

(** The order of [Array.prototype.sort] on strings, as a relation. *)
Definition lebS (x y : string) : Prop := String.leb x y = true.

(** * Properties *)

(** ** The normalizer *)

(** One round of the outer loop, as an equation. *)
Lemma normalizeInvocationTokens_step (tokens : list string) :
  normalizeInvocationTokens tokens =
  normalizeRound (skipEnvAssignments tokens).
Proof.
  assert (G : forall skipped (e : skipEnvAssignments tokens = skipped),
             normalizeInvocationTokens_unfold_clause_1 tokens
               (exist _ skipped e) = normalizeRound skipped).
  { intros [|t rest] e.
    - apply normalizeInvocationTokens_clause_1_equation_1.
    - apply normalizeInvocationTokens_clause_1_equation_2. }
  etransitivity; [apply normalizeInvocationTokens_equation_1|].
  exact (G _ (@eq_refl _ _)).
Qed.

(** A wrapper word at the head of the tokens, written as such. *)
Lemma normalize_sudo (rest : list string) :
  normalizeInvocationTokens ("sudo" :: rest) =
  normalizeInvocationTokens (skipSudoOptions rest).
Proof. rewrite normalizeInvocationTokens_step. reflexivity. Qed.

Lemma normalize_env (rest : list string) :
  normalizeInvocationTokens ("env" :: rest) =
  normalizeInvocationTokens (skipEnvArguments rest).
Proof. rewrite normalizeInvocationTokens_step. reflexivity. Qed.

Lemma normalize_plain_wrapper (w : string) (rest : list string) :
  In w ["command"; "nohup"; "time"] ->
  normalizeInvocationTokens (w :: rest) =
  normalizeInvocationTokens (skipDashOptions rest).
Proof.
  intros [<-|[<-|[<-|[]]]]; rewrite normalizeInvocationTokens_step;
    reflexivity.
Qed.

Lemma skipSudoOptions_value (flag value : string) (rest : list string) :
  In flag SUDO_OPTIONS_WITH_VALUE ->
  skipSudoOptions (flag :: value :: rest) = skipSudoOptions rest.
Proof.
  intros Hin. unfold SUDO_OPTIONS_WITH_VALUE in Hin. simpl in Hin.
  repeat (destruct Hin as [<-|Hin]; [reflexivity|]).
  destruct Hin.
Qed.

(** Leading environment assignments are dropped. *)
Lemma skipEnvAssignments_app (assignments rest : list string) :
  Forall (fun a => isEnvAssignment a = true) assignments ->
  skipEnvAssignments (assignments ++ rest) = skipEnvAssignments rest.
Proof.
  induction 1 as [|a assignments Ha _ IH]; [reflexivity|].
  cbn [app skipEnvAssignments]. now rewrite Ha.
Qed.

Lemma normalize_assignments (assignments rest : list string) :
  Forall (fun a => isEnvAssignment a = true) assignments ->
  normalizeInvocationTokens (assignments ++ rest)
  = normalizeInvocationTokens rest.
Proof.
  intros Hassign.
  rewrite (normalizeInvocationTokens_step (assignments ++ rest)).
  rewrite (skipEnvAssignments_app _ _ Hassign).
  symmetry. apply normalizeInvocationTokens_step.
Qed.

(** An option is no assignment: it starts with a dash. *)
Lemma option_not_assignment (flag : string) :
  startsWith "-" flag = true -> isEnvAssignment flag = false.
Proof.
  destruct flag as [|c flag]; [discriminate|].
  unfold startsWith. cbn [String.prefix].
  destruct (Ascii.ascii_dec "-"%char c) as [<-|]; [reflexivity|discriminate].
Qed.

(** A wrapper name is neither an option nor an assignment. *)
Lemma wrapper_name_is_word (w : string) :
  In w WRAPPER_NAMES ->
  startsWith "-" w = false /\ isEnvAssignment w = false.
Proof.
  intros [<-|[<-|[<-|[<-|[<-|[]]]]]]; split; reflexivity.
Qed.

(** A wrapper in front of a word that is neither an option nor an
    assignment is stripped, and normalization goes on with that word. *)
Lemma normalize_wrapper_word (w t : string) (rest : list string) :
  In w WRAPPER_NAMES ->
  startsWith "-" t = false ->
  isEnvAssignment t = false ->
  normalizeInvocationTokens (w :: t :: rest)
  = normalizeInvocationTokens (t :: rest).
Proof.
  intros Hw Hdash Hassign.
  destruct Hw as [<-|[<-|Hplain]].
  - rewrite normalize_env. cbn [skipEnvArguments].
    now rewrite Hassign, Hdash.
  - rewrite normalize_sudo. cbn [skipSudoOptions]. now rewrite Hdash.
  - rewrite (normalize_plain_wrapper w _ Hplain). cbn [skipDashOptions].
    now rewrite Hdash.
Qed.

Lemma normalize_wrappers_nest (wrappers : list string) (t : string)
    (rest : list string) :
  Forall (fun w => In w WRAPPER_NAMES) wrappers ->
  startsWith "-" t = false ->
  isEnvAssignment t = false ->
  normalizeInvocationTokens (wrappers ++ t :: rest)
  = normalizeInvocationTokens (t :: rest).
Proof.
  intros Hall Hdash Hassign.
  induction Hall as [|w wrappers Hw Hall IH]; [reflexivity|].
  rewrite <- IH. cbn [app].
  destruct wrappers as [|w' wrappers'].
  - cbn [app]. now apply normalize_wrapper_word.
  - cbn [app]. inversion Hall as [|? ? Hw' _]; subst.
    destruct (wrapper_name_is_word w' Hw') as [Hd Ha].
    now apply normalize_wrapper_word.
Qed.

(** A word that is no assignment and whose command name is no wrapper is
    the effective command: the answer is that name and the tokens after
    the word, untouched. *)
Lemma normalize_command (t : string) (rest : list string) :
  isEnvAssignment t = false ->
  ~ In (normalizeCommandName t) WRAPPER_NAMES ->
  normalizeInvocationTokens (t :: rest) = normalizeCommandName t :: rest.
Proof.
  intros Hassign Hname.
  rewrite normalizeInvocationTokens_step.
  cbn [skipEnvAssignments]. rewrite Hassign. cbn [normalizeRound]. cbv zeta.
  unfold WRAPPER_NAMES in Hname. cbn [In] in Hname.
  destruct (String.eqb_spec (normalizeCommandName t) "env") as [E|_];
    [exfalso; apply Hname; auto|].
  destruct (String.eqb_spec (normalizeCommandName t) "sudo") as [E|_];
    [exfalso; apply Hname; auto|].
  destruct (String.eqb_spec (normalizeCommandName t) "command") as [E|_];
    [exfalso; apply Hname; auto|].
  destruct (String.eqb_spec (normalizeCommandName t) "nohup") as [E|_];
    [exfalso; apply Hname; auto|].
  destruct (String.eqb_spec (normalizeCommandName t) "time") as [E|_];
    [exfalso; apply Hname; auto 6|].
  reflexivity.
Qed.

(** Wrappers with nothing to wrap leave no command. *)
Lemma normalize_wrappers_only (wrappers : list string) :
  Forall (fun w => In w WRAPPER_NAMES) wrappers ->
  normalizeInvocationTokens wrappers = [].
Proof.
  induction 1 as [|w wrappers Hw Hall IH].
  - now rewrite normalizeInvocationTokens_step.
  - destruct wrappers as [|w' wrappers'].
    + destruct Hw as [<-|[<-|[<-|[<-|[<-|[]]]]]];
        rewrite normalizeInvocationTokens_step; cbn;
        now rewrite normalizeInvocationTokens_step.
    + inversion Hall as [|? ? Hw' _]; subst.
      destruct (wrapper_name_is_word w' Hw') as [Hd Ha].
      now rewrite (normalize_wrapper_word w w' wrappers' Hw Hd Ha).
Qed.

(** C4. Normalization strips wrapper commands and environment
    assignments.  The token sequences of [sudo -u root kubectl get pods],
    [env FOO=bar kubectl get pods] and [sudo env FOO=1 kubectl get pods]
    all normalize to [kubectl get pods].  After [sudo], every flag of the
    recognized set takes the token that follows it as its value, whatever
    that token is; and once a wrapper and its options are skipped the
    normalizer starts again on what is left, so wrappers nest.  In full:
    leading assignments are dropped; any run of wrappers in front of a
    word that is neither an option nor an assignment is dropped and the
    answer is that of the word and what follows it; a word that is no
    assignment and whose command name is no wrapper is answered as that
    name followed by the remaining tokens, untouched; after [command],
    [nohup] and [time] every option is skipped alone, after [sudo] an
    option outside the recognized set is skipped alone, after [env]
    assignments and options are skipped, [-u] and [--unset] with the token
    that follows; and wrappers that wrap nothing leave no command. *)
Theorem normalization_strips_wrappers :
  normalizeInvocationTokens
    (tokenizeShellWords "sudo -u root kubectl get pods")
    = ["kubectl"; "get"; "pods"]
  /\ normalizeInvocationTokens
       (tokenizeShellWords "env FOO=bar kubectl get pods")
       = ["kubectl"; "get"; "pods"]
  /\ normalizeInvocationTokens
       (tokenizeShellWords "sudo env FOO=1 kubectl get pods")
       = ["kubectl"; "get"; "pods"]
  /\ Forall
       (fun flag =>
          forall (value : string) (rest : list string),
            normalizeInvocationTokens ("sudo" :: flag :: value :: rest)
            = normalizeInvocationTokens ("sudo" :: rest))
       SUDO_OPTIONS_WITH_VALUE
  /\ (forall rest,
        normalizeInvocationTokens ("sudo" :: rest)
        = normalizeInvocationTokens (skipSudoOptions rest))
  /\ (forall rest,
        normalizeInvocationTokens ("env" :: rest)
        = normalizeInvocationTokens (skipEnvArguments rest))
  /\ Forall
       (fun wrapper =>
          forall rest,
            normalizeInvocationTokens (wrapper :: rest)
            = normalizeInvocationTokens (skipDashOptions rest))
       ["command"; "nohup"; "time"]
  /\ (forall assignments rest,
        Forall (fun a => isEnvAssignment a = true) assignments ->
        normalizeInvocationTokens (assignments ++ rest)
        = normalizeInvocationTokens rest)
  /\ (forall wrappers t rest,
        Forall (fun w => In w WRAPPER_NAMES) wrappers ->
        startsWith "-" t = false ->
        isEnvAssignment t = false ->
        normalizeInvocationTokens (wrappers ++ t :: rest)
        = normalizeInvocationTokens (t :: rest))
  /\ (forall t rest,
        isEnvAssignment t = false ->
        ~ In (normalizeCommandName t) WRAPPER_NAMES ->
        normalizeInvocationTokens (t :: rest)
        = normalizeCommandName t :: rest)
  /\ (forall w flag rest,
        In w ["command"; "nohup"; "time"] ->
        startsWith "-" flag = true ->
        normalizeInvocationTokens (w :: flag :: rest)
        = normalizeInvocationTokens (w :: rest))
  /\ (forall flag rest,
        startsWith "-" flag = true ->
        set_has (normalizeCommandName flag) SUDO_OPTIONS_WITH_VALUE = false ->
        normalizeInvocationTokens ("sudo" :: flag :: rest)
        = normalizeInvocationTokens ("sudo" :: rest))
  /\ (forall a rest,
        isEnvAssignment a = true
        \/ (startsWith "-" a = true /\ a <> "-u" /\ a <> "--unset") ->
        normalizeInvocationTokens ("env" :: a :: rest)
        = normalizeInvocationTokens ("env" :: rest))
  /\ (forall unset value rest,
        In unset ["-u"; "--unset"] ->
        normalizeInvocationTokens ("env" :: unset :: value :: rest)
        = normalizeInvocationTokens ("env" :: rest))
  /\ (forall wrappers,
        Forall (fun w => In w WRAPPER_NAMES) wrappers ->
        normalizeInvocationTokens wrappers = []).
Proof.
  split; [reflexivity|].
  split; [reflexivity|].
  split; [reflexivity|].
  split.
  { apply Forall_forall. intros flag Hflag value rest.
    rewrite !normalize_sudo.
    now rewrite skipSudoOptions_value. }
  split; [exact normalize_sudo|].
  split; [exact normalize_env|].
  split.
  { apply Forall_forall. intros w Hw rest.
    now apply normalize_plain_wrapper. }
  split; [exact normalize_assignments|].
  split; [exact normalize_wrappers_nest|].
  split; [exact normalize_command|].
  split.
  { intros w flag rest Hw Hflag.
    rewrite !(normalize_plain_wrapper w _ Hw). cbn [skipDashOptions].
    now rewrite Hflag. }
  split.
  { intros flag rest Hflag Hvalue.
    rewrite !normalize_sudo. cbn [skipSudoOptions].
    now rewrite Hflag, Hvalue. }
  split.
  { intros a rest [Hassign|(Hflag & Hu & Hunset)];
      rewrite !normalize_env; cbn [skipEnvArguments].
    - now rewrite Hassign.
    - rewrite (option_not_assignment a Hflag), Hflag.
      apply String.eqb_neq in Hu. apply String.eqb_neq in Hunset.
      now rewrite Hu, Hunset. }
  split.
  { intros unset value rest [<-|[<-|[]]]; rewrite !normalize_env;
      reflexivity. }
  exact normalize_wrappers_only.
Qed.

Lemma normalization_strips_wrappers_witness :
  normalizeInvocationTokens ["FOO=1"; "BAR=2"; "kubectl"; "get"; "pods"]
  = normalizeInvocationTokens ["kubectl"; "get"; "pods"]
  /\ normalizeInvocationTokens
       ["nohup"; "sudo"; "time"; "env"; "command"; "kubectl"; "delete"; "pods"]
     = normalizeInvocationTokens ["kubectl"; "delete"; "pods"]
  /\ normalizeInvocationTokens ["/usr/bin/Kubectl.exe"; "delete"; "pods"]
     = ["kubectl"; "delete"; "pods"]
  /\ normalizeInvocationTokens ["sudo"; "env"] = [].
Proof.
  destruct normalization_strips_wrappers
    as (_ & _ & _ & _ & _ & _ & _ & Hassign & Hnest & Hcommand & _ & _ & _
        & _ & Honly).
  split; [|split; [|split]].
  - apply (Hassign ["FOO=1"; "BAR=2"] ["kubectl"; "get"; "pods"]).
    repeat first [apply Forall_nil | apply Forall_cons; [reflexivity|]].
  - apply (Hnest ["nohup"; "sudo"; "time"; "env"; "command"] "kubectl"
             ["delete"; "pods"]); [|reflexivity|reflexivity].
    repeat first [apply Forall_nil | apply Forall_cons; [simpl; auto 8|]].
  - apply (Hcommand "/usr/bin/Kubectl.exe" ["delete"; "pods"]);
      [reflexivity|].
    vm_compute. intuition discriminate.
  - apply (Honly ["sudo"; "env"]).
    repeat first [apply Forall_nil | apply Forall_cons; [simpl; auto 8|]].
Defined.

(** ** The matcher *)

Lemma strictEq_some (x y : string) :
  strictEq (Some x) (Some y) = true <-> x = y.
Proof. simpl. apply String.eqb_eq. Qed.

(** The comparison loop succeeds exactly when the rule's tokens are the
    first tokens of the invocation. *)
Lemma prefix_loop_iff (ruleTokens invocationTokens : list string) :
  (length ruleTokens <= length invocationTokens)%nat ->
  forallb
    (fun i => strictEq (nth_error invocationTokens i) (nth_error ruleTokens i))
    (seq 0 (length ruleTokens)) = true
  <-> firstn (length ruleTokens) invocationTokens = ruleTokens.
Proof.
  rewrite forallb_forall.
  revert invocationTokens.
  induction ruleTokens as [|a rule IH]; intros inv Hlen.
  - simpl. split; [reflexivity|intros _ i []].
  - destruct inv as [|b inv]; [simpl in Hlen; lia|].
    simpl in Hlen. apply le_S_n in Hlen.
    specialize (IH inv Hlen).
    cbn [length firstn]. split.
    + intros H.
      assert (Hhead : b = a).
      { apply strictEq_some. apply (H 0%nat). apply in_seq. simpl. lia. }
      subst b. f_equal. apply IH. intros i Hi.
      apply in_seq in Hi. apply (H (S i)). apply in_seq. simpl. lia.
    + intros Heq. injection Heq as Hhead Htail. subst b.
      intros [|i] Hi.
      * simpl. apply String.eqb_refl.
      * simpl. apply IH; [exact Htail|].
        apply in_seq in Hi. apply in_seq. simpl in Hi. lia.
Qed.

Lemma isPrefixMatch_iff (invocationTokens ruleTokens : list string) :
  isPrefixMatch invocationTokens ruleTokens = true
  <-> (0 < length ruleTokens)%nat
      /\ (length ruleTokens <= length invocationTokens)%nat
      /\ firstn (length ruleTokens) invocationTokens = ruleTokens.
Proof.
  unfold isPrefixMatch.
  destruct (Nat.eqb_spec (length ruleTokens) 0) as [Hz|Hz]; simpl.
  - split; [discriminate|]. intros [H _]. lia.
  - destruct (Nat.ltb_spec (length invocationTokens) (length ruleTokens))
      as [Hlt|Hle].
    + split; [discriminate|]. intros (_ & H & _). lia.
    + rewrite (prefix_loop_iff _ _ Hle). split.
      * intros H. repeat split; [lia|exact Hle|exact H].
      * intros (_ & _ & H). exact H.
Qed.

(** C5. Matching is a positional-prefix relation.  A rule whose
    [tokenCount] is the length of its token list, as [buildRules] makes
    every rule, matches an invocation exactly when the count is positive,
    at most the invocation's length, and the rule's tokens are the first
    [tokenCount] tokens of the invocation, compared as exact strings.
    Hence a match survives any tokens appended to the invocation. *)
Theorem prefix_match_relation (R : PrefixRule) (I : list string) :
  tokenCount R = Z.of_nat (length (tokens R)) ->
  (isPrefixMatch I (tokens R) = true
   <-> (0 < tokenCount R)%Z
       /\ (tokenCount R <= Z.of_nat (length I))%Z
       /\ tokens R = firstn (Z.to_nat (tokenCount R)) I)
  /\ (isPrefixMatch I (tokens R) = true ->
      forall extra : list string,
        isPrefixMatch (I ++ extra) (tokens R) = true).
Proof.
  intros Hcount. split.
  - rewrite isPrefixMatch_iff, Hcount, Nat2Z.id. split.
    + intros (Hpos & Hle & Heq). repeat split; [lia|lia|now symmetry].
    + intros (Hpos & Hle & Heq). repeat split; [lia|lia|now symmetry].
  - intros Hmatch extra.
    apply isPrefixMatch_iff in Hmatch as (Hpos & Hle & Heq).
    apply isPrefixMatch_iff. repeat split; [exact Hpos| |].
    + rewrite length_app. lia.
    + rewrite firstn_app.
      replace (length (tokens R) - length I)%nat with 0%nat by lia.
      simpl. rewrite app_nil_r. exact Heq.
Qed.

Lemma prefix_match_relation_witness :
  let R := {| prefix := "kubectl get";
              tokens := ["kubectl"; "get"];
              tokenCount := 2 |} in
  isPrefixMatch ["kubectl"; "get"; "pods"] (tokens R) = true
  /\ isPrefixMatch (["kubectl"; "get"; "pods"] ++ ["-n"; "staging"])
       (tokens R) = true
  /\ isPrefixMatch ["kubectl"; "Get"; "pods"] (tokens R) = false.
Proof.
  intros R.
  pose proof (prefix_match_relation R ["kubectl"; "get"; "pods"] eq_refl)
    as [Hiff Hmono].
  assert (Hm : isPrefixMatch ["kubectl"; "get"; "pods"] (tokens R) = true).
  { apply Hiff. subst R. simpl.
    split; [lia|split; [lia|reflexivity]]. }
  split; [exact Hm|].
  split; [exact (Hmono Hm ["-n"; "staging"])|reflexivity].
Defined.

(** ** The decision engine *)

Lemma fold_max_spec (cs : list Z) (c : Z) :
  In (fold_left Z.max cs c) (c :: cs)
  /\ forall x, In x (c :: cs) -> (x <= fold_left Z.max cs c)%Z.
Proof.
  revert c. induction cs as [|d cs IH]; intros c; simpl.
  - split; [now left|]. intros x [<-|[]]. lia.
  - destruct (IH (Z.max c d)) as [Hin Hub]. split.
    + destruct Hin as [Heq|Hin]; [|now right; right].
      rewrite <- Heq. destruct (Z.max_spec c d) as [[_ ->]|[_ ->]]; auto.
    + intros x [<-|[<-|Hx]].
      * specialize (Hub (Z.max c d) (or_introl eq_refl)). lia.
      * specialize (Hub (Z.max c d) (or_introl eq_refl)). lia.
      * apply Hub. now right.
Qed.

Lemma maxTokenCount_greatest (rules : list PrefixRule) :
  greatestCount rules (maxTokenCount rules).
Proof.
  destruct rules as [|r rules]; [reflexivity|].
  unfold maxTokenCount. cbn [map greatestCount].
  destruct (fold_max_spec (map tokenCount rules) (tokenCount r)) as [Hin Hub].
  split.
  - change (tokenCount r :: map tokenCount rules)
      with (map tokenCount (r :: rules)) in Hin.
    apply in_map_iff in Hin as (r' & Heq & Hr'). now exists r'.
  - intros r' Hr'. apply Hub.
    change (tokenCount r :: map tokenCount rules)
      with (map tokenCount (r :: rules)).
    now apply in_map.
Qed.

Lemma maxTokenCount_nonneg (rules : list PrefixRule) :
  Forall (fun r => (0 <= tokenCount r)%Z) rules ->
  rules <> [] -> (0 <= maxTokenCount rules)%Z.
Proof.
  intros Hall Hne.
  pose proof (maxTokenCount_greatest rules) as Hg.
  destruct rules as [|r rules]; [congruence|].
  destruct Hg as [(r' & Hin & <-) _].
  rewrite Forall_forall in Hall. now apply Hall.
Qed.

Lemma maxTokenCount_minus_one (rules : list PrefixRule) :
  Forall (fun r => (0 <= tokenCount r)%Z) rules ->
  (maxTokenCount rules = (-1)%Z <-> rules = [])
  /\ ((maxTokenCount rules <? 0)%Z = true <-> rules = []).
Proof.
  intros Hall. destruct rules as [|r rules].
  - split; split; reflexivity.
  - pose proof (maxTokenCount_nonneg (r :: rules) Hall ltac:(discriminate)).
    split; split; try discriminate; intros H0; [lia|].
    apply Z.ltb_lt in H0. lia.
Qed.

(** C3. The verdict of one layer.  With [permitMax] and [blockMax] the
    greatest [tokenCount] among the matching permit rules and among the
    matching block rules ([-1] when there is none), the verdict is none
    exactly when both are [-1]; otherwise it is permit exactly when
    [permitMax >= blockMax], so a tie goes to permit; otherwise it is
    block, and then the reported prefixes are those of the block matches
    whose [tokenCount] is [blockMax], all of them and no others. *)
Theorem layer_decision (permitMatches blockMatches : list PrefixRule) :
  Forall (fun r => (0 <= tokenCount r)%Z) permitMatches ->
  Forall (fun r => (0 <= tokenCount r)%Z) blockMatches ->
  let permitMax := maxTokenCount permitMatches in
  let blockMax := maxTokenCount blockMatches in
  let verdict := decideLayer permitMatches blockMatches in
  let deferred := permitMax = (-1)%Z /\ blockMax = (-1)%Z in
  greatestCount permitMatches permitMax
  /\ greatestCount blockMatches blockMax
  /\ (action verdict = NoAction <-> deferred)
  /\ (action verdict = Permit <-> ~ deferred /\ (permitMax >= blockMax)%Z)
  /\ (action verdict = Block <-> ~ deferred /\ (permitMax < blockMax)%Z)
  /\ (action verdict = Block ->
      layerBlocks verdict
      = map prefix
          (filter (fun r => (tokenCount r =? blockMax)%Z) blockMatches)
      /\ forall p,
           In p (layerBlocks verdict)
           <-> exists r, In r blockMatches
                         /\ tokenCount r = blockMax /\ prefix r = p).
Proof.
  intros Hp Hb permitMax blockMax verdict deferred.
  split; [apply maxTokenCount_greatest|].
  split; [apply maxTokenCount_greatest|].
  destruct (maxTokenCount_minus_one _ Hp) as [Hp1 Hp2].
  destruct (maxTokenCount_minus_one _ Hb) as [Hb1 Hb2].
  fold permitMax in Hp1, Hp2. fold blockMax in Hb1, Hb2.
  assert (Hdef : deferred
                 <-> ((permitMax <? 0)%Z && (blockMax <? 0)%Z = true)).
  { unfold deferred. rewrite andb_true_iff. tauto. }
  assert (Hblocks :
            (blockMax <? 0)%Z = false ->
            mostSpecificPrefixes blockMatches
            = map prefix
                (filter (fun r => (tokenCount r =? blockMax)%Z) blockMatches)).
  { intros Hneg. unfold mostSpecificPrefixes. fold blockMax.
    now rewrite Hneg. }
  subst verdict. unfold decideLayer. fold permitMax blockMax.
  destruct ((permitMax <? 0)%Z && (blockMax <? 0)%Z) eqn:Hnone.
  - assert (Hd : deferred) by (now apply Hdef).
    cbn [action layerBlocks].
    split; [tauto|].
    split; [split; [discriminate|tauto]|].
    split; [split; [discriminate|tauto]|discriminate].
  - assert (Hnd : ~ deferred) by (rewrite Hdef; discriminate).
    destruct (permitMax >=? blockMax)%Z eqn:Hge; cbn [action layerBlocks].
    + apply Z.geb_le in Hge.
      split; [split; [discriminate|tauto]|].
      split; [split; [intros _; split; [exact Hnd|lia]|reflexivity]|].
      split; [split; [discriminate|intros [_ Hlt]; lia]|discriminate].
    + assert (Hlt : (permitMax < blockMax)%Z).
      { rewrite Z.geb_leb in Hge. apply Z.leb_gt in Hge. exact Hge. }
      assert (Hbneg : (blockMax <? 0)%Z = false).
      { apply Z.ltb_ge.
        apply andb_false_iff in Hnone as [Hn|Hn]; apply Z.ltb_ge in Hn; lia. }
      split; [split; [discriminate|tauto]|].
      split; [split; [discriminate|intros [_ Hge']; lia]|].
      split; [split; [intros _; split; [exact Hnd|exact Hlt]|reflexivity]|].
      intros _. rewrite (Hblocks Hbneg). split; [reflexivity|].
      intros p. split.
      * intros Hin.
        apply in_map_iff in Hin as (r & Hpre & Hr).
        apply filter_In in Hr as [Hr Hc]. apply Z.eqb_eq in Hc.
        now exists r.
      * intros (r & Hr & Hc & Hpre).
        apply in_map_iff. exists r. split; [exact Hpre|].
        apply filter_In. split; [exact Hr|]. now apply Z.eqb_eq.
Qed.

Lemma layer_decision_witness :
  let kubectl := {| prefix := "kubectl"; tokens := ["kubectl"];
                    tokenCount := 1 |} in
  let kubectlGet := {| prefix := "kubectl get"; tokens := ["kubectl"; "get"];
                       tokenCount := 2 |} in
  let quotedGet := {| prefix := "kubectl 'get'"; tokens := ["kubectl"; "get"];
                      tokenCount := 2 |} in
  action (decideLayer [kubectlGet] [kubectl; quotedGet]) = Permit
  /\ layerBlocks (decideLayer [kubectl] [kubectl; kubectlGet; quotedGet])
     = ["kubectl get"; "kubectl 'get'"].
Proof.
  intros kubectl kubectlGet quotedGet.
  assert (Hpermits : Forall (fun r => (0 <= tokenCount r)%Z) [kubectlGet])
    by (repeat constructor; simpl; lia).
  assert (Hone : Forall (fun r => (0 <= tokenCount r)%Z) [kubectl])
    by (repeat constructor; simpl; lia).
  assert (Htwo : Forall (fun r => (0 <= tokenCount r)%Z) [kubectl; quotedGet])
    by (repeat constructor; simpl; lia).
  assert (Hthree : Forall (fun r => (0 <= tokenCount r)%Z)
                     [kubectl; kubectlGet; quotedGet])
    by (repeat constructor; simpl; lia).
  pose proof (layer_decision [kubectlGet] [kubectl; quotedGet] Hpermits Htwo)
    as (_ & _ & _ & Hpermit & _).
  pose proof (layer_decision [kubectl] [kubectl; kubectlGet; quotedGet]
                Hone Hthree)
    as (_ & _ & _ & _ & Hblock & Hblocks).
  split.
  - apply Hpermit. split; [intros [H _]; discriminate H|].
    vm_compute. discriminate.
  - apply Hblocks. apply Hblock.
    split; [intros [H _]; discriminate H|reflexivity].
Defined.

(** ** Loops that push onto an array *)

Lemma fold_left_push {A B : Type} (f : list B -> A -> list B)
    (g : A -> list B) :
  (forall acc x, f acc x = acc ++ g x) ->
  forall xs acc, fold_left f xs acc = acc ++ flat_map g xs.
Proof.
  intros Hf xs. induction xs as [|x xs IH]; intros acc; simpl.
  - now rewrite app_nil_r.
  - now rewrite IH, Hf, <- app_assoc.
Qed.

Lemma buildRule_push (rules : list PrefixRule) (p : string) :
  buildRule rules p = rules ++ buildRule [] p.
Proof.
  unfold buildRule. destruct (canonicalizePrefix p) as [c|];
    [destruct (isEmpty c)|]; simpl; now rewrite ?app_nil_r.
Qed.

Lemma buildRules_flat_map (prefixes : list string) :
  buildRules prefixes = flat_map (buildRule []) prefixes.
Proof.
  unfold buildRules.
  now rewrite (fold_left_push buildRule (buildRule []) buildRule_push).
Qed.

(** Every compiled rule counts its own tokens. *)
Lemma buildRules_tokenCount (prefixes : list string) (r : PrefixRule) :
  In r (buildRules prefixes) ->
  tokenCount r = Z.of_nat (length (tokens r)).
Proof.
  rewrite buildRules_flat_map, in_flat_map. intros (p & _ & Hr).
  unfold buildRule in Hr. destruct (canonicalizePrefix p) as [c|]; [|destruct Hr].
  destruct (isEmpty c); [destruct Hr|].
  destruct Hr as [<-|[]]. reflexivity.
Qed.

Lemma matchingRules_counts (invocationTokens prefixes : list string) :
  Forall (fun r => (0 <= tokenCount r)%Z)
         (matchingRules invocationTokens (buildRules prefixes)).
Proof.
  apply Forall_forall. intros r Hr.
  apply filter_In in Hr as [Hr _].
  rewrite (buildRules_tokenCount _ _ Hr). lia.
Qed.

Lemma guardSegment_push sbr spr pbr ppr blocked segment :
  guardSegment sbr spr pbr ppr blocked segment
  = blocked ++ guardSegment sbr spr pbr ppr [] segment.
Proof.
  unfold guardSegment.
  destruct (normalizeInvocationTokens (tokenizeShellWords segment))
    as [|t rest]; [now rewrite app_nil_r|].
  destruct (action (decideLayer _ _)); simpl; rewrite ?app_nil_r; try reflexivity.
  destruct (isBlock _); simpl; now rewrite ?app_nil_r.
Qed.

(** ** Resolution of one segment, in the words of the specification *)

Lemma guardSegment_record pb pp sb sp segment :
  guardSegment (buildRules sb) (buildRules sp) (buildRules pb) (buildRules pp)
    [] segment
  = if segmentIsBlocked pb pp sb sp segment
    then [segmentRecord pb pp sb sp segment] else [].
Proof.
  unfold guardSegment, segmentIsBlocked, segmentRecord, segmentBlocks,
    layerVerdict, segmentInvocation.
  destruct (normalizeInvocationTokens (tokenizeShellWords segment))
    as [|t rest]; [reflexivity|].
  destruct (action (decideLayer
                      (matchingRules (t :: rest) (buildRules sp))
                      (matchingRules (t :: rest) (buildRules sb))));
    try reflexivity.
  destruct (action (decideLayer
                      (matchingRules (t :: rest) (buildRules pp))
                      (matchingRules (t :: rest) (buildRules pb))));
    reflexivity.
Qed.

Lemma flat_map_filter_map {A B : Type} (keep : A -> bool) (f : A -> B)
    (xs : list A) :
  flat_map (fun x => if keep x then [f x] else []) xs
  = map f (filter keep xs).
Proof.
  induction xs as [|x xs IH]; simpl; [reflexivity|].
  destruct (keep x); simpl; now rewrite IH.
Qed.

(** C1. Whole-command resolution.  The list answered for an input is, in
    the order of the segments, one record for each blocked segment and
    nothing else: the record holds the segment's normalized tokens joined
    by single spaces and the prefixes matched in the deciding layer.  The
    command is therefore blocked, by either hook, exactly when one of its
    segments is.  With persistent block set [gcloud], the input
    [gcloud compute instances list; echo hi] has the two segments shown,
    gives the one record shown, and its segment [echo hi] is not blocked. *)
Theorem whole_command_resolution :
  (forall (input : string) (pb pp sb sp : list string),
     let blocked := findBlockedInvocations input pb pp sb sp in
     let st := {| persistentBlockedPrefixes := pb;
                  persistentPermitPrefixes := pp;
                  sessionBlockedPrefixes := sb;
                  sessionPermitPrefixes := sp |} in
     let someSegmentBlocked :=
       exists segment,
         In segment (splitShellSegments input)
         /\ segmentIsBlocked pb pp sb sp segment = true in
     blocked
     = map (segmentRecord pb pp sb sp)
         (filter (segmentIsBlocked pb pp sb sp) (splitShellSegments input))
     /\ (blocked <> [] <-> someSegmentBlocked)
     /\ (userBash st input <> None <-> someSegmentBlocked)
     /\ (toolCall st "bash" (Some input) <> None <-> someSegmentBlocked))
  /\ splitShellSegments "gcloud compute instances list; echo hi"
     = ["gcloud compute instances list"; "echo hi"]
  /\ findBlockedInvocations "gcloud compute instances list; echo hi"
       ["gcloud"] [] [] []
     = [ {| invocation := "gcloud compute instances list";
            matchedBlocks := ["gcloud"] |} ]
  /\ segmentIsBlocked ["gcloud"] [] [] [] "echo hi" = false.
Proof.
  split; [|repeat split; reflexivity].
  intros input pb pp sb sp blocked st someSegmentBlocked.
  assert (Heq : blocked
                = map (segmentRecord pb pp sb sp)
                    (filter (segmentIsBlocked pb pp sb sp)
                            (splitShellSegments input))).
  { subst blocked. unfold findBlockedInvocations.
    rewrite (fold_left_push _ _ (guardSegment_push _ _ _ _)). simpl.
    rewrite <- flat_map_filter_map.
    apply flat_map_ext. intros segment. apply guardSegment_record. }
  assert (Hne : blocked <> [] <-> someSegmentBlocked).
  { rewrite Heq. unfold someSegmentBlocked. split.
    - intros Hne.
      destruct (filter (segmentIsBlocked pb pp sb sp)
                       (splitShellSegments input)) as [|segment l] eqn:Hf;
        [now contradiction Hne|].
      exists segment. apply filter_In. rewrite Hf. now left.
    - intros (segment & Hin) Hnil.
      apply filter_In in Hin.
      apply (in_map (segmentRecord pb pp sb sp)) in Hin.
      rewrite Hnil in Hin. destruct Hin. }
  split; [exact Heq|]. split; [exact Hne|].
  assert (Hhook : userBash st input <> None <-> blocked <> []).
  { unfold userBash. subst st. cbn [persistentBlockedPrefixes
      persistentPermitPrefixes sessionBlockedPrefixes sessionPermitPrefixes].
    subst blocked.
    destruct (findBlockedInvocations input pb pp sb sp); split; congruence. }
  split; [now rewrite Hhook|].
  rewrite <- Hne. unfold toolCall. simpl String.eqb. cbn [negb].
  subst st. cbn [persistentBlockedPrefixes
    persistentPermitPrefixes sessionBlockedPrefixes sessionPermitPrefixes].
  destruct input as [|ch input'] eqn:Hinput.
  - simpl. split; intros H; now contradiction H.
  - cbn [isEmpty]. subst blocked.
    destruct (findBlockedInvocations (String ch input') pb pp sb sp);
      split; congruence.
Qed.

Lemma isPrefixMatch_nil (ruleTokens : list string) :
  isPrefixMatch [] ruleTokens = false.
Proof.
  unfold isPrefixMatch. destruct ruleTokens; reflexivity.
Qed.

Lemma matchingRules_nil (rules : list PrefixRule) :
  matchingRules [] rules = [].
Proof.
  induction rules as [|r rules IH]; simpl; [reflexivity|].
  now rewrite isPrefixMatch_nil.
Qed.

(** C2. Layer precedence, on the body of the loop over segments.  The
    session layer decides first.  When its verdict is permit the segment
    adds nothing to the list, whatever the persistent sets hold, so a
    session permit overrides every persistent block rule of any length.
    When it is block the segment is recorded with the session layer's
    prefixes, again whatever the persistent sets hold.  Only when it is
    none does the persistent layer decide: block records the segment with
    the persistent layer's prefixes, permit and none record nothing. *)
Theorem layer_precedence (pb pp sb sp : list string)
    (blocked : list BlockedInvocation) (segment : string) :
  let inv := segmentInvocation segment in
  let session := layerVerdict sp sb inv in
  let persistent := layerVerdict pp pb inv in
  let run pb' pp' :=
    guardSegment (buildRules sb) (buildRules sp)
                 (buildRules pb') (buildRules pp') blocked segment in
  let record matched :=
    {| invocation := join " " inv; matchedBlocks := matched |} in
  (action session = Permit -> forall pb' pp', run pb' pp' = blocked)
  /\ (action session = Block ->
      forall pb' pp', run pb' pp' = blocked ++ [record (layerBlocks session)])
  /\ (action session = NoAction ->
      (action persistent = Block ->
       run pb pp = blocked ++ [record (layerBlocks persistent)])
      /\ (action persistent <> Block -> run pb pp = blocked)).
Proof.
  intros inv session persistent run record.
  subst run record persistent session. unfold layerVerdict, guardSegment.
  subst inv. unfold segmentInvocation.
  destruct (normalizeInvocationTokens (tokenizeShellWords segment))
    as [|t rest].
  - rewrite !matchingRules_nil. cbn.
    split; [discriminate|]. split; [discriminate|].
    intros _. split; [discriminate|reflexivity].
  - destruct (action (decideLayer
                        (matchingRules (t :: rest) (buildRules sp))
                        (matchingRules (t :: rest) (buildRules sb)))).
    + split; [reflexivity|]. split; discriminate.
    + split; [discriminate|]. split; [reflexivity|discriminate].
    + split; [discriminate|]. split; [discriminate|]. intros _.
      destruct (action (decideLayer
                          (matchingRules (t :: rest) (buildRules pp))
                          (matchingRules (t :: rest) (buildRules pb))));
        cbn [isBlock]; split; try reflexivity; try discriminate;
        intros H; now contradiction H.
Qed.

Lemma layer_precedence_witness :
  guardSegment (buildRules []) (buildRules ["kubectl"])
    (buildRules ["kubectl get pods"; "kubectl"]) (buildRules [])
    [] "sudo kubectl get pods -A" = []
  /\ guardSegment (buildRules ["kubectl delete"]) (buildRules ["kubectl"])
       (buildRules []) (buildRules ["kubectl delete pods"])
       [] "kubectl delete pods"
     = [ {| invocation := "kubectl delete pods";
            matchedBlocks := ["kubectl delete"] |} ]
  /\ guardSegment (buildRules []) (buildRules ["gcloud"])
       (buildRules ["kubectl"]) (buildRules [])
       [] "kubectl get pods"
     = [ {| invocation := "kubectl get pods";
            matchedBlocks := ["kubectl"] |} ].
Proof.
  split; [|split].
  - exact (proj1 (layer_precedence [] [] [] ["kubectl"] []
                    "sudo kubectl get pods -A")
             eq_refl ["kubectl get pods"; "kubectl"] []).
  - exact (proj1 (proj2 (layer_precedence [] [] ["kubectl delete"]
                           ["kubectl"] [] "kubectl delete pods"))
             eq_refl [] ["kubectl delete pods"]).
  - exact (proj1 (proj2 (proj2 (layer_precedence ["kubectl"] [] []
                                  ["gcloud"] [] "kubectl get pods"))
                    eq_refl)
             eq_refl).
Defined.

(** ** Insertion-ordered sets *)

Lemma set_has_In (x : string) (s : list string) :
  set_has x s = true <-> In x s.
Proof.
  unfold set_has. rewrite existsb_exists. split.
  - intros (y & Hy & Heq). apply String.eqb_eq in Heq. now subst.
  - intros Hx. exists x. split; [exact Hx|apply String.eqb_refl].
Qed.

Lemma set_has_false (x : string) (s : list string) :
  set_has x s = false <-> ~ In x s.
Proof.
  rewrite <- set_has_In. destruct (set_has x s); split; congruence.
Qed.

Lemma set_add_In (x y : string) (s : list string) :
  In y (set_add x s) <-> y = x \/ In y s.
Proof.
  unfold set_add. destruct (set_has x s) eqn:Hx.
  - apply set_has_In in Hx. split; [now right|]. intros [->|H]; assumption.
  - rewrite in_app_iff. simpl. split.
    + intros [H|[<-|[]]]; auto.
    + intros [->|H]; auto.
Qed.

Lemma set_delete_In (x y : string) (s : list string) :
  In y (set_delete x s) <-> In y s /\ y <> x.
Proof.
  unfold set_delete. rewrite filter_In, negb_true_iff, String.eqb_neq.
  split; intros [H1 H2]; split; auto.
Qed.

Lemma set_delete_absent (x : string) (s : list string) :
  ~ In x s -> set_delete x s = s.
Proof.
  intros Hx. unfold set_delete. induction s as [|y s IH]; simpl; [reflexivity|].
  destruct (String.eqb_spec x y) as [->|Hne]; simpl.
  - exfalso. apply Hx. now left.
  - f_equal. apply IH. intros H. apply Hx. now right.
Qed.

Lemma set_add_delete_fresh (x : string) (s : list string) :
  ~ In x s -> set_delete x (set_add x s) = s.
Proof.
  intros Hx. unfold set_add.
  apply set_has_false in Hx as Hh. rewrite Hh.
  unfold set_delete. rewrite filter_app. simpl. rewrite String.eqb_refl. simpl.
  rewrite app_nil_r. now apply set_delete_absent.
Qed.

Lemma set_add_NoDup (x : string) (s : list string) :
  NoDup s -> NoDup (set_add x s).
Proof.
  intros Hs. unfold set_add. destruct (set_has x s) eqn:Hx; [exact Hs|].
  apply set_has_false in Hx.
  apply NoDup_app; [exact Hs|repeat constructor; intros []|].
  intros y Hy [<-|[]]. contradiction.
Qed.

Lemma set_delete_NoDup (x : string) (s : list string) :
  NoDup s -> NoDup (set_delete x s).
Proof. intros Hs. now apply NoDup_filter. Qed.

(** Deleting a member and adding it again gives the same set, with the
    member moved to the end of the insertion order. *)
Lemma set_delete_add_Permutation (x : string) (s : list string) :
  NoDup s -> In x s -> Permutation s (set_add x (set_delete x s)).
Proof.
  intros Hs Hx. apply NoDup_Permutation; [exact Hs| |].
  - apply set_add_NoDup. now apply set_delete_NoDup.
  - intros y. rewrite set_add_In, set_delete_In. split.
    + intros Hy. destruct (String.eqb_spec y x); auto.
    + intros [->|[Hy _]]; assumption.
Qed.

Lemma set_of_list_spec (xs : list string) :
  NoDup (set_of_list xs) /\ forall x, In x (set_of_list xs) <-> In x xs.
Proof.
  unfold set_of_list.
  assert (G : forall acc, NoDup acc ->
                NoDup (fold_left (fun s x => set_add x s) xs acc)
                /\ forall x, In x (fold_left (fun s x => set_add x s) xs acc)
                             <-> In x acc \/ In x xs).
  { induction xs as [|a xs IH]; intros acc Hacc; simpl.
    - split; [exact Hacc|]. intros x. tauto.
    - destruct (IH (set_add a acc) (set_add_NoDup a acc Hacc)) as [Hnd Hin].
      split; [exact Hnd|]. intros x. rewrite Hin, set_add_In.
      split; [intros [[->|H]|H]|intros [H|[->|H]]]; auto. }
  destruct (G [] (NoDup_nil _)) as [Hnd Hin].
  split; [exact Hnd|]. intros x. rewrite Hin. simpl. tauto.
Qed.

(** ** Policy commands *)

Lemma blockPersist_rollback save message args st :
  wellFormed st ->
  (forall blocks permits, save blocks permits = Some message) ->
  sameRuleSets st (fst (blockPersist save args st))
  /\ wellFormed (fst (blockPersist save args st))
  /\ (argPrefix args <> None ->
      snd (blockPersist save args st) = saveFailure message).
Proof.
  intros (Hpb & Hpp & Hsb & Hsp) Hfail. unfold blockPersist.
  destruct (argPrefix args) as [p|]; cbn [fst snd].
  2:{ split; [|split]; [repeat split; auto|repeat split; auto|congruence]. }
  rewrite Hfail. cbn [fst snd].
  set (wasBlocked := set_has p (persistentBlockedPrefixes st)).
  set (removedPermit := set_has p (persistentPermitPrefixes st)).
  set (covered := removedPermit && negb wasBlocked && _).
  assert (Hblocks :
            (if negb wasBlocked && negb covered
             then set_delete p
                    (if negb wasBlocked && negb covered
                     then set_add p (persistentBlockedPrefixes st)
                     else persistentBlockedPrefixes st)
             else if negb wasBlocked && negb covered
                  then set_add p (persistentBlockedPrefixes st)
                  else persistentBlockedPrefixes st)
            = persistentBlockedPrefixes st).
  { destruct (negb wasBlocked && negb covered) eqn:Hadd; [|reflexivity].
    apply set_add_delete_fresh. apply set_has_false.
    apply andb_true_iff in Hadd as [Hw _]. now apply negb_true_iff in Hw. }
  assert (Hpermits :
            Permutation (persistentPermitPrefixes st)
              (if removedPermit
               then set_add p (set_delete p (persistentPermitPrefixes st))
               else set_delete p (persistentPermitPrefixes st))).
  { destruct removedPermit eqn:Hrem.
    - apply set_delete_add_Permutation; [exact Hpp|now apply set_has_In].
    - rewrite set_delete_absent; [reflexivity|now apply set_has_false]. }
  unfold setPersistent. cbn [persistentBlockedPrefixes persistentPermitPrefixes
    sessionBlockedPrefixes sessionPermitPrefixes].
  rewrite Hblocks.
  split; [repeat split; auto|].
  split; [|reflexivity].
  repeat split; cbn; auto.
  eapply Permutation_NoDup; [exact Hpermits|exact Hpp].
Qed.

Lemma permitPersist_rollback save message args st :
  wellFormed st ->
  (forall blocks permits, save blocks permits = Some message) ->
  sameRuleSets st (fst (permitPersist save args st))
  /\ wellFormed (fst (permitPersist save args st))
  /\ (argPrefix args <> None ->
      snd (permitPersist save args st) = saveFailure message).
Proof.
  intros (Hpb & Hpp & Hsb & Hsp) Hfail. unfold permitPersist.
  destruct (argPrefix args) as [p|]; cbn [fst snd].
  2:{ split; [|split]; [repeat split; auto|repeat split; auto|congruence]. }
  rewrite Hfail. cbn [fst snd].
  set (wasPermitted := set_has p (persistentPermitPrefixes st)).
  set (removedBlock := set_has p (persistentBlockedPrefixes st)).
  assert (Hpermits :
            (if negb wasPermitted
             then set_delete p (set_add p (persistentPermitPrefixes st))
             else set_add p (persistentPermitPrefixes st))
            = persistentPermitPrefixes st).
  { destruct wasPermitted eqn:Hwas; cbn [negb].
    - unfold set_add. fold wasPermitted. now rewrite Hwas.
    - apply set_add_delete_fresh. now apply set_has_false. }
  assert (Hblocks :
            Permutation (persistentBlockedPrefixes st)
              (if removedBlock
               then set_add p (set_delete p (persistentBlockedPrefixes st))
               else set_delete p (persistentBlockedPrefixes st))).
  { destruct removedBlock eqn:Hrem.
    - apply set_delete_add_Permutation; [exact Hpb|now apply set_has_In].
    - rewrite set_delete_absent; [reflexivity|now apply set_has_false]. }
  unfold setPersistent. cbn [persistentBlockedPrefixes persistentPermitPrefixes
    sessionBlockedPrefixes sessionPermitPrefixes].
  rewrite Hpermits.
  split; [repeat split; auto|].
  split; [|reflexivity].
  repeat split; cbn; auto.
  eapply Permutation_NoDup; [exact Hblocks|exact Hpb].
Qed.

(** C7. Atomicity of the persistent commands.  A handler saves once, so
    a disk that refuses every write stands for any failing save.  When the
    save fails, with whatever message, both [bash-guard-block-persist] and
    [bash-guard-permit-persist] leave the four rule sets as they were: the
    session sets untouched, the persistent block and permit sets with the
    members they had before the command (a member that was removed and
    put back now comes last in the set's order).  The failure is reported
    as one notification of level error carrying the message. *)
Theorem persistent_mutation_atomic
    (save : list string -> list string -> option string)
    (message : string) (args : option string) (st : GuardState) :
  wellFormed st ->
  (forall blocks permits, save blocks permits = Some message) ->
  (sameRuleSets st (fst (blockPersist save args st))
   /\ wellFormed (fst (blockPersist save args st))
   /\ (argPrefix args <> None ->
       snd (blockPersist save args st) = saveFailure message))
  /\ (sameRuleSets st (fst (permitPersist save args st))
      /\ wellFormed (fst (permitPersist save args st))
      /\ (argPrefix args <> None ->
          snd (permitPersist save args st) = saveFailure message)).
Proof.
  intros Hwf Hfail. split.
  - now apply blockPersist_rollback.
  - now apply permitPersist_rollback.
Qed.

Lemma sampleState_wellFormed : wellFormed sampleState.
Proof.
  repeat split; repeat constructor; simpl; intuition discriminate.
Qed.

Lemma persistent_mutation_atomic_witness :
  sameRuleSets sampleState
    (fst (blockPersist readOnlyDisk (Some "sudo kubectl get") sampleState))
  /\ snd (blockPersist readOnlyDisk (Some "sudo kubectl get") sampleState)
     = saveFailure "EROFS: read-only file system"
  /\ sameRuleSets sampleState
       (fst (permitPersist readOnlyDisk (Some "kubectl") sampleState))
  /\ snd (permitPersist readOnlyDisk (Some "kubectl") sampleState)
     = saveFailure "EROFS: read-only file system".
Proof.
  pose proof (persistent_mutation_atomic readOnlyDisk
                "EROFS: read-only file system" (Some "sudo kubectl get")
                sampleState sampleState_wellFormed (fun _ _ => eq_refl))
    as [(Hsame & _ & Hnote) _].
  pose proof (persistent_mutation_atomic readOnlyDisk
                "EROFS: read-only file system" (Some "kubectl")
                sampleState sampleState_wellFormed (fun _ _ => eq_refl))
    as [_ (Hsame' & _ & Hnote')].
  split; [exact Hsame|].
  split; [apply Hnote; discriminate|].
  split; [exact Hsame'|apply Hnote'; discriminate].
Defined.

(** C8. Redundancy avoidance.  When the canonical prefix of the argument
    is a persistent permit and, once that permit is removed, the remaining
    persistent rules already block it, [bash-guard-block-persist] adds no
    block rule: the persistent block set is the one before the command,
    whether or not the save succeeds; when the save succeeds the permit is
    gone and the notification says that no redundant rule was added.  In
    particular, from block set [kubectl] and permit set [kubectl get], the
    argument [kubectl get] leaves the block set at [kubectl] and empties
    the permit set. *)
Theorem redundant_block_not_added
    (save : list string -> list string -> option string) :
  (forall (args : option string) (st : GuardState) (p : string),
     argPrefix args = Some p ->
     In p (persistentPermitPrefixes st) ->
     isBlockedByPersistentRules p (persistentBlockedPrefixes st)
       (set_delete p (persistentPermitPrefixes st)) = true ->
     let st' := fst (blockPersist save args st) in
     persistentBlockedPrefixes st' = persistentBlockedPrefixes st
     /\ (save (persistentBlockedPrefixes st)
              (set_delete p (persistentPermitPrefixes st)) = None ->
         persistentPermitPrefixes st'
         = set_delete p (persistentPermitPrefixes st)
         /\ ~ In p (persistentPermitPrefixes st')
         /\ (~ In p (persistentBlockedPrefixes st) ->
             snd (blockPersist save args st)
             = [(("Removed persistent permit: " ++ p
                  ++ ". Existing persistent block prefixes already cover it, so no redundant block rule was added.")%string,
                 info)])))
  /\ (save ["kubectl"] [] = None ->
      let st := {| persistentBlockedPrefixes := ["kubectl"];
                   persistentPermitPrefixes := ["kubectl get"];
                   sessionBlockedPrefixes := [];
                   sessionPermitPrefixes := [] |} in
      let st' := fst (blockPersist save (Some "kubectl get") st) in
      persistentBlockedPrefixes st' = ["kubectl"]
      /\ persistentPermitPrefixes st' = []).
Proof.
  split.
  - intros args st p Hp Hin Hcov st'. subst st'.
    unfold blockPersist. rewrite Hp.
    apply set_has_In in Hin as Hhas. rewrite Hhas, Hcov.
    destruct (set_has p (persistentBlockedPrefixes st)) eqn:Hwas;
      cbn [negb andb].
    + destruct (save _ _); cbn [fst snd setPersistent
        persistentBlockedPrefixes persistentPermitPrefixes].
      * split; [reflexivity|discriminate].
      * split; [reflexivity|]. intros _.
        split; [reflexivity|]. split.
        -- rewrite set_delete_In. intros [_ H]. now apply H.
        -- intros Hnot. exfalso. apply Hnot. now apply set_has_In.
    + destruct (save _ _); cbn [fst snd setPersistent
        persistentBlockedPrefixes persistentPermitPrefixes].
      * split; [reflexivity|discriminate].
      * split; [reflexivity|]. intros _.
        split; [reflexivity|]. split.
        -- rewrite set_delete_In. intros [_ H]. now apply H.
        -- intros _. reflexivity.
  - intros Hsave st st'. subst st' st. unfold blockPersist.
    change (argPrefix (Some "kubectl get")) with (Some "kubectl get").
    cbv beta iota zeta.
    cbn [persistentBlockedPrefixes persistentPermitPrefixes].
    change (set_has "kubectl get" ["kubectl"]) with false.
    change (set_has "kubectl get" ["kubectl get"]) with true.
    change (set_delete "kubectl get" ["kubectl get"]) with (@nil string).
    change (isBlockedByPersistentRules "kubectl get" ["kubectl"] [])
      with true.
    cbn [negb andb]. rewrite Hsave. split; reflexivity.
Qed.

Lemma redundant_block_not_added_witness :
  let st := {| persistentBlockedPrefixes := ["kubectl"];
               persistentPermitPrefixes := ["kubectl get"];
               sessionBlockedPrefixes := [];
               sessionPermitPrefixes := [] |} in
  let st' := fst (blockPersist healthyDisk (Some "kubectl get") st) in
  persistentBlockedPrefixes st' = ["kubectl"]
  /\ persistentPermitPrefixes st' = []
  /\ persistentBlockedPrefixes
       (fst (blockPersist readOnlyDisk (Some "kubectl get") st))
     = ["kubectl"].
Proof.
  intros st st'.
  destruct (proj2 (redundant_block_not_added healthyDisk) eq_refl)
    as [Hb Hp].
  split; [exact Hb|]. split; [exact Hp|].
  exact (proj1 (proj1 (redundant_block_not_added readOnlyDisk)
                  (Some "kubectl get") st "kubectl get"
                  eq_refl (or_introl eq_refl) eq_refl)).
Defined.

(** ** The disjointness invariant *)

Lemma keepTruthy_In (value : option string) (c : string) :
  In c (keepTruthy value) <-> value = Some c /\ c <> "".
Proof.
  destruct value as [s|]; simpl.
  - destruct s as [|ch s]; simpl.
    + split; [intros []|]. intros [H Hne]. injection H as <-. now apply Hne.
    + split.
      * intros [<-|[]]. split; [reflexivity|discriminate].
      * intros [H _]. injection H as <-. now left.
  - split; [intros []|]. intros [H _]. discriminate.
Qed.

Lemma canonicalizeEntries_In tte items kept (c : string) :
  canonicalizeEntries tte items = inr kept ->
  In c kept ->
  exists s, In (JString s) items /\ canonicalizePrefix s = Some c /\ c <> "".
Proof.
  revert kept. induction items as [|v items IH]; intros kept Hk Hc.
  - injection Hk as <-. destruct Hc.
  - destruct v; simpl in Hk; try discriminate.
    destruct (canonicalizeEntries tte items) as [|kept'] eqn:Hrest;
      [discriminate|].
    injection Hk as <-. apply in_app_iff in Hc as [Hc|Hc].
    + apply keepTruthy_In in Hc as [Hs Hne].
      exists s. split; [now left|]. now split.
    + destruct (IH kept' eq_refl Hc) as (s' & Hin & Hs').
      exists s'. split; [now right|exact Hs'].
Qed.

Lemma disjoint_nil_r (a : list string) : disjoint a [].
Proof. intros p [_ []]. Qed.

Lemma disjoint_nil_l (b : list string) : disjoint [] b.
Proof. intros p [[] _]. Qed.

Lemma loaded_disjoint tte file :
  storedDisjoint file ->
  disjoint (blockedPrefixes (loadPersistedGuardConfig tte file))
           (permittedPrefixes (loadPersistedGuardConfig tte file)).
Proof.
  intros Hstored. destruct file as [|message|parsed];
    try apply disjoint_nil_r.
  unfold loadPersistedGuardConfig.
  unfold storedDisjoint, storedEntries in Hstored.
  destruct (arrayField parsed "permittedPrefixes") as [permitted|].
  2:{ destruct (canonicalizeEntries tte _); [apply disjoint_nil_r|].
      cbn [canonicalizeEntries]. apply disjoint_nil_r. }
  destruct (arrayField parsed "blockedPrefixes") as [blocked|].
  2:{ cbn [canonicalizeEntries].
      destruct (canonicalizeEntries tte permitted);
        [apply disjoint_nil_r|apply disjoint_nil_l]. }
  destruct (canonicalizeEntries tte blocked) as [|keptB] eqn:HB;
    [apply disjoint_nil_r|].
  destruct (canonicalizeEntries tte permitted) as [|keptP] eqn:HP;
    [apply disjoint_nil_r|].
  cbn [blockedPrefixes permittedPrefixes].
  intros c [Hb Hp].
  apply (proj2 (set_of_list_spec keptB)) in Hb.
  apply (proj2 (set_of_list_spec keptP)) in Hp.
  destruct (canonicalizeEntries_In _ _ _ _ HB Hb) as (b & Hbin & Hbc & Hne).
  destruct (canonicalizeEntries_In _ _ _ _ HP Hp) as (p & Hpin & Hpc & _).
  apply Hne. exact (Hstored b p c Hbin Hpin Hbc Hpc).
Qed.

(** Moving [p] to one set of a layer and out of the other. *)
Lemma disjoint_move (p : string) (a b : list string) :
  disjoint a b -> disjoint (set_add p a) (set_delete p b).
Proof.
  intros Hd q [Ha Hb].
  apply set_add_In in Ha. apply set_delete_In in Hb as [Hb Hne].
  destruct Ha as [->|Ha]; [now apply Hne|]. apply (Hd q). now split.
Qed.

Lemma disjoint_sym (a b : list string) : disjoint a b -> disjoint b a.
Proof. intros Hd p [Hb Ha]. apply (Hd p). now split. Qed.

Lemma disjoint_Permutation (a a' b b' : list string) :
  Permutation a a' -> Permutation b b' -> disjoint a b -> disjoint a' b'.
Proof.
  intros Ha Hb Hd p [Hpa Hpb]. apply (Hd p). split.
  - eapply Permutation_in; [symmetry; exact Ha|exact Hpa].
  - eapply Permutation_in; [symmetry; exact Hb|exact Hpb].
Qed.

Lemma blockPersist_disjoint save args st :
  layersDisjoint st -> layersDisjoint (fst (blockPersist save args st)).
Proof.
  intros [Hp Hs]. unfold blockPersist.
  destruct (argPrefix args) as [p|]; [|now split].
  set (wasBlocked := set_has p (persistentBlockedPrefixes st)).
  set (removedPermit := set_has p (persistentPermitPrefixes st)).
  set (covered := removedPermit && negb wasBlocked && _).
  assert (Hmoved :
            disjoint
              (if negb wasBlocked && negb covered
               then set_add p (persistentBlockedPrefixes st)
               else persistentBlockedPrefixes st)
              (set_delete p (persistentPermitPrefixes st))).
  { destruct (negb wasBlocked && negb covered).
    - now apply disjoint_move.
    - intros q [Hb Hq]. apply set_delete_In in Hq as [Hq _].
      apply (Hp q). now split. }
  destruct (save _ _) as [message|]; cbn [fst]; split; cbn; auto.
  intros q [Hb Hq]. apply (Hp q). split.
  - destruct (negb wasBlocked && negb covered) eqn:Hadd; [|exact Hb].
    apply set_delete_In in Hb as [Hb Hne].
    apply set_add_In in Hb as [->|Hb]; [now contradiction Hne|exact Hb].
  - destruct removedPermit eqn:Hrem.
    + apply set_add_In in Hq as [->|Hq]; [now apply set_has_In|].
      now apply set_delete_In in Hq as [Hq _].
    + now apply set_delete_In in Hq as [Hq _].
Qed.

Lemma permitPersist_disjoint save args st :
  layersDisjoint st -> layersDisjoint (fst (permitPersist save args st)).
Proof.
  intros [Hp Hs]. unfold permitPersist.
  destruct (argPrefix args) as [p|]; [|now split].
  set (wasPermitted := set_has p (persistentPermitPrefixes st)).
  set (removedBlock := set_has p (persistentBlockedPrefixes st)).
  destruct (save _ _) as [message|]; cbn [fst]; split; cbn; auto.
  - intros q [Hb Hq]. apply (Hp q). split.
    + destruct removedBlock eqn:Hrem.
      * apply set_add_In in Hb as [->|Hb]; [now apply set_has_In|].
        now apply set_delete_In in Hb as [Hb _].
      * now apply set_delete_In in Hb as [Hb _].
    + destruct wasPermitted eqn:Hwas; cbn [negb] in Hq.
      * apply set_add_In in Hq as [->|Hq]; [now apply set_has_In|exact Hq].
      * apply set_delete_In in Hq as [Hq Hne].
        apply set_add_In in Hq as [->|Hq]; [now contradiction Hne|exact Hq].
  - apply disjoint_sym. apply disjoint_move. now apply disjoint_sym.
Qed.

Lemma runCommand_disjoint save cmd st :
  layersDisjoint st -> layersDisjoint (fst (runCommand save cmd st)).
Proof.
  intros Hd. destruct cmd as [args|args|args|args| |]; cbn [runCommand].
  - now apply blockPersist_disjoint.
  - now apply permitPersist_disjoint.
  - destruct Hd as [Hp Hs]. unfold blockSession.
    destruct (argPrefix args) as [p|]; [|now split].
    split; cbn; [exact Hp|now apply disjoint_move].
  - destruct Hd as [Hp Hs]. unfold permitSession.
    destruct (argPrefix args) as [p|]; [|now split].
    split; cbn; [exact Hp|].
    apply disjoint_sym, disjoint_move. now apply disjoint_sym.
  - destruct Hd as [Hp Hs]. split; cbn; [exact Hp|apply disjoint_nil_r].
  - exact Hd.
Qed.

(** C9, as first stated, fails at session start: loading a stored
    configuration that lists [kubectl] as blocked and as permitted puts
    [kubectl] in both persistent sets. *)
Lemma disjointness_counterexample :
  In "kubectl"
     (persistentBlockedPrefixes
        (fst (sessionStart plainTypeError healthyDisk configPathText
                overlappingConfig)))
  /\ In "kubectl"
        (persistentPermitPrefixes
           (fst (sessionStart plainTypeError healthyDisk configPathText
                   overlappingConfig)))
  /\ ~ layersDisjoint
         (fst (sessionStart plainTypeError healthyDisk configPathText
                 overlappingConfig)).
Proof.
  assert (Hb : In "kubectl"
                 (persistentBlockedPrefixes
                    (fst (sessionStart plainTypeError healthyDisk
                            configPathText overlappingConfig))))
    by (now left).
  assert (Hp : In "kubectl"
                 (persistentPermitPrefixes
                    (fst (sessionStart plainTypeError healthyDisk
                            configPathText overlappingConfig))))
    by (now left).
  split; [exact Hb|]. split; [exact Hp|].
  intros [Hd _]. apply (Hd "kubectl"). now split.
Qed.

(** C9, amended.  Session start empties the session layer, and loads a
    persistent layer with no prefix in both sets whenever no stored
    blocked entry has the canonical prefix of a stored permitted entry;
    that is so in particular when the file is absent or unreadable.
    Every policy command, whatever the outcome of its save, keeps both
    layers free of a prefix that is blocked and permitted at once, and so
    does every run of commands. *)
Theorem disjointness_preserved :
  (forall trimTypeError save configPath file,
     let st := fst (sessionStart trimTypeError save configPath file) in
     sessionBlockedPrefixes st = []
     /\ sessionPermitPrefixes st = []
     /\ (storedDisjoint file -> layersDisjoint st))
  /\ (forall trimTypeError save configPath message,
        layersDisjoint
          (fst (sessionStart trimTypeError save configPath Missing))
        /\ layersDisjoint
             (fst (sessionStart trimTypeError save configPath
                     (Unreadable message))))
  /\ (forall save cmd st,
        layersDisjoint st -> layersDisjoint (fst (runCommand save cmd st)))
  /\ (forall steps st,
        layersDisjoint st -> layersDisjoint (runCommands steps st)).
Proof.
  assert (Hstart : forall tte save configPath file,
             storedDisjoint file ->
             layersDisjoint (fst (sessionStart tte save configPath file))).
  { intros tte save configPath file Hstored.
    unfold sessionStart. cbn [fst]. split; cbn.
    - now apply loaded_disjoint.
    - apply disjoint_nil_r. }
  split; [|split; [|split]].
  - intros tte save configPath file st.
    split; [reflexivity|]. split; [reflexivity|].
    intros Hstored. now apply Hstart.
  - intros tte save configPath message. split; now apply Hstart.
  - intros save cmd st. apply runCommand_disjoint.
  - intros steps. induction steps as [|[save cmd] steps IH]; intros st Hd.
    + exact Hd.
    + cbn [runCommands]. apply IH. now apply runCommand_disjoint.
Qed.

Lemma tidyConfig_storedDisjoint : storedDisjoint tidyConfig.
Proof.
  intros b p c Hb Hp Hbc Hpc.
  destruct Hp as [Hp|[]]. injection Hp as <-.
  vm_compute in Hpc. injection Hpc as <-.
  destruct Hb as [Hb|[Hb|[]]]; injection Hb as <-;
    vm_compute in Hbc; discriminate.
Qed.

Lemma disjointness_preserved_witness :
  layersDisjoint
    (runCommands
       [ (healthyDisk, BashGuardPermitPersist (Some "kubectl"));
         (readOnlyDisk, BashGuardBlockPersist (Some "kubectl"));
         (healthyDisk, BashGuardBlock (Some "env A=1 kubectl get")) ]
       (fst (sessionStart plainTypeError healthyDisk configPathText
               tidyConfig))).
Proof.
  destruct disjointness_preserved as (Hstart & _ & _ & Hrun).
  apply Hrun.
  apply (Hstart plainTypeError healthyDisk configPathText tidyConfig).
  exact tidyConfig_storedDisjoint.
Defined.

(** ** The loader *)

Lemma canonicalizeEntries_strings tte items :
  allStrings items ->
  canonicalizeEntries tte items = inr (canonicalStrings items).
Proof.
  induction 1 as [|v items [s ->] _ IH]; [reflexivity|].
  cbn [canonicalizeEntries]. now rewrite IH.
Qed.

Lemma defaultBlocked_value : defaultBlocked = ["gcloud"; "kubectl"].
Proof. reflexivity. Qed.

(** C10, as first stated, fails when an entry of a stored array is not a
    string: the parsed object has a [permittedPrefixes] array and no
    [blockedPrefixes] array, yet [canonicalizePrefix] raises on the number,
    the loader's [catch] answers the defaults, and the loaded block set is
    [gcloud], [kubectl] instead of empty. *)
Lemma loader_asymmetry_counterexample :
  arrayField numericConfig "blockedPrefixes" = None
  /\ arrayField numericConfig "permittedPrefixes" = Some [JNumber "1"]
  /\ blockedPrefixes (loadPersistedGuardConfig plainTypeError
                        (Parsed numericConfig))
     = ["gcloud"; "kubectl"]
  /\ error (loadPersistedGuardConfig plainTypeError (Parsed numericConfig))
     = Some "input.trim is not a function".
Proof. repeat split; reflexivity. Qed.

(** C10, amended.  For a file that exists and parses, a missing
    [permittedPrefixes] array always gives an empty permit set.  When in
    addition every entry of the arrays present is a string, the load
    reports no error, and the block set is: the canonical prefixes of the
    [blockedPrefixes] array when there is one; empty when there is none
    but there is a [permittedPrefixes] array; the built-in defaults
    [gcloud], [kubectl] only when there is neither. *)
Theorem loader_field_asymmetry (trimTypeError : JSON -> string)
    (parsed : JSON) :
  let loaded := loadPersistedGuardConfig trimTypeError (Parsed parsed) in
  (arrayField parsed "permittedPrefixes" = None ->
   permittedPrefixes loaded = [])
  /\ (allStrings (storedEntries parsed "blockedPrefixes") ->
      allStrings (storedEntries parsed "permittedPrefixes") ->
      error loaded = None
      /\ existed loaded = true
      /\ blockedPrefixes loaded
         = match arrayField parsed "blockedPrefixes",
                 arrayField parsed "permittedPrefixes" with
           | Some items, _ => set_of_list (canonicalStrings items)
           | None, Some _ => []
           | None, None => defaultBlocked
           end
      /\ permittedPrefixes loaded
         = match arrayField parsed "permittedPrefixes" with
           | Some items => set_of_list (canonicalStrings items)
           | None => []
           end
      /\ defaultBlocked = ["gcloud"; "kubectl"]).
Proof.
  intros loaded. subst loaded. unfold loadPersistedGuardConfig, storedEntries.
  split.
  - intros ->.
    destruct (canonicalizeEntries trimTypeError _); reflexivity.
  - intros Hb Hp.
    destruct (arrayField parsed "blockedPrefixes") as [blocked|];
      destruct (arrayField parsed "permittedPrefixes") as [permitted|].
    + rewrite (canonicalizeEntries_strings _ _ Hb),
        (canonicalizeEntries_strings _ _ Hp).
      repeat split; reflexivity.
    + rewrite (canonicalizeEntries_strings _ _ Hb).
      repeat split; reflexivity.
    + rewrite (canonicalizeEntries_strings _ _ Hp).
      repeat split; reflexivity.
    + repeat split; reflexivity.
Qed.

Lemma loader_field_asymmetry_witness :
  blockedPrefixes (loadPersistedGuardConfig plainTypeError
                     (Parsed permitsOnlyConfig)) = []
  /\ permittedPrefixes (loadPersistedGuardConfig plainTypeError
                          (Parsed permitsOnlyConfig)) = ["kubectl get"]
  /\ blockedPrefixes (loadPersistedGuardConfig plainTypeError
                        (Parsed (JObject []))) = ["gcloud"; "kubectl"]
  /\ permittedPrefixes (loadPersistedGuardConfig plainTypeError
                          (Parsed (JObject []))) = [].
Proof.
  assert (Hstrings : forall key, allStrings (storedEntries permitsOnlyConfig key)).
  { intros key. unfold storedEntries.
    destruct (arrayField permitsOnlyConfig key) as [items|] eqn:Hfield;
      [|constructor].
    unfold permitsOnlyConfig, arrayField, getField in Hfield.
    destruct (String.eqb "permittedPrefixes" key); [|discriminate].
    injection Hfield as <-. repeat constructor. now eexists. }
  destruct (proj2 (loader_field_asymmetry plainTypeError permitsOnlyConfig)
              (Hstrings "blockedPrefixes") (Hstrings "permittedPrefixes"))
    as (_ & _ & Hb & Hp & _).
  destruct (proj2 (loader_field_asymmetry plainTypeError (JObject []))
              (Forall_nil _) (Forall_nil _))
    as (_ & _ & Hb' & _).
  split; [exact Hb|]. split; [exact Hp|]. split; [exact Hb'|].
  exact (proj1 (loader_field_asymmetry plainTypeError (JObject [])) eq_refl).
Defined.

(** ** The rule compiler *)

(** What does hold of every compiled rule: its prefix is the normalized
    tokens of the trimmed raw prefix joined by single spaces, and its
    tokens are those of the prefix tokenized again. *)
Lemma buildRule_shape (raw : string) (r : PrefixRule) :
  In r (buildRules [raw]) ->
  prefix r
  = join " " (normalizeInvocationTokens (tokenizeShellWords (trim raw)))
  /\ tokens r = tokenizeShellWords (prefix r)
  /\ tokenCount r = Z.of_nat (length (tokens r)).
Proof.
  rewrite buildRules_flat_map. simpl. rewrite app_nil_r.
  unfold buildRule, canonicalizePrefix.
  destruct (normalizeInvocationTokens (tokenizeShellWords (trim raw)))
    as [|t rest]; [intros []|].
  destruct (isEmpty (join " " (t :: rest))); [intros []|].
  intros [<-|[]]. repeat split.
Qed.

(** C6 fails on the code.  The normalized tokens of [echo "a b"] are
    [echo] and [a b], but the rule compiled from it holds the three tokens
    [echo], [a], [b]: [buildRules] tokenizes the joined prefix again.  So
    after [bash-guard-block echo "a b"] the command [echo "a b"] itself is
    not blocked, while [echo a b] is. *)
Theorem compiled_rule_retokenized :
  normalizeInvocationTokens (tokenizeShellWords (trim quotedPrefix))
  = ["echo"; "a b"]
  /\ buildRules [quotedPrefix]
     = [ {| prefix := "echo a b";
            tokens := ["echo"; "a"; "b"];
            tokenCount := 3 |} ]
  /\ sessionBlockedPrefixes
       (fst (blockSession (Some quotedPrefix)
               {| persistentBlockedPrefixes := [];
                  persistentPermitPrefixes := [];
                  sessionBlockedPrefixes := [];
                  sessionPermitPrefixes := [] |}))
     = ["echo a b"]
  /\ findBlockedInvocations quotedPrefix [] [] ["echo a b"] [] = []
  /\ findBlockedInvocations "echo a b" [] [] ["echo a b"] []
     = [ {| invocation := "echo a b"; matchedBlocks := ["echo a b"] |} ].
Proof. repeat split; reflexivity. Qed.

(** * Further properties of the code *)

(** ** Strings *)

Lemma append_chr_assoc (cur : string) (c : ascii) (r : string) :
  ((cur ++ chr c) ++ r = cur ++ String c r)%string.
Proof.
  induction cur as [|d cur IH]; simpl; [reflexivity|]. now rewrite IH.
Qed.

Lemma append_empty_r (s : string) : (s ++ "" = s)%string.
Proof. induction s as [|c s IH]; simpl; [reflexivity|]. now rewrite IH. Qed.

Lemma append_assoc (a b c : string) :
  ((a ++ b) ++ c = a ++ (b ++ c))%string.
Proof. induction a as [|x a IH]; simpl; [reflexivity|]. now rewrite IH. Qed.

Lemma isEmpty_append (a b : string) :
  isEmpty (a ++ b)%string = isEmpty a && isEmpty b.
Proof. destruct a; reflexivity. Qed.

Lemma isPlainChar_spec (c : ascii) :
  isPlainChar c = true ->
  isWhitespace c = false /\ isQuoteChar c = false
  /\ Ascii.eqb c backslash = false /\ isSegmentDelimiter c = false.
Proof.
  unfold isPlainChar. rewrite negb_true_iff, !orb_false_iff. tauto.
Qed.

(** ** The tokenizer *)

Lemma pushToken_app (pre toks : list string) (cur : string) :
  pushToken (pre ++ toks) cur = pre ++ pushToken toks cur.
Proof.
  unfold pushToken. destruct (isEmpty cur); [reflexivity|].
  now rewrite app_assoc.
Qed.

(** Tokens already pushed stay in front, untouched. *)
Lemma tokenizeLoop_app (s : string) :
  forall (pre toks : list string) cur quote escaped,
    tokenizeLoop s (pre ++ toks) cur quote escaped
    = pre ++ tokenizeLoop s toks cur quote escaped.
Proof.
  induction s as [|ch s IH]; intros pre toks cur quote escaped;
    cbn [tokenizeLoop].
  - apply pushToken_app.
  - destruct escaped; [apply IH|].
    destruct (Ascii.eqb ch backslash && _); [apply IH|].
    destruct quote as [q|].
    + destruct (Ascii.eqb ch q); apply IH.
    + destruct (isQuoteChar ch); [apply IH|].
      destruct (isWhitespace ch); [|apply IH].
      rewrite pushToken_app. apply IH.
Qed.

(** Outside quotes a run of plain characters is appended to the word
    being read. *)
Lemma tokenizeLoop_plain (w : string) :
  allChars isPlainChar w = true ->
  forall s toks cur,
    tokenizeLoop (w ++ s) toks cur None false
    = tokenizeLoop s toks (cur ++ w) None false.
Proof.
  induction w as [|c w IH]; intros Hw s toks cur.
  - simpl. now rewrite append_empty_r.
  - cbn [allChars] in Hw. apply andb_true_iff in Hw as [Hc Hw].
    apply isPlainChar_spec in Hc as (Hws & Hq & Hb & _).
    cbn [append tokenizeLoop]. rewrite Hb, Hq, Hws. cbn [andb].
    rewrite (IH Hw). now rewrite append_chr_assoc.
Qed.

Lemma isPlainToken_spec (t : string) :
  isPlainToken t = true -> isEmpty t = false /\ allChars isPlainChar t = true.
Proof.
  unfold isPlainToken. rewrite andb_true_iff, negb_true_iff. tauto.
Qed.

(** A plain word followed by a space is one token, and the rest of the
    text is tokenized on its own. *)
Lemma tokenize_word_space (w s : string) :
  isPlainToken w = true ->
  tokenizeShellWords (w ++ String " " s) = w :: tokenizeShellWords s.
Proof.
  intros Hw. apply isPlainToken_spec in Hw as [Hne Hall].
  unfold tokenizeShellWords. rewrite (tokenizeLoop_plain w Hall).
  cbn [tokenizeLoop append]. cbn.
  unfold pushToken. rewrite Hne.
  change ([] ++ [w]) with ([w] ++ []). apply tokenizeLoop_app.
Qed.

Lemma tokenize_word (w : string) :
  isPlainToken w = true -> tokenizeShellWords w = [w].
Proof.
  intros Hw. apply isPlainToken_spec in Hw as [Hne Hall].
  unfold tokenizeShellWords.
  rewrite <- (append_empty_r w) at 1.
  rewrite (tokenizeLoop_plain w Hall). cbn. unfold pushToken. now rewrite Hne.
Qed.

Lemma join_cons (sep x : string) (xs : list string) :
  xs <> [] -> join sep (x :: xs) = (x ++ sep ++ join sep xs)%string.
Proof. destruct xs; [congruence|reflexivity]. Qed.

(** Words already pushed stay, and plain words joined by single spaces
    are pushed after them one by one. *)
Lemma tokenizeLoop_join (words : list string) :
  Forall (fun w => isPlainToken w = true) words ->
  forall toks,
    tokenizeLoop (join " " words) toks "" None false = toks ++ words.
Proof.
  intros Hwords toks.
  rewrite <- (app_nil_r toks) at 1. rewrite tokenizeLoop_app. f_equal.
  induction Hwords as [|w words Hw Hwords IH]; [reflexivity|].
  destruct words as [|w' words].
  - now apply tokenize_word.
  - rewrite join_cons by discriminate.
    change (w ++ " " ++ join " " (w' :: words))%string
      with (w ++ String " " (join " " (w' :: words)))%string.
    fold (tokenizeShellWords (w ++ String " " (join " " (w' :: words)))).
    rewrite (tokenize_word_space _ _ Hw). unfold tokenizeShellWords.
    now rewrite IH.
Qed.

Lemma tokenize_join_plain (words : list string) :
  Forall (fun w => isPlainToken w = true) words ->
  tokenizeShellWords (join " " words) = words.
Proof. intros Hwords. exact (tokenizeLoop_join words Hwords []). Qed.

(** X. Joining plain words with single spaces and tokenizing the result
    gives the words back. *)
Theorem tokenize_join_roundtrip (words : list string) :
  Forall (fun w => isPlainToken w = true) words ->
  tokenizeShellWords (join " " words) = words.
Proof.
  intros Hwords. unfold tokenizeShellWords.
  now rewrite (tokenizeLoop_join words Hwords []).
Qed.

Lemma tokenize_join_roundtrip_witness :
  tokenizeShellWords (join " " ["kubectl"; "-n"; "staging"; "get"])
  = ["kubectl"; "-n"; "staging"; "get"].
Proof.
  apply (tokenize_join_roundtrip ["kubectl"; "-n"; "staging"; "get"]).
  repeat constructor.
Defined.

(** X. The tokenizer never yields an empty token: quotes around nothing
    and runs of whitespace produce no word. *)
Theorem tokenize_no_empty_token (segment token : string) :
  In token (tokenizeShellWords segment) -> token <> "".
Proof.
  unfold tokenizeShellWords.
  assert (G : forall s toks cur quote escaped,
             Forall (fun t => t <> "") toks ->
             Forall (fun t => t <> "")
                    (tokenizeLoop s toks cur quote escaped)).
  { assert (Hpush : forall toks cur,
               Forall (fun t => t <> "") toks ->
               Forall (fun t => t <> "") (pushToken toks cur)).
    { intros toks cur Htoks. unfold pushToken.
      destruct cur as [|c cur]; [exact Htoks|].
      apply Forall_app. split; [exact Htoks|].
      repeat constructor. discriminate. }
    induction s as [|ch s IH]; intros toks cur quote escaped Htoks;
      cbn [tokenizeLoop].
    - now apply Hpush.
    - destruct escaped; [now apply IH|].
      destruct (Ascii.eqb ch backslash && _); [now apply IH|].
      destruct quote as [q|].
      + destruct (Ascii.eqb ch q); now apply IH.
      + destruct (isQuoteChar ch); [now apply IH|].
        destruct (isWhitespace ch); [|now apply IH].
        apply IH. now apply Hpush. }
  intros Hin. specialize (G segment [] "" None false (Forall_nil _)).
  rewrite Forall_forall in G. now apply G.
Qed.

Lemma tokenize_no_empty_token_witness :
  Forall (fun token => token <> "") (tokenizeShellWords "echo  ''   \  x").
Proof.
  apply Forall_forall. intros token Hin.
  exact (tokenize_no_empty_token _ token Hin).
Defined.

(** ** Trimming *)

Lemma dropWhileEnd_keeps_head (p : ascii -> bool) (c : ascii) (r : string) :
  p c = false -> dropWhileEnd p (String c r) = String c (dropWhileEnd p r).
Proof. intros Hc. cbn [dropWhileEnd]. now rewrite Hc, andb_false_r. Qed.

Lemma dropWhileEnd_idempotent (p : ascii -> bool) (s : string) :
  dropWhileEnd p (dropWhileEnd p s) = dropWhileEnd p s.
Proof.
  induction s as [|c s IH]; [reflexivity|].
  cbn [dropWhileEnd].
  destruct (isEmpty (dropWhileEnd p s) && p c) eqn:Hdrop; [reflexivity|].
  cbn [dropWhileEnd]. now rewrite IH, Hdrop.
Qed.

Lemma dropWhile_head (p : ascii -> bool) (s : string) :
  dropWhile p s = EmptyString
  \/ exists c r, dropWhile p s = String c r /\ p c = false.
Proof.
  induction s as [|c s IH]; [now left|].
  cbn [dropWhile]. destruct (p c) eqn:Hc; [exact IH|].
  right. now exists c, s.
Qed.

Lemma trim_idempotent (s : string) : trim (trim s) = trim s.
Proof.
  unfold trim.
  destruct (dropWhile_head isWhitespace s) as [Heq|(c & r & Heq & Hc)];
    rewrite Heq; [reflexivity|].
  rewrite (dropWhileEnd_keeps_head _ _ _ Hc).
  cbn [dropWhile]. rewrite Hc.
  rewrite (dropWhileEnd_keeps_head _ _ _ Hc).
  now rewrite dropWhileEnd_idempotent.
Qed.

(** ** The segmenter *)

Lemma pushSegment_app (pre segs : list string) (cur : string) :
  pushSegment (pre ++ segs) cur = pre ++ pushSegment segs cur.
Proof.
  unfold pushSegment. destruct (isEmpty (trim cur)); [reflexivity|].
  now rewrite app_assoc.
Qed.

Lemma splitLoop_app (s : string) :
  forall (pre segs : list string) cur quote escaped,
    splitLoop s (pre ++ segs) cur quote escaped
    = pre ++ splitLoop s segs cur quote escaped.
Proof.
  induction s as [|ch s IH]; intros pre segs cur quote escaped;
    cbn [splitLoop].
  - apply pushSegment_app.
  - destruct escaped; [apply IH|].
    destruct (Ascii.eqb ch backslash); [apply IH|].
    destruct quote as [q|]; [apply IH|].
    destruct (isQuoteChar ch); [apply IH|].
    destruct (isSegmentDelimiter ch); [|apply IH].
    rewrite pushSegment_app. apply IH.
Qed.

(** X. Every segment is non-empty and already trimmed: blank pieces
    between delimiters are dropped and no segment starts or ends with
    whitespace. *)
Theorem segments_trimmed_nonblank (command segment : string) :
  In segment (splitShellSegments command) ->
  segment <> "" /\ trim segment = segment.
Proof.
  unfold splitShellSegments.
  set (ok := fun seg : string => seg <> "" /\ trim seg = seg).
  assert (Hpush : forall segs cur,
             Forall ok segs -> Forall ok (pushSegment segs cur)).
  { intros segs cur Hsegs. unfold pushSegment.
    destruct (trim cur) as [|c t] eqn:Ht; [exact Hsegs|].
    apply Forall_app. split; [exact Hsegs|].
    repeat constructor; [discriminate|].
    rewrite <- Ht. apply trim_idempotent. }
  assert (G : forall s segs cur quote escaped,
             Forall ok segs -> Forall ok (splitLoop s segs cur quote escaped)).
  { induction s as [|ch s IH]; intros segs cur quote escaped Hsegs;
      cbn [splitLoop].
    - now apply Hpush.
    - destruct escaped; [now apply IH|].
      destruct (Ascii.eqb ch backslash); [now apply IH|].
      destruct quote as [q|]; [now apply IH|].
      destruct (isQuoteChar ch); [now apply IH|].
      destruct (isSegmentDelimiter ch); [|now apply IH].
      apply IH. now apply Hpush. }
  intros Hin. specialize (G command [] "" None false (Forall_nil _)).
  rewrite Forall_forall in G. exact (G segment Hin).
Qed.

Lemma segments_trimmed_nonblank_witness :
  Forall (fun segment => segment <> "" /\ trim segment = segment)
         (splitShellSegments "  ls -l ;; | echo 'a ; b'  &  ").
Proof.
  apply Forall_forall. intros segment Hin.
  exact (segments_trimmed_nonblank _ segment Hin).
Defined.

Lemma isSegmentDelimiter_cases (d : ascii) :
  isSegmentDelimiter d = true ->
  d = ";"%char \/ d = "|"%char \/ d = "&"%char \/ d = newline.
Proof.
  unfold isSegmentDelimiter. rewrite !orb_true_iff, !Ascii.eqb_eq. tauto.
Qed.

Lemma splitLoop_delimiter (d : ascii) (s : string) segs cur :
  isSegmentDelimiter d = true ->
  splitLoop (String d s) segs cur None false
  = splitLoop s (pushSegment segs cur) "" None false.
Proof.
  intros Hd. cbn [splitLoop]. rewrite Hd.
  destruct (isSegmentDelimiter_cases d Hd) as [Hd'|[Hd'|[Hd'|Hd']]];
    subst d; reflexivity.
Qed.

(** Outside quotes, text without quotes or backslashes leaves the
    segmenter outside quotes, so what follows is read afresh. *)
Lemma splitLoop_unquoted (a : string) :
  allChars isUnquotedChar a = true ->
  forall d b segs cur,
    isSegmentDelimiter d = true ->
    splitLoop (a ++ String d b) segs cur None false
    = splitLoop b (splitLoop a segs cur None false) "" None false.
Proof.
  induction a as [|c a IH]; intros Ha d b segs cur Hd.
  - cbn [append]. rewrite (splitLoop_delimiter d b segs cur Hd). reflexivity.
  - cbn [allChars] in Ha. apply andb_true_iff in Ha as [Hc Ha].
    unfold isUnquotedChar in Hc.
    apply negb_true_iff, orb_false_iff in Hc as [Hq Hb].
    cbn [append splitLoop]. rewrite Hb, Hq.
    destruct (isSegmentDelimiter c); now apply IH.
Qed.

Lemma splitShellSegments_delimiter (a b : string) (d : ascii) :
  allChars isUnquotedChar a = true ->
  isSegmentDelimiter d = true ->
  splitShellSegments (a ++ String d b)
  = splitShellSegments a ++ splitShellSegments b.
Proof.
  intros Ha Hd. unfold splitShellSegments.
  rewrite (splitLoop_unquoted a Ha d b [] "" Hd).
  rewrite <- (app_nil_r (splitLoop a [] "" None false)) at 1.
  apply splitLoop_app.
Qed.

Lemma splitLoop_plain (w : string) :
  allChars isPlainChar w = true ->
  forall s segs cur,
    splitLoop (w ++ s) segs cur None false
    = splitLoop s segs (cur ++ w) None false.
Proof.
  induction w as [|c w IH]; intros Hw s segs cur.
  - simpl. now rewrite append_empty_r.
  - cbn [allChars] in Hw. apply andb_true_iff in Hw as [Hc Hw].
    apply isPlainChar_spec in Hc as (_ & Hq & Hb & Hd).
    cbn [append splitLoop]. rewrite Hb, Hq, Hd.
    rewrite (IH Hw). now rewrite append_chr_assoc.
Qed.

(** Inside quotes everything up to the closing quote is copied, the
    delimiters too. *)
Lemma splitLoop_quoted (q : ascii) (body : string) :
  allChars (fun c => negb (Ascii.eqb c q || Ascii.eqb c backslash)) body
  = true ->
  Ascii.eqb q backslash = false ->
  forall rest segs cur,
    splitLoop (body ++ String q rest) segs cur (Some q) false
    = splitLoop rest segs (cur ++ body ++ chr q) None false.
Proof.
  intros Hbody Hq. induction body as [|c body IH]; intros rest segs cur.
  - cbn [append splitLoop]. now rewrite Hq, Ascii.eqb_refl.
  - cbn [allChars] in Hbody. apply andb_true_iff in Hbody as [Hc Hbody].
    apply negb_true_iff, orb_false_iff in Hc as [Hcq Hcb].
    cbn [append splitLoop]. rewrite Hcb, Hcq.
    rewrite (IH Hbody). now rewrite append_chr_assoc.
Qed.

Lemma dropWhileEnd_ends (p : ascii -> bool) (x : string) (c : ascii) :
  p c = false -> dropWhileEnd p (x ++ chr c) = (x ++ chr c)%string.
Proof.
  intros Hc. induction x as [|d x IH].
  - cbn. now rewrite Hc.
  - cbn [append dropWhileEnd]. rewrite IH.
    now rewrite isEmpty_append, andb_false_r.
Qed.

(** X. Delimiters inside quotes cut nothing: a plain word, a space and a
    quoted text form one segment, whatever the quoted text holds apart
    from its own quote character and backslashes. *)
Theorem quoted_text_is_one_segment (w body : string) (q : ascii) :
  isPlainToken w = true ->
  isQuoteChar q = true ->
  allChars (fun c => negb (Ascii.eqb c q || Ascii.eqb c backslash)) body
  = true ->
  let command := (w ++ String " " (String q (body ++ chr q)))%string in
  splitShellSegments command = [command].
Proof.
  intros Hw Hq Hbody command.
  apply isPlainToken_spec in Hw as [Hne Hall].
  assert (Hqb : Ascii.eqb q backslash = false).
  { unfold isQuoteChar in Hq. apply orb_true_iff in Hq as [Hq|Hq];
      apply Ascii.eqb_eq in Hq; subst q; reflexivity. }
  assert (Hqw : isWhitespace q = false).
  { unfold isQuoteChar in Hq. apply orb_true_iff in Hq as [Hq|Hq];
      apply Ascii.eqb_eq in Hq; subst q; reflexivity. }
  unfold splitShellSegments. subst command.
  rewrite (splitLoop_plain w Hall). cbn [append].
  change (splitLoop (String " " (String q (body ++ chr q))) [] w None false)
    with (splitLoop (String q (body ++ chr q)) [] (w ++ chr " ") None false).
  cbn [splitLoop]. rewrite Hqb, Hq.
  rewrite <- (append_empty_r (body ++ chr q)) at 1.
  rewrite append_assoc. cbn [chr append].
  rewrite (splitLoop_quoted q body Hbody Hqb).
  cbn [splitLoop]. unfold pushSegment.
  set (text := (((w ++ chr " ") ++ chr q) ++ body ++ chr q)%string).
  assert (Htext : text = (w ++ String " " (String q (body ++ chr q)))%string).
  { subst text. rewrite !append_chr_assoc. reflexivity. }
  assert (Htrim : trim text = text).
  { unfold trim.
    assert (Hhead : dropWhile isWhitespace text = text).
    { rewrite Htext. destruct w as [|c w]; [discriminate|].
      cbn [allChars] in Hall. apply andb_true_iff in Hall as [Hc _].
      apply isPlainChar_spec in Hc as (Hws & _).
      cbn [append dropWhile]. now rewrite Hws. }
    rewrite Hhead. subst text. rewrite <- append_assoc.
    now apply dropWhileEnd_ends. }
  rewrite Htrim.
  assert (Hnonempty : isEmpty text = false).
  { rewrite Htext. destruct w; [discriminate|reflexivity]. }
  rewrite Hnonempty, Htext. reflexivity.
Qed.

Lemma quoted_text_is_one_segment_witness :
  splitShellSegments "echo 'a;b | c & d'" = ["echo 'a;b | c & d'"].
Proof.
  apply (quoted_text_is_one_segment "echo" "a;b | c & d" "'"%char);
    reflexivity.
Defined.

(** ** The normalizer *)

Lemma skipEnvAssignments_suffix (l : list string) :
  exists pre, l = pre ++ skipEnvAssignments l.
Proof.
  induction l as [|a l [pre IH]]; [now exists []|].
  cbn [skipEnvAssignments]. destruct (isEnvAssignment a).
  - exists (a :: pre). simpl. now f_equal.
  - now exists [].
Qed.

Lemma skipEnvAssignments_head (l : list string) t rest :
  skipEnvAssignments l = t :: rest -> isEnvAssignment t = false.
Proof.
  induction l as [|a l IH]; [discriminate|].
  cbn [skipEnvAssignments]. destruct (isEnvAssignment a) eqn:Ha; [exact IH|].
  intros Heq. injection Heq as <- _. exact Ha.
Qed.

Lemma skip_suffix_by_length (skip : list string -> list string) :
  (forall a l, skip (a :: l) = a :: l
               \/ skip (a :: l) = skip l
               \/ exists v l', l = v :: l' /\ skip (a :: l) = skip l') ->
  skip [] = [] ->
  forall l, exists pre, l = pre ++ skip l.
Proof.
  intros Hstep Hnil.
  assert (G : forall n l, (length l <= n)%nat -> exists pre, l = pre ++ skip l).
  { induction n as [|n IH]; intros [|a l] Hn; simpl in Hn;
      try (exists []; now rewrite Hnil); try lia.
    destruct (Hstep a l) as [Heq|[Heq|(v & l' & Hl & Heq)]]; rewrite Heq.
    - now exists [].
    - destruct (IH l ltac:(lia)) as [pre Hpre].
      exists (a :: pre). simpl. now f_equal.
    - subst l. simpl in Hn. destruct (IH l' ltac:(lia)) as [pre Hpre].
      exists (a :: v :: pre). simpl. now do 2 f_equal. }
  intros l. now apply (G (length l)).
Qed.

Lemma skipEnvArguments_suffix (l : list string) :
  exists pre, l = pre ++ skipEnvArguments l.
Proof.
  apply skip_suffix_by_length; [|reflexivity].
  intros a l'. cbn [skipEnvArguments].
  destruct (isEnvAssignment a); [now right; left|].
  destruct (startsWith "-" a); [|now left].
  destruct (String.eqb a "-u" || String.eqb a "--unset"); [|now right; left].
  destruct l' as [|v l''].
  - right; left. reflexivity.
  - right; right. now exists v, l''.
Qed.

Lemma skipSudoOptions_suffix (l : list string) :
  exists pre, l = pre ++ skipSudoOptions l.
Proof.
  apply skip_suffix_by_length; [|reflexivity].
  intros a l'. cbn [skipSudoOptions].
  destruct (startsWith "-" a); [|now left].
  destruct (set_has (normalizeCommandName a) SUDO_OPTIONS_WITH_VALUE);
    [|now right; left].
  destruct l' as [|v l''].
  - right; left. reflexivity.
  - right; right. now exists v, l''.
Qed.

Lemma skipDashOptions_suffix (l : list string) :
  exists pre, l = pre ++ skipDashOptions l.
Proof.
  apply skip_suffix_by_length; [|reflexivity].
  intros a l'. cbn [skipDashOptions].
  destruct (startsWith "-" a); [now right; left|now left].
Qed.

(** X. What the normalizer answers is empty, or it is a tail of the
    input tokens whose first token, not an environment assignment, is
    replaced by its command name; and that command name is never one of
    the wrappers [env], [sudo], [command], [nohup], [time]. *)
Theorem normalize_effective_command (tokens : list string) :
  normalizeInvocationTokens tokens = []
  \/ exists pre t rest,
       tokens = pre ++ t :: rest
       /\ normalizeInvocationTokens tokens = normalizeCommandName t :: rest
       /\ ~ In (normalizeCommandName t) WRAPPER_NAMES
       /\ isEnvAssignment t = false.
Proof.
  remember (length tokens) as n eqn:Hn. revert tokens Hn.
  induction n as [n IH] using lt_wf_ind. intros tokens ->.
  rewrite normalizeInvocationTokens_step.
  destruct (skipEnvAssignments_suffix tokens) as [pre0 Hpre0].
  destruct (skipEnvAssignments tokens) as [|t rest] eqn:Hskip; [now left|].
  pose proof (skipEnvAssignments_head _ _ _ Hskip) as Ht.
  assert (Hlen : length tokens = (length pre0 + S (length rest))%nat).
  { rewrite Hpre0 at 1. rewrite length_app. reflexivity. }
  assert (Hrec : forall skipped,
             (exists pre, rest = pre ++ skipped) ->
             normalizeInvocationTokens skipped = []
             \/ exists pre t' rest',
                  tokens = pre ++ t' :: rest'
                  /\ normalizeInvocationTokens skipped
                     = normalizeCommandName t' :: rest'
                  /\ ~ In (normalizeCommandName t') WRAPPER_NAMES
                  /\ isEnvAssignment t' = false).
  { intros skipped [pre1 Hpre1].
    assert (Hshort : (length skipped < length tokens)%nat).
    { rewrite Hlen, Hpre1, length_app. lia. }
    destruct (IH _ Hshort skipped eq_refl)
      as [Hnil|(pre & t' & rest' & Heq & Hnorm & Hw & Ha)]; [now left|].
    right. exists (pre0 ++ t :: pre1 ++ pre), t', rest'.
    split; [|now split].
    rewrite Hpre0 at 1. rewrite Hpre1, Heq.
    rewrite <- !app_assoc. simpl. now rewrite <- app_assoc. }
  cbn [normalizeRound]. cbv zeta.
  destruct (String.eqb_spec (normalizeCommandName t) "env") as [|Henv];
    [apply Hrec, skipEnvArguments_suffix|].
  destruct (String.eqb_spec (normalizeCommandName t) "sudo") as [|Hsudo];
    [apply Hrec, skipSudoOptions_suffix|].
  destruct (String.eqb_spec (normalizeCommandName t) "command") as [|Hcmd];
    [apply Hrec, skipDashOptions_suffix|].
  destruct (String.eqb_spec (normalizeCommandName t) "nohup") as [|Hnohup];
    [apply Hrec, skipDashOptions_suffix|].
  destruct (String.eqb_spec (normalizeCommandName t) "time") as [|Htime];
    [apply Hrec, skipDashOptions_suffix|].
  cbn [orb]. right. exists pre0, t, rest.
  split; [exact Hpre0|]. split; [reflexivity|]. split; [|exact Ht].
  unfold WRAPPER_NAMES. simpl. intuition congruence.
Qed.

(** X. A wrapper in front of a segment changes nothing of its verdict:
    when the first word of the segment is not an option, the loop body
    does with [sudo], [command], [nohup] or [time] and a space in front
    exactly what it does without; the same holds for [env] when that first
    word is not an assignment either. *)
Theorem wrapper_prefix_same_verdict
    (sbr spr pbr ppr : list PrefixRule) (blocked : list BlockedInvocation)
    (w segment t : string) (rest : list string) :
  tokenizeShellWords segment = t :: rest ->
  startsWith "-" t = false ->
  In w ["sudo"; "command"; "nohup"; "time"]
  \/ (w = "env" /\ isEnvAssignment t = false) ->
  guardSegment sbr spr pbr ppr blocked (w ++ String " " segment)
  = guardSegment sbr spr pbr ppr blocked segment.
Proof.
  intros Htok Hdash Hw. unfold guardSegment.
  assert (Hnorm : normalizeInvocationTokens
                    (tokenizeShellWords (w ++ String " " segment))
                  = normalizeInvocationTokens (tokenizeShellWords segment)).
  { destruct Hw as [[<-|Hplain]|[-> Hassign]].
    - rewrite tokenize_word_space by reflexivity. rewrite Htok.
      rewrite normalize_sudo. cbn [skipSudoOptions]. now rewrite Hdash.
    - assert (Hword : isPlainToken w = true)
        by (destruct Hplain as [<-|[<-|[<-|[]]]]; reflexivity).
      rewrite (tokenize_word_space _ _ Hword), Htok.
      rewrite (normalize_plain_wrapper w _ Hplain).
      cbn [skipDashOptions]. now rewrite Hdash.
    - rewrite tokenize_word_space by reflexivity. rewrite Htok.
      rewrite normalize_env. cbn [skipEnvArguments].
      now rewrite Hassign, Hdash. }
  now rewrite Hnorm.
Qed.

Lemma wrapper_prefix_same_verdict_witness :
  guardSegment [] [] (buildRules ["kubectl"]) [] [] "sudo kubectl get pods"
  = guardSegment [] [] (buildRules ["kubectl"]) [] [] "kubectl get pods"
  /\ guardSegment [] [] (buildRules ["kubectl"]) [] [] "env kubectl get pods"
     = guardSegment [] [] (buildRules ["kubectl"]) [] [] "kubectl get pods".
Proof.
  split.
  - apply (wrapper_prefix_same_verdict [] [] (buildRules ["kubectl"]) [] []
             "sudo" "kubectl get pods" "kubectl" ["get"; "pods"]);
      [reflexivity|reflexivity|left; simpl; auto].
  - apply (wrapper_prefix_same_verdict [] [] (buildRules ["kubectl"]) [] []
             "env" "kubectl get pods" "kubectl" ["get"; "pods"]);
      [reflexivity|reflexivity|right; split; reflexivity].
Defined.

(** ** The matcher and the decision *)

(** X. Rules that match one invocation are nested.  If [R] matches [I],
    then every rule that matches the token list of [R] matches [I]; a rule
    that matches [I] and is no longer than [R] matches the token list of
    [R]; and a rule that matches [I] with the length of [R] has the very
    tokens of [R]. *)
Theorem matching_rules_nested (I R R' : list string) :
  isPrefixMatch I R = true ->
  (isPrefixMatch R R' = true -> isPrefixMatch I R' = true)
  /\ (isPrefixMatch I R' = true -> (length R' <= length R)%nat ->
      isPrefixMatch R R' = true)
  /\ (isPrefixMatch I R' = true -> length R' = length R -> R' = R).
Proof.
  intros HR. apply isPrefixMatch_iff in HR as (HRpos & HRle & HReq).
  assert (Hnest : forall n, (n <= length R)%nat -> firstn n R = firstn n I).
  { intros n Hn. rewrite <- HReq, firstn_firstn.
    now rewrite Nat.min_l by exact Hn. }
  split; [|split].
  - intros H'. apply isPrefixMatch_iff in H' as (Hpos & Hle & Heq).
    apply isPrefixMatch_iff. split; [exact Hpos|]. split; [lia|].
    now rewrite <- (Hnest _ Hle).
  - intros H' Hle. apply isPrefixMatch_iff in H' as (Hpos & _ & Heq).
    apply isPrefixMatch_iff. split; [exact Hpos|]. split; [exact Hle|].
    now rewrite (Hnest _ Hle).
  - intros H' Hlen. apply isPrefixMatch_iff in H' as (_ & _ & Heq).
    rewrite <- Heq, <- HReq. now rewrite Hlen.
Qed.

Lemma matching_rules_nested_witness :
  isPrefixMatch ["kubectl"; "get"; "pods"; "-A"] ["kubectl"] = true
  /\ isPrefixMatch ["kubectl"; "get"] ["kubectl"] = true.
Proof.
  pose proof (matching_rules_nested
                ["kubectl"; "get"; "pods"; "-A"] ["kubectl"; "get"]
                ["kubectl"] eq_refl) as (Hdown & Hup & _).
  split; [exact (Hdown eq_refl)|].
  apply Hup; [exact (Hdown eq_refl)|simpl; lia].
Defined.

Lemma decideLayer_no_blocks (permitMatches : list PrefixRule) :
  action (decideLayer permitMatches []) <> Block.
Proof.
  unfold decideLayer. change (maxTokenCount []) with (-1)%Z.
  destruct (maxTokenCount permitMatches <? 0)%Z eqn:Hneg;
    cbn [andb]; [discriminate|].
  apply Z.ltb_ge in Hneg.
  destruct (maxTokenCount permitMatches >=? -1)%Z eqn:Hge; [discriminate|].
  rewrite Z.geb_leb in Hge. apply Z.leb_gt in Hge. lia.
Qed.

(** X. Permit rules alone block nothing: when both block sets are empty
    no command is blocked, whatever the permit sets hold. *)
Theorem permits_alone_never_block (input : string) (pp sp : list string) :
  findBlockedInvocations input [] pp [] sp = [].
Proof.
  unfold findBlockedInvocations.
  rewrite (fold_left_push _ _ (guardSegment_push _ _ _ _)). simpl.
  induction (splitShellSegments input) as [|segment segments IH];
    [reflexivity|].
  cbn [flat_map]. rewrite IH, app_nil_r.
  unfold guardSegment.
  destruct (normalizeInvocationTokens (tokenizeShellWords segment))
    as [|t rest]; [reflexivity|].
  change (buildRules []) with (@nil PrefixRule).
  change (matchingRules (t :: rest) []) with (@nil PrefixRule).
  pose proof (decideLayer_no_blocks (matchingRules (t :: rest) (buildRules sp)))
    as Hsession.
  pose proof (decideLayer_no_blocks (matchingRules (t :: rest) (buildRules pp)))
    as Hpersistent.
  destruct (action (decideLayer (matchingRules (t :: rest) (buildRules sp)) []));
    try reflexivity; [now contradiction Hsession|].
  destruct (action (decideLayer (matchingRules (t :: rest) (buildRules pp)) []));
    try reflexivity. now contradiction Hpersistent.
Qed.

(** X. The verdict of a command is the verdicts of its parts: across a
    delimiter that follows text free of quotes and backslashes, the
    blocked list is the blocked list of the text before the delimiter
    followed by that of the text after it. *)
Theorem blocked_list_splits_at_delimiter
    (a b : string) (d : ascii) (pb pp sb sp : list string) :
  allChars isUnquotedChar a = true ->
  isSegmentDelimiter d = true ->
  findBlockedInvocations (a ++ String d b) pb pp sb sp
  = findBlockedInvocations a pb pp sb sp
    ++ findBlockedInvocations b pb pp sb sp.
Proof.
  intros Ha Hd. unfold findBlockedInvocations.
  rewrite (splitShellSegments_delimiter a b d Ha Hd), fold_left_app.
  rewrite (fold_left_push _ _ (guardSegment_push _ _ _ _)
             (splitShellSegments b)).
  rewrite (fold_left_push _ _ (guardSegment_push _ _ _ _)
             (splitShellSegments b) []).
  reflexivity.
Qed.

Lemma blocked_list_splits_at_delimiter_witness :
  findBlockedInvocations ("gcloud info" ++ String ";" " sudo kubectl get")
    ["gcloud"; "kubectl"] [] [] []
  = findBlockedInvocations "gcloud info" ["gcloud"; "kubectl"] [] [] []
    ++ findBlockedInvocations " sudo kubectl get"
         ["gcloud"; "kubectl"] [] [] [].
Proof.
  apply blocked_list_splits_at_delimiter; reflexivity.
Defined.

(** ** Rules made of plain words *)

Lemma plain_token_head (t : string) :
  isPlainToken t = true ->
  exists c r, t = String c r /\ isWhitespace c = false.
Proof.
  intros Ht. apply isPlainToken_spec in Ht as [Hne Hall].
  destruct t as [|c r]; [discriminate|].
  cbn [allChars] in Hall. apply andb_true_iff in Hall as [Hc _].
  apply isPlainChar_spec in Hc as (Hws & _). now exists c, r.
Qed.

Lemma plain_token_last (t : string) :
  isPlainToken t = true ->
  exists x e, t = (x ++ chr e)%string /\ isWhitespace e = false.
Proof.
  intros Ht. apply isPlainToken_spec in Ht as [Hne Hall].
  induction t as [|c t IH]; [discriminate|].
  cbn [allChars] in Hall. apply andb_true_iff in Hall as [Hc Hall].
  destruct t as [|c' t'].
  - exists "", c. split; [reflexivity|].
    now apply isPlainChar_spec in Hc as (Hws & _).
  - destruct (IH eq_refl Hall) as (x & e & Heq & He).
    exists (String c x), e. split; [|exact He]. cbn [append]. now rewrite Heq.
Qed.

Lemma join_plain_last (words : list string) :
  Forall (fun w => isPlainToken w = true) words -> words <> [] ->
  exists x e, join " " words = (x ++ chr e)%string /\ isWhitespace e = false.
Proof.
  induction 1 as [|w words Hw Hwords IH]; [congruence|]. intros _.
  destruct words as [|w' words']; [now apply plain_token_last|].
  destruct (IH ltac:(discriminate)) as (x & e & Heq & He).
  exists (w ++ " " ++ x)%string, e. split; [|exact He].
  rewrite join_cons by discriminate. rewrite Heq.
  now rewrite !append_assoc.
Qed.

Lemma trim_join_plain (words : list string) :
  Forall (fun w => isPlainToken w = true) words -> words <> [] ->
  trim (join " " words) = join " " words
  /\ isEmpty (join " " words) = false.
Proof.
  intros Hwords Hne.
  destruct (join_plain_last words Hwords Hne) as (x & e & Hlast & He).
  destruct words as [|w words']; [congruence|].
  inversion Hwords as [|? ? Hw Hrest]; subst.
  destruct (plain_token_head w Hw) as (c & r & -> & Hc).
  assert (Hhead : exists tail, join " " (String c r :: words') = String c tail).
  { destruct words' as [|w' words''].
    - now exists r.
    - rewrite join_cons by discriminate. cbn [append]. now eexists. }
  destruct Hhead as [tail Hhead]. split.
  - unfold trim.
    assert (Hdrop : dropWhile isWhitespace (join " " (String c r :: words'))
                    = join " " (String c r :: words')).
    { rewrite Hhead. cbn [dropWhile]. now rewrite Hc. }
    rewrite Hdrop, Hlast. now apply dropWhileEnd_ends.
  - now rewrite Hhead.
Qed.

(** The rule that [buildRules] makes of a prefix that is plain words,
    already normal, joined by single spaces. *)
Lemma buildRule_plain (words : list string) :
  Forall (fun w => isPlainToken w = true) words -> words <> [] ->
  normalizeInvocationTokens words = words ->
  canonicalizePrefix (join " " words) = Some (join " " words)
  /\ buildRule [] (join " " words)
     = [ {| prefix := join " " words;
            tokens := words;
            tokenCount := Z.of_nat (length words) |} ].
Proof.
  intros Hwords Hne Hnormal.
  destruct (trim_join_plain words Hwords Hne) as [Htrim Hnonempty].
  assert (Hcanon : canonicalizePrefix (join " " words)
                   = Some (join " " words)).
  { unfold canonicalizePrefix.
    rewrite Htrim, (tokenize_join_plain words Hwords), Hnormal.
    destruct words; [congruence|reflexivity]. }
  split; [exact Hcanon|].
  unfold buildRule. rewrite Hcanon, Hnonempty.
  now rewrite (tokenize_join_plain words Hwords).
Qed.

(** X. Rule compilation keeps the normalized tokens of a raw prefix
    whenever those tokens are plain words: the compiled rule holds exactly
    them, their number, and their join by single spaces. *)
Theorem compiled_rule_keeps_plain_tokens (raw : string) :
  let words := normalizeInvocationTokens (tokenizeShellWords (trim raw)) in
  words <> [] ->
  Forall (fun w => isPlainToken w = true) words ->
  buildRules [raw]
  = [ {| prefix := join " " words;
         tokens := words;
         tokenCount := Z.of_nat (length words) |} ].
Proof.
  intros words Hne Hwords.
  destruct (trim_join_plain words Hwords Hne) as [_ Hnonempty].
  rewrite buildRules_flat_map. cbn [flat_map]. rewrite app_nil_r.
  unfold buildRule, canonicalizePrefix. fold words.
  destruct words as [|w words'] eqn:Hw; [congruence|].
  rewrite Hnonempty.
  now rewrite (tokenize_join_plain _ Hwords).
Qed.

Lemma compiled_rule_keeps_plain_tokens_witness :
  buildRules ["  sudo -u root /usr/bin/Kubectl.exe -n 'staging'  "]
  = [ {| prefix := "kubectl -n staging";
         tokens := ["kubectl"; "-n"; "staging"];
         tokenCount := 3 |} ].
Proof.
  refine (compiled_rule_keeps_plain_tokens
            "  sudo -u root /usr/bin/Kubectl.exe -n 'staging'  " _ _).
  - vm_compute. discriminate.
  - vm_compute. repeat constructor.
Defined.

Lemma isPrefixMatch_extended (words extra : list string) :
  words <> [] -> isPrefixMatch (words ++ extra) words = true.
Proof.
  intros Hne. apply isPrefixMatch_iff.
  split; [destruct words; [congruence|simpl; lia]|].
  split; [rewrite length_app; lia|].
  rewrite firstn_app, Nat.sub_diag, firstn_all. simpl. apply app_nil_r.
Qed.

Lemma matching_count_le (inv prefixes : list string) (r : PrefixRule) :
  In r (matchingRules inv (buildRules prefixes)) ->
  (tokenCount r <= Z.of_nat (length inv))%Z.
Proof.
  intros Hr. apply filter_In in Hr as [Hr Hmatch].
  rewrite (buildRules_tokenCount _ _ Hr).
  apply isPrefixMatch_iff in Hmatch as (_ & Hle & _). lia.
Qed.

Lemma maxTokenCount_le (rules : list PrefixRule) (bound : Z) :
  (-1 <= bound)%Z ->
  (forall r, In r rules -> (tokenCount r <= bound)%Z) ->
  (maxTokenCount rules <= bound)%Z.
Proof.
  intros Hb Hall. pose proof (maxTokenCount_greatest rules) as Hg.
  destruct rules as [|r rules]; [simpl in Hg; lia|].
  destruct Hg as [(r' & Hin & <-) _]. now apply Hall.
Qed.

Lemma maxTokenCount_ge (rules : list PrefixRule) (r : PrefixRule) :
  In r rules -> (tokenCount r <= maxTokenCount rules)%Z.
Proof.
  intros Hr. pose proof (maxTokenCount_greatest rules) as Hg.
  destruct rules as [|r0 rules]; [destruct Hr|].
  destruct Hg as [_ Hub]. now apply Hub.
Qed.

Lemma buildRules_member (prefixes : list string) (p : string) (r : PrefixRule) :
  In p prefixes -> buildRule [] p = [r] -> In r (buildRules prefixes).
Proof.
  intros Hp Hr. rewrite buildRules_flat_map. apply in_flat_map.
  exists p. split; [exact Hp|]. rewrite Hr. now left.
Qed.

Lemma argPrefix_plain (raw : string) :
  let words := normalizeInvocationTokens (tokenizeShellWords (trim raw)) in
  words <> [] ->
  Forall (fun w => isPlainToken w = true) words ->
  argPrefix (Some raw) = Some (join " " words).
Proof.
  intros words Hne Hwords.
  destruct (trim_join_plain words Hwords Hne) as [_ Hnonempty].
  unfold argPrefix, canonicalizePrefix. fold words.
  destruct words as [|w words'] eqn:Hw; [congruence|].
  cbn [truthy]. now rewrite Hnonempty.
Qed.

(** X. A session permit lets its own command through.  After
    [/bash-guard-permit] with a prefix of plain, already normal words, a
    segment whose invocation is exactly those words adds nothing to the
    blocked list, whatever the four sets held before; and when the session
    held no block rule, neither does a segment whose invocation starts
    with those words.  The persistent rules play no part. *)
Theorem session_permit_allows
    (st : GuardState) (raw segment : string) (extra : list string)
    (pbr ppr : list PrefixRule) (blocked : list BlockedInvocation) :
  let words := normalizeInvocationTokens (tokenizeShellWords (trim raw)) in
  let st' := fst (permitSession (Some raw) st) in
  words <> [] ->
  Forall (fun w => isPlainToken w = true) words ->
  normalizeInvocationTokens words = words ->
  normalizeInvocationTokens (tokenizeShellWords segment) = words ++ extra ->
  extra = [] \/ sessionBlockedPrefixes st = [] ->
  guardSegment (buildRules (sessionBlockedPrefixes st'))
               (buildRules (sessionPermitPrefixes st'))
               pbr ppr blocked segment
  = blocked.
Proof.
  intros words st' Hne Hwords Hnormal Hinv Hcase.
  destruct (buildRule_plain words Hwords Hne Hnormal) as [_ Hrule].
  set (p := join " " words) in *.
  set (rule := {| prefix := p; tokens := words;
                  tokenCount := Z.of_nat (length words) |}) in *.
  assert (Hst' : sessionBlockedPrefixes st'
                 = set_delete p (sessionBlockedPrefixes st)
                 /\ sessionPermitPrefixes st'
                    = set_add p (sessionPermitPrefixes st)).
  { subst st'. unfold permitSession.
    rewrite (argPrefix_plain raw Hne Hwords). now split. }
  destruct Hst' as [-> ->].
  unfold guardSegment. rewrite Hinv.
  destruct (words ++ extra) as [|t rest] eqn:Hwe;
    [destruct words; [congruence|discriminate]|].
  rewrite <- Hwe.
  set (permits := matchingRules (words ++ extra) _).
  set (blocks := matchingRules (words ++ extra) _).
  assert (Hpermit : (Z.of_nat (length words) <= maxTokenCount permits)%Z).
  { apply (maxTokenCount_ge permits rule). apply filter_In. split.
    - apply (buildRules_member _ p); [|exact Hrule].
      apply set_add_In. now left.
    - now apply isPrefixMatch_extended. }
  assert (Hblock : (maxTokenCount blocks <= Z.of_nat (length words))%Z).
  { destruct Hcase as [->|Hnone].
    - apply maxTokenCount_le; [lia|]. intros r Hr.
      apply matching_count_le in Hr. now rewrite app_nil_r in Hr.
    - subst blocks. rewrite Hnone. cbn. lia. }
  assert (Hpos : (0 < Z.of_nat (length words))%Z)
    by (destruct words; [congruence|simpl; lia]).
  unfold decideLayer.
  destruct (maxTokenCount permits <? 0)%Z eqn:Hneg;
    [apply Z.ltb_lt in Hneg; lia|]. cbn [andb].
  destruct (maxTokenCount permits >=? maxTokenCount blocks)%Z eqn:Hge;
    [reflexivity|].
  rewrite Z.geb_leb in Hge. apply Z.leb_gt in Hge. lia.
Qed.

Lemma session_permit_allows_witness :
  let st' := fst (permitSession (Some "sudo kubectl -n staging") sampleState) in
  guardSegment (buildRules (sessionBlockedPrefixes st'))
               (buildRules (sessionPermitPrefixes st'))
               (buildRules ["kubectl"]) [] [] "kubectl -n staging"
  = [].
Proof.
  refine (session_permit_allows sampleState "sudo kubectl -n staging"
            "kubectl -n staging" [] (buildRules ["kubectl"]) [] [] _ _ _ _ _).
  - vm_compute. discriminate.
  - vm_compute. repeat constructor.
  - reflexivity.
  - reflexivity.
  - now left.
Defined.

(** X. A session block stops its own command.  In a session that holds
    no rule yet, after [/bash-guard-block] with a prefix of plain, already
    normal words, every segment whose invocation starts with those words
    is recorded as blocked, with that prefix as the only matched block,
    whatever the persistent rules hold. *)
Theorem session_block_blocks
    (st : GuardState) (raw segment : string) (extra : list string)
    (pbr ppr : list PrefixRule) (blocked : list BlockedInvocation) :
  let words := normalizeInvocationTokens (tokenizeShellWords (trim raw)) in
  let st' := fst (blockSession (Some raw) st) in
  words <> [] ->
  Forall (fun w => isPlainToken w = true) words ->
  normalizeInvocationTokens words = words ->
  normalizeInvocationTokens (tokenizeShellWords segment) = words ++ extra ->
  sessionBlockedPrefixes st = [] ->
  sessionPermitPrefixes st = [] ->
  guardSegment (buildRules (sessionBlockedPrefixes st'))
               (buildRules (sessionPermitPrefixes st'))
               pbr ppr blocked segment
  = blocked ++ [ {| invocation := join " " (words ++ extra);
                    matchedBlocks := [join " " words] |} ].
Proof.
  intros words st' Hne Hwords Hnormal Hinv Hsb Hsp.
  destruct (buildRule_plain words Hwords Hne Hnormal) as [_ Hrule].
  set (p := join " " words) in *.
  assert (Hst' : sessionBlockedPrefixes st' = [p]
                 /\ sessionPermitPrefixes st' = []).
  { subst st'. unfold blockSession.
    rewrite (argPrefix_plain raw Hne Hwords). fold p.
    cbn [fst setSession sessionBlockedPrefixes sessionPermitPrefixes].
    now rewrite Hsb, Hsp. }
  destruct Hst' as [-> ->].
  assert (Hrules : buildRules [p]
                   = [ {| prefix := p; tokens := words;
                          tokenCount := Z.of_nat (length words) |} ]).
  { rewrite buildRules_flat_map. cbn [flat_map]. now rewrite Hrule. }
  rewrite Hrules. change (buildRules []) with (@nil PrefixRule).
  unfold guardSegment. rewrite Hinv.
  destruct (words ++ extra) as [|t rest] eqn:Hwe;
    [destruct words; [congruence|discriminate]|].
  rewrite <- Hwe.
  cbn [matchingRules filter tokens].
  rewrite (isPrefixMatch_extended words extra Hne).
  assert (Hpos : (0 < Z.of_nat (length words))%Z)
    by (destruct words; [congruence|simpl; lia]).
  unfold decideLayer, mostSpecificPrefixes, maxTokenCount.
  cbn [map tokenCount fold_left].
  assert (Hneg : (Z.of_nat (length words) <? 0)%Z = false)
    by (apply Z.ltb_ge; lia).
  assert (Hge : (-1 >=? Z.of_nat (length words))%Z = false)
    by (rewrite Z.geb_leb; apply Z.leb_gt; lia).
  rewrite Hneg, Hge. cbn [andb action layerBlocks filter map prefix tokenCount].
  now rewrite Z.eqb_refl.
Qed.

Lemma session_block_blocks_witness :
  let fresh := {| persistentBlockedPrefixes := [];
                  persistentPermitPrefixes := ["terraform"];
                  sessionBlockedPrefixes := [];
                  sessionPermitPrefixes := [] |} in
  let st' := fst (blockSession (Some "terraform destroy") fresh) in
  guardSegment (buildRules (sessionBlockedPrefixes st'))
               (buildRules (sessionPermitPrefixes st'))
               [] (buildRules ["terraform"]) []
               "env TF_LOG=1 terraform destroy -auto-approve"
  = [ {| invocation := "terraform destroy -auto-approve";
         matchedBlocks := ["terraform destroy"] |} ].
Proof.
  intros fresh.
  refine (session_block_blocks fresh "terraform destroy"
            "env TF_LOG=1 terraform destroy -auto-approve" ["-auto-approve"]
            [] (buildRules ["terraform"]) [] _ _ _ _ _ _).
  - vm_compute. discriminate.
  - vm_compute. repeat constructor.
  - reflexivity.
  - reflexivity.
  - reflexivity.
  - reflexivity.
Defined.

(** ** Policy commands *)

Lemma argPrefix_nonempty (args : option string) (p : string) :
  argPrefix args = Some p -> p <> "".
Proof.
  unfold argPrefix.
  destruct (canonicalizePrefix _) as [c|]; cbn [truthy]; [|discriminate].
  destruct c; cbn; [discriminate|]. intros H. injection H as <-. discriminate.
Qed.

Lemma Forall_suffix {A : Type} (P : A -> Prop) (pre l : list A) :
  Forall P (pre ++ l) -> Forall P l.
Proof. intros H. now apply Forall_app in H as [_ H]. Qed.

(** Tokens that are all wrappers or assignments hold no command. *)
Lemma normalize_no_command (tokens : list string) :
  Forall (fun t => In t WRAPPER_NAMES \/ isEnvAssignment t = true) tokens ->
  normalizeInvocationTokens tokens = [].
Proof.
  remember (length tokens) as n eqn:Hn. revert tokens Hn.
  induction n as [n IH] using lt_wf_ind. intros tokens -> Hall.
  rewrite normalizeInvocationTokens_step.
  destruct (skipEnvAssignments_suffix tokens) as [pre0 Hpre0].
  destruct (skipEnvAssignments tokens) as [|t rest] eqn:Hskip;
    [reflexivity|].
  pose proof (skipEnvAssignments_head _ _ _ Hskip) as Ht.
  rewrite Hpre0 in Hall. apply Forall_suffix in Hall.
  inversion Hall as [|? ? Hwrapper Hrest]; subst.
  destruct Hwrapper as [Hwrapper|Hassign]; [|congruence].
  assert (Hrec : forall skipped,
             (exists pre, rest = pre ++ skipped) ->
             normalizeInvocationTokens skipped = []).
  { intros skipped [pre Hpre]. apply (IH (length skipped)); [|reflexivity|].
    - rewrite Hpre, !length_app. cbn [length]. rewrite length_app. lia.
    - rewrite Hpre in Hrest. now apply Forall_suffix in Hrest. }
  destruct Hwrapper as [<-|[<-|[<-|[<-|[<-|[]]]]]]; cbn.
  - apply Hrec, skipEnvArguments_suffix.
  - apply Hrec, skipSudoOptions_suffix.
  - apply Hrec, skipDashOptions_suffix.
  - apply Hrec, skipDashOptions_suffix.
  - apply Hrec, skipDashOptions_suffix.
Qed.

Lemma join_nonempty_list (sep : string) (xs : list string) :
  join sep xs <> "" -> xs <> [].
Proof. intros H ->. now apply H. Qed.

(** The prefix a command works with, read off its argument. *)
Lemma argPrefix_spec (args : option string) :
  let canonicalText :=
    join " " (normalizeInvocationTokens
                (tokenizeShellWords
                   (trim (match args with Some a => a | None => "" end)))) in
  (canonicalText = "" -> argPrefix args = None)
  /\ (canonicalText <> "" -> argPrefix args = Some canonicalText).
Proof.
  intros canonicalText. subst canonicalText.
  unfold argPrefix, canonicalizePrefix.
  destruct (normalizeInvocationTokens _) as [|t rest] eqn:Hnorm.
  - split; [reflexivity|]. intros H. now contradiction H.
  - cbn [truthy]. split.
    + intros ->. reflexivity.
    + intros Hne. destruct (join " " (t :: rest)); [congruence|reflexivity].
Qed.

(** X. The prefix commands refuse exactly the arguments whose canonical
    prefix is empty.  Let the canonical text of an argument be its
    normalized tokens joined by single spaces.  When it is empty (the
    argument is missing, or holds only wrappers and assignments, or is a
    word such as a lone parenthesis whose command name is empty), each of
    the four prefix commands answers the sets it was given, whatever the
    save would answer, with its usage warning and the list of commands.
    When it is not empty no command sends a warning, and the two session
    commands put the canonical text in their own set and leave it out of
    the opposite one. *)
Theorem invalid_prefix_is_refused
    (save : list string -> list string -> option string)
    (args : option string) (st : GuardState) :
  let text := match args with Some a => a | None => "" end in
  let tokens := tokenizeShellWords (trim text) in
  let canonicalText := join " " (normalizeInvocationTokens tokens) in
  let noWarning (result : GuardState * list Notification) :=
    Forall (fun note => snd note <> warning) (snd result) in
  (Forall (fun t => In t WRAPPER_NAMES \/ isEnvAssignment t = true) tokens ->
   canonicalText = "")
  /\ (canonicalText = "" ->
      blockPersist save args st
      = (st, [("Usage: /bash-guard-block-persist <prefix>", warning);
              (usageText, info)])
      /\ permitPersist save args st
         = (st, [("Usage: /bash-guard-permit-persist <prefix>", warning);
                 (usageText, info)])
      /\ blockSession args st
         = (st, [("Usage: /bash-guard-block <prefix>", warning);
                 (usageText, info)])
      /\ permitSession args st
         = (st, [("Usage: /bash-guard-permit <prefix>", warning);
                 (usageText, info)]))
  /\ (canonicalText <> "" ->
      noWarning (blockPersist save args st)
      /\ noWarning (permitPersist save args st)
      /\ noWarning (blockSession args st)
      /\ noWarning (permitSession args st)
      /\ In canonicalText (sessionBlockedPrefixes (fst (blockSession args st)))
      /\ ~ In canonicalText
             (sessionPermitPrefixes (fst (blockSession args st)))
      /\ In canonicalText (sessionPermitPrefixes (fst (permitSession args st)))
      /\ ~ In canonicalText
             (sessionBlockedPrefixes (fst (permitSession args st)))).
Proof.
  intros text tokens canonicalText noWarning.
  destruct (argPrefix_spec args) as [Hrefuse Haccept].
  fold text in Hrefuse, Haccept. fold tokens in Hrefuse, Haccept.
  fold canonicalText in Hrefuse, Haccept.
  split; [|split].
  - intros Hall. subst canonicalText.
    now rewrite (normalize_no_command tokens Hall).
  - intros Hempty. specialize (Hrefuse Hempty).
    unfold blockPersist, permitPersist, blockSession, permitSession.
    rewrite Hrefuse. repeat split.
  - intros Hne. specialize (Haccept Hne). subst noWarning.
    unfold blockPersist, permitPersist, blockSession, permitSession.
    rewrite Haccept. cbv zeta.
    split; [destruct (save _ _); cbn [snd];
            repeat constructor; cbn [snd]; discriminate|].
    split; [destruct (save _ _); cbn [snd];
            repeat constructor; cbn [snd]; discriminate|].
    split; [repeat constructor; cbn [snd]; discriminate|].
    split; [repeat constructor; cbn [snd]; discriminate|].
    cbn [fst setSession sessionBlockedPrefixes sessionPermitPrefixes].
    split; [apply set_add_In; now left|].
    split; [rewrite set_delete_In; intros [_ H]; now apply H|].
    split; [apply set_add_In; now left|].
    rewrite set_delete_In. intros [_ H]. now apply H.
Qed.

Lemma invalid_prefix_is_refused_witness :
  fst (blockPersist readOnlyDisk (Some "sudo -u root env A=1 -i") sampleState)
  = sampleState
  /\ fst (permitSession (Some "FOO=1 sudo env BAR=2 nohup") sampleState)
     = sampleState
  /\ blockSession (Some "(") sampleState
     = (sampleState, [("Usage: /bash-guard-block <prefix>", warning);
                      (usageText, info)])
  /\ In "kubectl get"
        (sessionBlockedPrefixes
           (fst (blockSession (Some "sudo kubectl get") sampleState))).
Proof.
  pose proof (invalid_prefix_is_refused readOnlyDisk
                (Some "sudo -u root env A=1 -i") sampleState)
    as (_ & Hrefused & _).
  pose proof (invalid_prefix_is_refused readOnlyDisk
                (Some "FOO=1 sudo env BAR=2 nohup") sampleState)
    as (Hwrappers & Hrefused' & _).
  pose proof (invalid_prefix_is_refused readOnlyDisk (Some "(") sampleState)
    as (_ & Hparen & _).
  pose proof (invalid_prefix_is_refused readOnlyDisk
                (Some "sudo kubectl get") sampleState)
    as (_ & _ & Haccepted).
  split; [|split; [|split]].
  - destruct (Hrefused eq_refl) as (Hblock & _). now rewrite Hblock.
  - assert (Hempty : join " "
                       (normalizeInvocationTokens
                          (tokenizeShellWords
                             (trim "FOO=1 sudo env BAR=2 nohup"))) = "").
    { apply Hwrappers.
      repeat first [apply Forall_nil
                   | apply Forall_cons; [simpl; auto 8|]]. }
    destruct (Hrefused' Hempty) as (_ & _ & _ & Hpermit). now rewrite Hpermit.
  - exact (proj1 (proj2 (proj2 (Hparen eq_refl)))).
  - assert (Hne : join " "
                    (normalizeInvocationTokens
                       (tokenizeShellWords (trim "sudo kubectl get"))) <> "")
      by discriminate.
    exact (proj1 (proj2 (proj2 (proj2 (proj2 (Haccepted Hne)))))).
Defined.

Lemma set_add_no_empty (p : string) (s : list string) :
  p <> "" -> ~ In "" s -> ~ In "" (set_add p s).
Proof.
  intros Hp Hs Hin. apply set_add_In in Hin as [Heq|Hin]; auto.
Qed.

Lemma set_delete_no_empty (p : string) (s : list string) :
  ~ In "" s -> ~ In "" (set_delete p s).
Proof. intros Hs Hin. now apply set_delete_In in Hin as [Hin _]. Qed.

Lemma canonicalizeEntries_no_empty tte items kept :
  canonicalizeEntries tte items = inr kept -> ~ In "" kept.
Proof.
  intros Hk Hin.
  destruct (canonicalizeEntries_In _ _ _ _ Hk Hin) as (s & _ & _ & Hne).
  now apply Hne.
Qed.

Lemma loaded_no_empty tte file :
  ~ In "" (blockedPrefixes (loadPersistedGuardConfig tte file))
  /\ ~ In "" (permittedPrefixes (loadPersistedGuardConfig tte file)).
Proof.
  assert (Hdefault : ~ In "" defaultBlocked).
  { rewrite defaultBlocked_value. simpl. intuition discriminate. }
  destruct file as [|message|parsed]; try (split; [exact Hdefault|intros []]).
  unfold loadPersistedGuardConfig.
  destruct (canonicalizeEntries tte _) as [|keptB] eqn:HB;
    [split; [exact Hdefault|intros []]|].
  destruct (canonicalizeEntries tte (match arrayField parsed "permittedPrefixes"
                                     with Some items => items | None => [] end))
    as [|keptP] eqn:HP; [split; [exact Hdefault|intros []]|].
  cbn [blockedPrefixes permittedPrefixes]. split; intros Hin.
  - apply (proj2 (set_of_list_spec keptB)) in Hin.
    exact (canonicalizeEntries_no_empty _ _ _ HB Hin).
  - apply (proj2 (set_of_list_spec keptP)) in Hin.
    exact (canonicalizeEntries_no_empty _ _ _ HP Hin).
Qed.

(** X. No rule set ever holds the empty string.  Session start loads
    none, from any configuration file; and every policy command, whatever
    its argument and the outcome of its save, keeps the four sets free of
    it. *)
Theorem rule_sets_hold_no_empty_prefix :
  (forall trimTypeError save configPath file,
     noEmptyPrefix (fst (sessionStart trimTypeError save configPath file)))
  /\ (forall save cmd st,
        noEmptyPrefix st -> noEmptyPrefix (fst (runCommand save cmd st))).
Proof.
  split.
  - intros tte save configPath file. unfold sessionStart, noEmptyPrefix.
    cbn [fst persistentBlockedPrefixes persistentPermitPrefixes
         sessionBlockedPrefixes sessionPermitPrefixes].
    destruct (loaded_no_empty tte file) as [Hb Hp].
    repeat split; auto.
  - intros save cmd st (Hpb & Hpp & Hsb & Hsp).
    destruct cmd as [args|args|args|args| |]; cbn [runCommand].
    + unfold blockPersist.
      destruct (argPrefix args) as [p|] eqn:Hp; [|now repeat split].
      apply argPrefix_nonempty in Hp.
      destruct (save _ _); cbn [fst]; unfold noEmptyPrefix, setPersistent;
        cbn [persistentBlockedPrefixes persistentPermitPrefixes
             sessionBlockedPrefixes sessionPermitPrefixes];
        repeat split; auto;
        repeat match goal with
               | |- context [if ?c then _ else _] => destruct c
               end;
        auto using set_add_no_empty, set_delete_no_empty.
    + unfold permitPersist.
      destruct (argPrefix args) as [p|] eqn:Hp; [|now repeat split].
      apply argPrefix_nonempty in Hp.
      destruct (save _ _); cbn [fst]; unfold noEmptyPrefix, setPersistent;
        cbn [persistentBlockedPrefixes persistentPermitPrefixes
             sessionBlockedPrefixes sessionPermitPrefixes];
        repeat split; auto;
        repeat match goal with
               | |- context [if ?c then _ else _] => destruct c
               end;
        auto using set_add_no_empty, set_delete_no_empty.
    + unfold blockSession.
      destruct (argPrefix args) as [p|] eqn:Hp; [|now repeat split].
      apply argPrefix_nonempty in Hp.
      repeat split; cbn; auto using set_add_no_empty, set_delete_no_empty.
    + unfold permitSession.
      destruct (argPrefix args) as [p|] eqn:Hp; [|now repeat split].
      apply argPrefix_nonempty in Hp.
      repeat split; cbn; auto using set_add_no_empty, set_delete_no_empty.
    + repeat split; cbn; auto.
    + now repeat split.
Qed.

Lemma rule_sets_hold_no_empty_prefix_witness :
  noEmptyPrefix
    (fst (runCommand healthyDisk (BashGuardPermitPersist (Some "'' \'"))
            (fst (sessionStart plainTypeError healthyDisk configPathText
                    (Parsed (JObject [("blockedPrefixes",
                                       JArray [JString ""; JString "\'";
                                               JString "rm"])])))))).
Proof.
  destruct rule_sets_hold_no_empty_prefix as [Hstart Hrun].
  apply Hrun. apply Hstart.
Defined.

(** ** The loader *)

Lemma canonicalizeEntries_accepts tte items kept :
  canonicalizeEntries tte items = inr kept -> allStrings items.
Proof.
  revert kept. induction items as [|v items IH]; intros kept Hk;
    [constructor|].
  destruct v; cbn [canonicalizeEntries] in Hk; try discriminate.
  destruct (canonicalizeEntries tte items) as [|kept'] eqn:Hrest;
    [discriminate|].
  constructor; [now eexists|]. now apply (IH kept').
Qed.

(** X. A parsed configuration is accepted exactly when every entry of
    the arrays it holds is a string.  Otherwise, as for a file that cannot
    be read, the load reports an error and answers the built-in block list
    with no permit, so that one stray entry discards every stored rule. *)
Theorem loader_accepts_exactly_strings (trimTypeError : JSON -> string)
    (parsed : JSON) :
  let loaded := loadPersistedGuardConfig trimTypeError (Parsed parsed) in
  (error loaded = None
   <-> allStrings (storedEntries parsed "blockedPrefixes")
       /\ allStrings (storedEntries parsed "permittedPrefixes"))
  /\ (error loaded <> None ->
      blockedPrefixes loaded = ["gcloud"; "kubectl"]
      /\ permittedPrefixes loaded = []
      /\ existed loaded = true).
Proof.
  intros loaded. subst loaded.
  unfold loadPersistedGuardConfig, storedEntries.
  destruct (arrayField parsed "blockedPrefixes") as [blocked|];
    destruct (arrayField parsed "permittedPrefixes") as [permitted|].
  - destruct (canonicalizeEntries trimTypeError blocked) as [|keptB] eqn:HB.
    + split; [|now intros _].
      split; [discriminate|]. intros [Hb _].
      rewrite (canonicalizeEntries_strings _ _ Hb) in HB. discriminate.
    + destruct (canonicalizeEntries trimTypeError permitted)
        as [|keptP] eqn:HP.
      * split; [|now intros _].
        split; [discriminate|]. intros [_ Hp].
        rewrite (canonicalizeEntries_strings _ _ Hp) in HP. discriminate.
      * split; [|intros H; now contradiction H].
        split; [|reflexivity]. intros _.
        split; eapply canonicalizeEntries_accepts; eassumption.
  - destruct (canonicalizeEntries trimTypeError blocked) as [|keptB] eqn:HB.
    + split; [|now intros _].
      split; [discriminate|]. intros [Hb _].
      rewrite (canonicalizeEntries_strings _ _ Hb) in HB. discriminate.
    + cbn [canonicalizeEntries].
      split; [|intros H; now contradiction H].
      split; [|reflexivity]. intros _.
      split; [eapply canonicalizeEntries_accepts; eassumption|constructor].
  - cbn [canonicalizeEntries].
    destruct (canonicalizeEntries trimTypeError permitted) as [|keptP] eqn:HP.
    + split; [|now intros _].
      split; [discriminate|]. intros [_ Hp].
      rewrite (canonicalizeEntries_strings _ _ Hp) in HP. discriminate.
    + split; [|intros H; now contradiction H].
      split; [|reflexivity]. intros _.
      split; [constructor|eapply canonicalizeEntries_accepts; eassumption].
  - cbn. split; [|intros H; now contradiction H].
    split; [|reflexivity]. intros _. split; constructor.
Qed.

Lemma loader_accepts_exactly_strings_witness :
  let stray :=
    JObject [ ("blockedPrefixes", JArray [JString "terraform"; JNull]);
              ("permittedPrefixes", JArray [JString "kubectl get"]) ] in
  blockedPrefixes (loadPersistedGuardConfig plainTypeError (Parsed stray))
  = ["gcloud"; "kubectl"]
  /\ permittedPrefixes (loadPersistedGuardConfig plainTypeError (Parsed stray))
     = [].
Proof.
  intros stray.
  destruct (proj2 (loader_accepts_exactly_strings plainTypeError stray))
    as (Hb & Hp & _); [discriminate|].
  split; [exact Hb|exact Hp].
Defined.

(** ** Saving *)

Lemma leb_trans (a b c : string) : lebS a b -> lebS b c -> lebS a c.
Proof.
  unfold lebS, String.leb.
  revert b c. induction a as [|x a IH]; intros [|y b] [|z c];
    cbn [String.compare]; try reflexivity; try discriminate.
  unfold Ascii.compare.
  destruct (N.compare_spec (N_of_ascii x) (N_of_ascii y)) as [Hxy|Hxy|Hxy];
    destruct (N.compare_spec (N_of_ascii y) (N_of_ascii z)) as [Hyz|Hyz|Hyz];
    destruct (N.compare_spec (N_of_ascii x) (N_of_ascii z)) as [Hxz|Hxz|Hxz];
    try discriminate; try reflexivity; try lia.
  apply IH.
Qed.

Lemma insertSorted_Permutation (x : string) (l : list string) :
  Permutation (insertSorted x l) (x :: l).
Proof.
  induction l as [|y l IH]; cbn [insertSorted]; [reflexivity|].
  destruct (String.leb x y); [reflexivity|].
  rewrite IH. apply perm_swap.
Qed.

Lemma sortStrings_Permutation (l : list string) :
  Permutation (sortStrings l) l.
Proof.
  induction l as [|x l IH]; [reflexivity|].
  cbn [sortStrings fold_right]. fold (sortStrings l).
  rewrite insertSorted_Permutation. now constructor.
Qed.

Lemma insertSorted_sorted (x : string) (l : list string) :
  StronglySorted lebS l -> StronglySorted lebS (insertSorted x l).
Proof.
  induction 1 as [|y l Hl IH Hy]; cbn [insertSorted];
    [repeat constructor|].
  destruct (String.leb x y) eqn:Hxy.
  - constructor; [now constructor|]. constructor; [exact Hxy|].
    rewrite Forall_forall in Hy |- *. intros z Hz.
    exact (leb_trans _ _ _ Hxy (Hy z Hz)).
  - constructor; [exact IH|].
    assert (Hyx : lebS y x).
    { destruct (String.leb_total x y) as [H|H]; [congruence|exact H]. }
    rewrite Forall_forall in Hy |- *. intros z Hz.
    apply (Permutation_in _ (insertSorted_Permutation x l)) in Hz.
    destruct Hz as [<-|Hz]; [exact Hyx|now apply Hy].
Qed.

Lemma sortStrings_sorted (l : list string) :
  StronglySorted lebS (sortStrings l).
Proof.
  induction l as [|x l IH]; [constructor|].
  cbn [sortStrings fold_right]. now apply insertSorted_sorted.
Qed.

Lemma sorted_Permutation_eq (l1 l2 : list string) :
  StronglySorted lebS l1 -> StronglySorted lebS l2 ->
  Permutation l1 l2 -> l1 = l2.
Proof.
  intros H1. revert l2. induction H1 as [|a l1 Hl1 IH Ha]; intros l2 H2 Hperm.
  - now apply Permutation_nil in Hperm.
  - destruct H2 as [|b l2 Hl2 Hb].
    + now apply Permutation_sym, Permutation_nil in Hperm.
    + assert (Hab : a = b).
      { rewrite Forall_forall in Ha, Hb.
        assert (Hb_in : In b (a :: l1))
          by (apply (Permutation_in _ (Permutation_sym Hperm)); now left).
        assert (Ha_in : In a (b :: l2))
          by (apply (Permutation_in _ Hperm); now left).
        destruct Hb_in as [Heq|Hb_in]; [exact Heq|].
        destruct Ha_in as [Heq|Ha_in]; [now symmetry|].
        apply String.leb_antisym; [now apply Ha|now apply Hb]. }
      subst b. f_equal. apply IH; [exact Hl2|].
      now apply Permutation_cons_inv in Hperm.
Qed.

Lemma sortStrings_order_free (l l' : list string) :
  Permutation l l' -> sortStrings l = sortStrings l'.
Proof.
  intros Hperm.
  apply sorted_Permutation_eq; try apply sortStrings_sorted.
  rewrite !sortStrings_Permutation. exact Hperm.
Qed.

Lemma set_of_list_NoDup (l : list string) : NoDup l -> set_of_list l = l.
Proof.
  unfold set_of_list.
  assert (G : forall acc, NoDup (acc ++ l) ->
                fold_left (fun s x => set_add x s) l acc = acc ++ l).
  { induction l as [|x l IH]; intros acc Hnd; cbn [fold_left].
    - now rewrite app_nil_r.
    - assert (Hfresh : set_has x acc = false).
      { apply set_has_false. intros Hin.
        apply NoDup_remove_2 in Hnd. apply Hnd, in_or_app. now left. }
      unfold set_add at 2. rewrite Hfresh.
      rewrite IH; rewrite <- app_assoc; [reflexivity|exact Hnd]. }
  intros Hnd. exact (G [] Hnd).
Qed.

(** X. What is saved, and what the status shows, does not depend on the
    order in which the prefixes entered the sets: two sets with the same
    members give the same payload and the same listing.  The payload holds
    each set sorted, with the members it had. *)
Theorem save_is_order_free (blocks blocks' permits permits' : list string) :
  Permutation blocks blocks' ->
  Permutation permits permits' ->
  savePayload blocks permits = savePayload blocks' permits'
  /\ formatList blocks = formatList blocks'
  /\ StronglySorted lebS (sortStrings blocks)
  /\ Permutation (sortStrings blocks) blocks.
Proof.
  intros Hb Hp. split; [|split; [|split]].
  - unfold savePayload.
    now rewrite (sortStrings_order_free _ _ Hb), (sortStrings_order_free _ _ Hp).
  - unfold formatList.
    assert (Hsets : Permutation (set_of_list blocks) (set_of_list blocks')).
    { apply NoDup_Permutation; try apply set_of_list_spec.
      intros x. rewrite !(proj2 (set_of_list_spec _)).
      split; apply Permutation_in; [exact Hb|now symmetry]. }
    now rewrite (sortStrings_order_free _ _ Hsets).
  - apply sortStrings_sorted.
  - apply sortStrings_Permutation.
Qed.

Lemma save_is_order_free_witness :
  savePayload ["kubectl"; "gcloud"] ["kubectl get"; "gcloud info"]
  = savePayload ["gcloud"; "kubectl"] ["gcloud info"; "kubectl get"]
  /\ formatList ["kubectl"; "gcloud"] = "gcloud, kubectl".
Proof.
  destruct (save_is_order_free
              ["kubectl"; "gcloud"] ["gcloud"; "kubectl"]
              ["kubectl get"; "gcloud info"] ["gcloud info"; "kubectl get"]
              (perm_swap _ _ _) (perm_swap _ _ _))
    as (Hpayload & Hlist & _).
  split; [exact Hpayload|]. now rewrite Hlist.
Defined.

Lemma canonicalStrings_canonical (l : list string) :
  (forall x, In x l -> isCanonical x) ->
  canonicalStrings (map JString l) = l.
Proof.
  induction l as [|x l IH]; intros Hall; [reflexivity|].
  cbn [map canonicalStrings flat_map].
  destruct (Hall x (or_introl eq_refl)) as [Hcanon Hne].
  rewrite Hcanon. fold (canonicalStrings (map JString l)).
  rewrite IH by (intros y Hy; apply Hall; now right).
  destruct x; [congruence|reflexivity].
Qed.

(** X. Save and load round trip.  When every member of the persistent
    sets is a prefix that canonicalization leaves as it is, loading the
    payload that the save builds reports no error and gives back both
    sets, sorted: the same members, in the order of the file. *)
Theorem save_load_roundtrip (trimTypeError : JSON -> string)
    (blocks permits : list string) :
  NoDup blocks -> NoDup permits ->
  (forall x, In x blocks \/ In x permits -> isCanonical x) ->
  let loaded :=
    loadPersistedGuardConfig trimTypeError
      (Parsed (savePayload blocks permits)) in
  loaded = {| blockedPrefixes := sortStrings blocks;
              permittedPrefixes := sortStrings permits;
              existed := true;
              error := None |}
  /\ Permutation (blockedPrefixes loaded) blocks
  /\ Permutation (permittedPrefixes loaded) permits.
Proof.
  intros Hnb Hnp Hcanon loaded.
  assert (Hload : loaded = {| blockedPrefixes := sortStrings blocks;
                              permittedPrefixes := sortStrings permits;
                              existed := true;
                              error := None |}).
  { subst loaded. unfold loadPersistedGuardConfig, savePayload.
    cbn [arrayField getField String.eqb Ascii.eqb Bool.eqb].
    assert (Hstrings : forall l, allStrings (map JString l)).
    { intros l. apply Forall_forall. intros v Hv.
      apply in_map_iff in Hv as (x & <- & _). now eexists. }
    rewrite !(canonicalizeEntries_strings _ _ (Hstrings _)).
    rewrite !canonicalStrings_canonical.
    - rewrite !set_of_list_NoDup; [reflexivity| |].
      + eapply Permutation_NoDup; [|exact Hnp].
        symmetry. apply sortStrings_Permutation.
      + eapply Permutation_NoDup; [|exact Hnb].
        symmetry. apply sortStrings_Permutation.
    - intros x Hx. apply Hcanon. right.
      exact (Permutation_in _ (sortStrings_Permutation _) Hx).
    - intros x Hx. apply Hcanon. left.
      exact (Permutation_in _ (sortStrings_Permutation _) Hx). }
  split; [exact Hload|]. rewrite Hload. cbn [blockedPrefixes permittedPrefixes].
  split; apply sortStrings_Permutation.
Qed.

Lemma save_load_roundtrip_witness :
  loadPersistedGuardConfig plainTypeError
    (Parsed (savePayload ["kubectl"; "gcloud"] ["kubectl get"]))
  = {| blockedPrefixes := ["gcloud"; "kubectl"];
       permittedPrefixes := ["kubectl get"];
       existed := true;
       error := None |}.
Proof.
  refine (proj1 (save_load_roundtrip plainTypeError
                   ["kubectl"; "gcloud"] ["kubectl get"] _ _ _)).
  - repeat constructor; simpl; intuition discriminate.
  - repeat constructor; simpl; intuition discriminate.
  - intros x [[<-|[<-|[]]]|[<-|[]]]; split; (reflexivity || discriminate).
Defined.

(** ** A persistent permit at work *)

(** In one layer, a permit rule for [words] wins on the invocation
    [words] itself, and on every invocation that starts with [words] when
    the layer holds no block rule. *)
Lemma layer_permit_wins (permits blocks words extra : list string)
    (p : string) :
  In p permits ->
  buildRule [] p = [ {| prefix := p; tokens := words;
                        tokenCount := Z.of_nat (length words) |} ] ->
  words <> [] ->
  extra = [] \/ blocks = [] ->
  action (decideLayer
            (matchingRules (words ++ extra) (buildRules permits))
            (matchingRules (words ++ extra) (buildRules blocks)))
  = Permit.
Proof.
  intros Hp Hrule Hne Hcase.
  set (permitMatches := matchingRules (words ++ extra) (buildRules permits)).
  set (blockMatches := matchingRules (words ++ extra) (buildRules blocks)).
  assert (Hpermit : (Z.of_nat (length words) <= maxTokenCount permitMatches)%Z).
  { apply (maxTokenCount_ge permitMatches
             {| prefix := p; tokens := words;
                tokenCount := Z.of_nat (length words) |}).
    apply filter_In. split.
    - now apply (buildRules_member _ p).
    - now apply isPrefixMatch_extended. }
  assert (Hblock : (maxTokenCount blockMatches <= Z.of_nat (length words))%Z).
  { destruct Hcase as [->| ->].
    - apply maxTokenCount_le; [lia|]. intros r Hr.
      apply matching_count_le in Hr. now rewrite app_nil_r in Hr.
    - subst blockMatches. cbn. lia. }
  assert (Hpos : (0 < Z.of_nat (length words))%Z)
    by (destruct words; [congruence|simpl; lia]).
  unfold decideLayer.
  destruct (maxTokenCount permitMatches <? 0)%Z eqn:Hneg;
    [apply Z.ltb_lt in Hneg; lia|]. cbn [andb].
  destruct (maxTokenCount permitMatches >=? maxTokenCount blockMatches)%Z
    eqn:Hge; [reflexivity|].
  rewrite Z.geb_leb in Hge. apply Z.leb_gt in Hge. lia.
Qed.

(** X. A persistent permit lets its own command through.  In a session
    without session rules, once [/bash-guard-permit-persist] with a prefix
    of plain, already normal words has been saved, a segment whose
    invocation is exactly those words adds nothing to the blocked list,
    whatever persistent block rules there are, the built-in ones
    included. *)
Theorem persistent_permit_allows
    (save : list string -> list string -> option string)
    (st : GuardState) (raw segment : string)
    (blocked : list BlockedInvocation) :
  let words := normalizeInvocationTokens (tokenizeShellWords (trim raw)) in
  let st' := fst (permitPersist save (Some raw) st) in
  words <> [] ->
  Forall (fun w => isPlainToken w = true) words ->
  normalizeInvocationTokens words = words ->
  save (set_delete (join " " words) (persistentBlockedPrefixes st))
       (set_add (join " " words) (persistentPermitPrefixes st)) = None ->
  sessionBlockedPrefixes st = [] ->
  sessionPermitPrefixes st = [] ->
  normalizeInvocationTokens (tokenizeShellWords segment) = words ->
  guardSegment (buildRules (sessionBlockedPrefixes st'))
               (buildRules (sessionPermitPrefixes st'))
               (buildRules (persistentBlockedPrefixes st'))
               (buildRules (persistentPermitPrefixes st'))
               blocked segment
  = blocked.
Proof.
  intros words st' Hne Hwords Hnormal Hsave Hsb Hsp Hinv.
  destruct (buildRule_plain words Hwords Hne Hnormal) as [_ Hrule].
  set (p := join " " words) in *.
  assert (Hst' : st' = setPersistent st
                         (set_delete p (persistentBlockedPrefixes st))
                         (set_add p (persistentPermitPrefixes st))).
  { subst st'. unfold permitPersist.
    rewrite (argPrefix_plain raw Hne Hwords). cbv zeta.
    change (join " " (normalizeInvocationTokens
                        (tokenizeShellWords (trim raw)))) with p.
    now rewrite Hsave. }
  rewrite Hst'. unfold setPersistent.
  cbn [persistentBlockedPrefixes persistentPermitPrefixes
       sessionBlockedPrefixes sessionPermitPrefixes].
  rewrite Hsb, Hsp. change (buildRules []) with (@nil PrefixRule).
  unfold guardSegment. rewrite Hinv.
  destruct words as [|t rest] eqn:Hw; [congruence|]. rewrite <- Hw in *.
  change (matchingRules words []) with (@nil PrefixRule).
  change (action (decideLayer [] [])) with NoAction. cbv iota.
  pose proof (layer_permit_wins
                (set_add p (persistentPermitPrefixes st))
                (set_delete p (persistentBlockedPrefixes st))
                words [] p) as Hwin.
  rewrite app_nil_r in Hwin.
  rewrite Hwin; [reflexivity| |exact Hrule| |now left].
  - apply set_add_In. now left.
  - rewrite Hw. discriminate.
Qed.

Lemma persistent_permit_allows_witness :
  let fresh := {| persistentBlockedPrefixes := ["gcloud"; "kubectl"];
                  persistentPermitPrefixes := [];
                  sessionBlockedPrefixes := [];
                  sessionPermitPrefixes := [] |} in
  let st' := fst (permitPersist healthyDisk (Some "kubectl get pods") fresh) in
  guardSegment (buildRules (sessionBlockedPrefixes st'))
               (buildRules (sessionPermitPrefixes st'))
               (buildRules (persistentBlockedPrefixes st'))
               (buildRules (persistentPermitPrefixes st'))
               [] "sudo kubectl get pods"
  = [].
Proof.
  intros fresh.
  refine (persistent_permit_allows healthyDisk fresh "kubectl get pods"
            "sudo kubectl get pods" [] _ _ _ _ _ _ _).
  - vm_compute. discriminate.
  - vm_compute. repeat constructor.
  - reflexivity.
  - reflexivity.
  - reflexivity.
  - reflexivity.
  - reflexivity.
Defined.

(** ** Command names *)

Ltac each_char c :=
  destruct c as [[] [] [] [] [] [] [] []]; reflexivity.

Lemma lowerChar_idempotent (c : ascii) : lowerChar (lowerChar c) = lowerChar c.
Proof. each_char c. Qed.

Lemma lowerChar_whitespace (c : ascii) :
  isWhitespace (lowerChar c) = isWhitespace c.
Proof. each_char c. Qed.

Lemma lowerChar_quote (c : ascii) : isQuoteChar (lowerChar c) = isQuoteChar c.
Proof. each_char c. Qed.

Lemma lowerChar_paren (c : ascii) : isParenChar (lowerChar c) = isParenChar c.
Proof. each_char c. Qed.

Lemma lowerChar_slash (c : ascii) :
  Ascii.eqb (lowerChar c) "/"%char = Ascii.eqb c "/"%char.
Proof. each_char c. Qed.

Lemma lowerChar_dot (c : ascii) :
  Ascii.eqb (lowerChar c) "."%char = Ascii.eqb c "."%char.
Proof. each_char c. Qed.

Lemma toLowerCase_idempotent (s : string) :
  toLowerCase (toLowerCase s) = toLowerCase s.
Proof.
  induction s as [|c s IH]; [reflexivity|].
  cbn [toLowerCase]. now rewrite lowerChar_idempotent, IH.
Qed.

Lemma toLowerCase_isEmpty (s : string) : isEmpty (toLowerCase s) = isEmpty s.
Proof. destruct s; reflexivity. Qed.

Section LowerCaseCommutes.

Variable p : ascii -> bool.
Hypothesis p_lower : forall c, p (lowerChar c) = p c.

Lemma toLowerCase_dropWhile (s : string) :
  dropWhile p (toLowerCase s) = toLowerCase (dropWhile p s).
Proof.
  induction s as [|c s IH]; [reflexivity|].
  cbn [toLowerCase dropWhile]. rewrite p_lower.
  destruct (p c); [exact IH|reflexivity].
Qed.

Lemma toLowerCase_dropWhileEnd (s : string) :
  dropWhileEnd p (toLowerCase s) = toLowerCase (dropWhileEnd p s).
Proof.
  induction s as [|c s IH]; [reflexivity|].
  cbn [toLowerCase dropWhileEnd]. rewrite IH, toLowerCase_isEmpty, p_lower.
  destruct (isEmpty (dropWhileEnd p s) && p c); reflexivity.
Qed.

End LowerCaseCommutes.

Lemma toLowerCase_splitOn (s : string) :
  splitOn "/"%char (toLowerCase s) = map toLowerCase (splitOn "/"%char s).
Proof.
  induction s as [|c s IH]; [reflexivity|].
  cbn [toLowerCase splitOn]. rewrite lowerChar_slash, IH.
  destruct (Ascii.eqb c "/"%char); [reflexivity|].
  destruct (splitOn "/"%char s); reflexivity.
Qed.

Lemma pop_map {A B : Type} (f : A -> B) (xs : list A) :
  pop (map f xs) = option_map f (pop xs).
Proof.
  induction xs as [|x xs IH]; [reflexivity|].
  destruct xs as [|y xs]; [reflexivity|]. exact IH.
Qed.

Lemma filter_nonempty_lower (xs : list string) :
  filter (fun piece => negb (isEmpty piece)) (map toLowerCase xs)
  = map toLowerCase (filter (fun piece => negb (isEmpty piece)) xs).
Proof.
  induction xs as [|x xs IH]; [reflexivity|].
  cbn [map filter]. rewrite toLowerCase_isEmpty.
  destruct (isEmpty x); cbn [negb map]; now rewrite IH.
Qed.

Lemma isDotExe_lower (s : string) : isDotExe (toLowerCase s) = isDotExe s.
Proof.
  destruct s as [|d [|e1 [|x [|e2 [|c s]]]]]; try reflexivity.
  cbn [toLowerCase isDotExe].
  now rewrite lowerChar_dot, !lowerChar_idempotent.
Qed.

Lemma stripExe_lower (s : string) :
  stripExe (toLowerCase s) = toLowerCase (stripExe s).
Proof.
  induction s as [|c s IH]; [reflexivity|].
  change (toLowerCase (String c s)) with (String (lowerChar c) (toLowerCase s)).
  cbn [stripExe].
  change (String (lowerChar c) (toLowerCase s)) with (toLowerCase (String c s)).
  rewrite isDotExe_lower.
  destruct (isDotExe (String c s)); [reflexivity|].
  cbn [toLowerCase]. now rewrite IH.
Qed.

(** X. Command names are compared without regard to case: the command
    name of a token is already in lower case, and it is the command name
    of the token written in lower case. *)
Theorem command_name_ignores_case (raw : string) :
  toLowerCase (normalizeCommandName raw) = normalizeCommandName raw
  /\ normalizeCommandName (toLowerCase raw) = normalizeCommandName raw.
Proof.
  split; [apply toLowerCase_idempotent|].
  unfold normalizeCommandName, trim.
  rewrite (toLowerCase_dropWhile _ lowerChar_whitespace).
  rewrite (toLowerCase_dropWhileEnd _ lowerChar_whitespace).
  rewrite (toLowerCase_dropWhile _ lowerChar_quote).
  rewrite (toLowerCase_dropWhileEnd _ lowerChar_quote).
  rewrite (toLowerCase_dropWhile _ lowerChar_paren).
  rewrite (toLowerCase_dropWhileEnd _ lowerChar_paren).
  set (noParens := dropWhileEnd isParenChar _).
  rewrite toLowerCase_splitOn, filter_nonempty_lower, pop_map.
  destruct (pop (filter _ (splitOn "/"%char noParens))) as [piece|];
    cbn [option_map]; now rewrite stripExe_lower, toLowerCase_idempotent.
Qed.

Lemma dropWhile_none (p : ascii -> bool) (s : string) :
  allChars (fun c => negb (p c)) s = true -> dropWhile p s = s.
Proof.
  destruct s as [|c s]; [reflexivity|]. cbn [allChars dropWhile].
  intros H. apply andb_true_iff in H as [Hc _].
  apply negb_true_iff in Hc. now rewrite Hc.
Qed.

Lemma dropWhileEnd_none (p : ascii -> bool) (s : string) :
  allChars (fun c => negb (p c)) s = true -> dropWhileEnd p s = s.
Proof.
  induction s as [|c s IH]; [reflexivity|]. cbn [allChars dropWhileEnd].
  intros H. apply andb_true_iff in H as [Hc Hs].
  apply negb_true_iff in Hc. now rewrite (IH Hs), Hc, andb_false_r.
Qed.

Lemma allChars_weaken (p q : ascii -> bool) (s : string) :
  (forall c, p c = true -> q c = true) ->
  allChars p s = true -> allChars q s = true.
Proof.
  intros Hpq. induction s as [|c s IH]; [reflexivity|]. cbn [allChars].
  intros H. apply andb_true_iff in H as [Hc Hs].
  now rewrite (Hpq c Hc), (IH Hs).
Qed.

Lemma allChars_app (p : ascii -> bool) (a b : string) :
  allChars p (a ++ b) = allChars p a && allChars p b.
Proof.
  induction a as [|c a IH]; [reflexivity|]. cbn [append allChars].
  now rewrite IH, andb_assoc.
Qed.

Lemma splitOn_nonempty (sep : ascii) (s : string) : splitOn sep s <> [].
Proof.
  induction s as [|c s IH]; cbn [splitOn]; [discriminate|].
  destruct (Ascii.eqb c sep); [discriminate|].
  destruct (splitOn sep s); [congruence|discriminate].
Qed.

Lemma splitOn_app (sep : ascii) (a b : string) :
  splitOn sep (a ++ String sep b) = splitOn sep a ++ splitOn sep b.
Proof.
  induction a as [|c a IH]; cbn [append splitOn].
  - now rewrite Ascii.eqb_refl.
  - rewrite IH. destruct (Ascii.eqb c sep); [reflexivity|].
    pose proof (splitOn_nonempty sep a) as Hne.
    destruct (splitOn sep a); [congruence|reflexivity].
Qed.

Lemma splitOn_name (name : string) :
  allChars isNameChar name = true -> splitOn "/"%char name = [name].
Proof.
  induction name as [|c name IH]; [reflexivity|]. cbn [allChars splitOn].
  intros H. apply andb_true_iff in H as [Hc Hname].
  unfold isNameChar in Hc. apply andb_true_iff in Hc as [_ Hslash].
  apply negb_true_iff in Hslash. now rewrite Hslash, (IH Hname).
Qed.

Lemma pop_last {A : Type} (xs : list A) (x : A) : pop (xs ++ [x]) = Some x.
Proof.
  induction xs as [|y xs IH]; [reflexivity|].
  cbn [app pop]. destruct (xs ++ [x]) eqn:Hx; [|exact IH].
  now destruct xs.
Qed.

(** The command name of a text made of path characters, in terms of its
    last component. *)
Lemma normalizeCommandName_path (text name : string) (front : list string) :
  allChars isPathChar text = true ->
  isEmpty name = false ->
  splitOn "/"%char text = front ++ [name] ->
  normalizeCommandName text = toLowerCase (stripExe name).
Proof.
  intros Hpath Hname Hsplit. unfold normalizeCommandName, trim.
  assert (Hws : allChars (fun c => negb (isWhitespace c)) text = true).
  { apply (allChars_weaken isPathChar); [|exact Hpath].
    intros c Hc. unfold isPathChar in Hc.
    apply negb_true_iff, orb_false_iff in Hc as [Hc _].
    apply orb_false_iff in Hc as [Hc _]. now rewrite Hc. }
  assert (Hq : allChars (fun c => negb (isQuoteChar c)) text = true).
  { apply (allChars_weaken isPathChar); [|exact Hpath].
    intros c Hc. unfold isPathChar in Hc.
    apply negb_true_iff, orb_false_iff in Hc as [Hc _].
    apply orb_false_iff in Hc as [_ Hc]. now rewrite Hc. }
  assert (Hp : allChars (fun c => negb (isParenChar c)) text = true).
  { apply (allChars_weaken isPathChar); [|exact Hpath].
    intros c Hc. unfold isPathChar in Hc.
    apply negb_true_iff, orb_false_iff in Hc as [_ Hc]. now rewrite Hc. }
  rewrite (dropWhile_none _ _ Hws), (dropWhileEnd_none _ _ Hws).
  rewrite (dropWhile_none _ _ Hq), (dropWhileEnd_none _ _ Hq).
  rewrite (dropWhile_none _ _ Hp), (dropWhileEnd_none _ _ Hp).
  rewrite Hsplit, filter_app. cbn [filter]. rewrite Hname. cbn [negb].
  now rewrite pop_last.
Qed.

(** X. The directory of a program does not matter: for a program name
    without slash, whitespace, quote or parenthesis, the command name of
    the program reached through any path is the command name of the
    program alone. *)
Theorem command_name_ignores_path (dir name : string) :
  allChars isPathChar dir = true ->
  allChars isNameChar name = true ->
  isEmpty name = false ->
  normalizeCommandName (dir ++ String "/" name) = normalizeCommandName name.
Proof.
  intros Hdir Hname Hne.
  assert (Hpath : allChars isPathChar name = true).
  { apply (allChars_weaken isNameChar); [|exact Hname].
    intros c Hc. unfold isNameChar in Hc.
    now apply andb_true_iff in Hc as [Hc _]. }
  rewrite (normalizeCommandName_path name name [] Hpath Hne
             (splitOn_name name Hname)).
  apply (normalizeCommandName_path _ name (splitOn "/"%char dir)).
  - rewrite allChars_app, Hdir. cbn [allChars andb]. now rewrite Hpath.
  - exact Hne.
  - now rewrite splitOn_app, (splitOn_name name Hname).
Qed.

Lemma command_name_ignores_path_witness :
  normalizeCommandName "/usr/local/bin/Kubectl.EXE" = "kubectl"
  /\ normalizeCommandName "./node_modules/.bin/gcloud" = "gcloud".
Proof.
  split.
  - exact (eq_trans
             (command_name_ignores_path "/usr/local/bin" "Kubectl.EXE"
                eq_refl eq_refl eq_refl)
             eq_refl).
  - exact (eq_trans
             (command_name_ignores_path "./node_modules/.bin" "gcloud"
                eq_refl eq_refl eq_refl)
             eq_refl).
Defined.

(** ** What a record reports *)

Lemma decideLayer_block_names (permitMatches blockMatches : list PrefixRule) :
  action (decideLayer permitMatches blockMatches) = Block ->
  layerBlocks (decideLayer permitMatches blockMatches) <> []
  /\ forall m,
       In m (layerBlocks (decideLayer permitMatches blockMatches)) ->
       exists r, In r blockMatches /\ prefix r = m.
Proof.
  unfold decideLayer.
  destruct ((maxTokenCount permitMatches <? 0)%Z
            && (maxTokenCount blockMatches <? 0)%Z) eqn:Hnone;
    [discriminate|].
  destruct (maxTokenCount permitMatches >=? maxTokenCount blockMatches)%Z
    eqn:Hge; [discriminate|]. intros _. cbn [layerBlocks].
  rewrite Z.geb_leb in Hge. apply Z.leb_gt in Hge.
  assert (Hpos : (maxTokenCount blockMatches <? 0)%Z = false).
  { apply Z.ltb_ge.
    apply andb_false_iff in Hnone as [Hn|Hn]; apply Z.ltb_ge in Hn; lia. }
  unfold mostSpecificPrefixes. rewrite Hpos. split.
  - pose proof (maxTokenCount_greatest blockMatches) as Hg.
    destruct blockMatches as [|r0 rules].
    + cbn in Hpos. discriminate.
    + destruct Hg as [(r & Hr & Hc) _]. intros Hnil.
      assert (Hin : In (prefix r)
                       (map prefix
                          (filter (fun rule =>
                                     (tokenCount rule
                                      =? maxTokenCount (r0 :: rules))%Z)
                                  (r0 :: rules)))).
      { apply in_map, filter_In. split; [exact Hr|now apply Z.eqb_eq]. }
      rewrite Hnil in Hin. destruct Hin.
  - intros m Hm. apply in_map_iff in Hm as (r & Hpre & Hr).
    apply filter_In in Hr as [Hr _]. now exists r.
Qed.

Lemma buildRules_origin (prefixes : list string) (r : PrefixRule) :
  In r (buildRules prefixes) ->
  exists p, In p prefixes /\ canonicalizePrefix p = Some (prefix r).
Proof.
  rewrite buildRules_flat_map, in_flat_map. intros (p & Hp & Hr).
  exists p. split; [exact Hp|]. unfold buildRule in Hr.
  destruct (canonicalizePrefix p) as [c|]; [|destruct Hr].
  destruct (isEmpty c); [destruct Hr|]. now destruct Hr as [<-|[]].
Qed.

(** X. A report never names a rule that is not there.  Every record of
    the blocked list belongs to a segment of the input, carries the
    normalized invocation of that segment, names at least one matched
    block, and each matched block is the canonical prefix of a member of
    the session block set or of the persistent block set. *)
Theorem blocked_records_name_rules
    (input : string) (pb pp sb sp : list string) (record : BlockedInvocation) :
  In record (findBlockedInvocations input pb pp sb sp) ->
  (exists segment,
     In segment (splitShellSegments input)
     /\ invocation record
        = join " " (normalizeInvocationTokens (tokenizeShellWords segment)))
  /\ matchedBlocks record <> []
  /\ forall m,
       In m (matchedBlocks record) ->
       exists p, (In p sb \/ In p pb) /\ canonicalizePrefix p = Some m.
Proof.
  unfold findBlockedInvocations.
  rewrite (fold_left_push _ _ (guardSegment_push _ _ _ _)). cbn [app].
  rewrite in_flat_map. intros (segment & Hseg & Hrec).
  unfold guardSegment in Hrec.
  destruct (normalizeInvocationTokens (tokenizeShellWords segment))
    as [|t rest] eqn:Hinv; [destruct Hrec|].
  assert (Hnames : forall permits blocks,
             action (decideLayer
                       (matchingRules (t :: rest) (buildRules permits))
                       (matchingRules (t :: rest) (buildRules blocks)))
             = Block ->
             layerBlocks (decideLayer
                            (matchingRules (t :: rest) (buildRules permits))
                            (matchingRules (t :: rest) (buildRules blocks)))
             <> []
             /\ forall m,
                  In m (layerBlocks
                          (decideLayer
                             (matchingRules (t :: rest) (buildRules permits))
                             (matchingRules (t :: rest) (buildRules blocks)))) ->
                  exists p, In p blocks /\ canonicalizePrefix p = Some m).
  { intros permits blocks Hblock.
    destruct (decideLayer_block_names _ _ Hblock) as [Hne Hall].
    split; [exact Hne|]. intros m Hm.
    destruct (Hall m Hm) as (r & Hr & <-).
    apply filter_In in Hr as [Hr _]. now apply buildRules_origin. }
  destruct (action (decideLayer
                      (matchingRules (t :: rest) (buildRules sp))
                      (matchingRules (t :: rest) (buildRules sb))))
    eqn:Hsession; cbn [app] in Hrec.
  - destruct Hrec.
  - destruct Hrec as [<-|[]]. cbn [invocation matchedBlocks].
    destruct (Hnames sp sb Hsession) as [Hne Hall].
    split; [exists segment; now rewrite Hinv|]. split; [exact Hne|].
    intros m Hm. destruct (Hall m Hm) as (p & Hp & Hc). exists p. auto.
  - destruct (action (decideLayer
                        (matchingRules (t :: rest) (buildRules pp))
                        (matchingRules (t :: rest) (buildRules pb))))
      eqn:Hpersistent; cbn [isBlock app] in Hrec; try destruct Hrec as [<-|[]];
      try destruct Hrec.
    cbn [invocation matchedBlocks].
    destruct (Hnames pp pb Hpersistent) as [Hne Hall].
    split; [exists segment; now rewrite Hinv|]. split; [exact Hne|].
    intros m Hm. destruct (Hall m Hm) as (p & Hp & Hc). exists p. auto.
Qed.

Lemma blocked_records_name_rules_witness :
  Forall (fun record => matchedBlocks record <> [])
         (findBlockedInvocations "ls; sudo kubectl get pods | gcloud info"
            ["gcloud"; "kubectl"] [] ["kubectl get"] []).
Proof.
  apply Forall_forall. intros record Hin.
  exact (proj1 (proj2 (blocked_records_name_rules _ _ _ _ _ record Hin))).
Defined.
